(** * BFG Forge: declaration-script lexer and parsers, scene export

    A shallow embedding of [bfg_forge.py]: the [Lexer] class, the material
    and entity declaration parsers ([ImportMaterials.parse_material_file],
    [ImportEntities.parse_def_file]), the number formatter [ftos] and the
    map exporter ([ExportMap.create_primitive], [ExportMap.execute]).

    Python strings are [string]s of 8-bit characters, Python floats are the
    kernel's binary64 floats, [None] is [None], and an exception is the
    [Exn] outcome of a computation.  Loops that Python bounds by the length
    of the input are recursions on the number of characters left; the token
    loops of the parsers, which Python does not bound, take fuel and answer
    [None] when it runs out. *)

From Stdlib Require Import ZArith String Ascii List Floats Lia Bool Arith.
From Stdlib Require DecimalString.
From stdpp Require Import base option list strings.
Import ListNotations.

Local Open Scope string_scope.
Local Open Scope nat_scope.

(** ** Outcomes *)

(** The exceptions the modelled code can raise.  The first three are the
    [Exception]s of the lexer; the others are raised by Python itself or by
    the host's property system. *)
Inductive exn : Type :=
| QuoteInMiddleOfToken
| EofInQuotedToken
| ExpectedToken (expected : string) (got : option string) (line : nat)
| AttributeError
| TypeError
| ValueError
| IndexError
| StopIteration.

Inductive res (A : Type) : Type :=
| Val (a : A)
| Exn (e : exn).
Arguments Val {A} a.
Arguments Exn {A} e.

(** ** Characters and strings *)

Definition quote : ascii := "034"%char.
Definition newline : ascii := "010"%char.
Definition slash : ascii := "/"%char.
Definition star : ascii := "*"%char.
Definition backslash : ascii := "092"%char.

(** [c in s] for a one-character [c]. *)
Fixpoint char_in (c : ascii) (s : string) : bool :=
  match s with
  | EmptyString => false
  | String d s' => Ascii.eqb c d || char_in c s'
  end.

(** [s[i:j]] for [0 <= i], [0 <= j]. *)
Definition slice (s : string) (i j : nat) : string := substring i (j - i) s.

(** [c.lower()] and [s.lower()] on 8-bit characters. *)
Definition lower_char (c : ascii) : ascii :=
  let n := nat_of_ascii c in
  if (65 <=? n) && (n <=? 90) then ascii_of_nat (n + 32) else c.

Fixpoint lower (s : string) : string :=
  match s with
  | EmptyString => EmptyString
  | String c s' => String (lower_char c) (lower s')
  end.

(** [s.rstrip(chars)]: drop every trailing character that occurs in [chars]. *)
Fixpoint rstrip (chars s : string) : string :=
  match s with
  | EmptyString => EmptyString
  | String c s' =>
      match rstrip chars s' with
      | EmptyString => if char_in c chars then EmptyString else String c EmptyString
      | r => String c r
      end
  end.

(** Python's truth value of an optional string: [None] and [""] are false. *)
Definition truthy (o : option string) : bool :=
  match o with
  | Some (String _ _) => true
  | _ => false
  end.

(** ** LEXER *)

Module Lexer.

Definition valid_token_chars : string :=
  "abcdefghijklmnopqrstuvwxyzABCDEFGHIJKLMNOPQRSTUVWXYZ0123456789_/\-.&:".
Definition valid_single_tokens : string := "{}[]()+-*/%!=<>,".

Record t : Type := mk { data : string; line : nat; pos : nat }.

(** [__init__]: line 1, position 0, the whole file as [data]. *)
Definition init (contents : string) : t := mk contents 1 0.

Definition eof (lex : t) : bool := String.length (data lex) <=? pos lex.

(** [self.data[self.pos]], [None] exactly when [eof]. *)
Definition cur (lex : t) : option ascii := get (pos lex) (data lex).

(** [nc]: the character after the current one, or [None]. *)
Definition next (lex : t) : option ascii := get (pos lex + 1) (data lex).

Definition advance (k : nat) (lex : t) : t :=
  mk (data lex) (line lex) (pos lex + k).

Definition count_line (lex : t) : t :=
  mk (data lex) (line lex + 1) (pos lex).

(** Characters not yet consumed: the bound of every scanning loop. *)
Definition remaining (lex : t) : nat := String.length (data lex) - pos lex.

Definition char_is (c : ascii) (o : option ascii) : bool :=
  match o with
  | Some d => Ascii.eqb c d
  | None => false
  end.

(** The [//] branch of [skip_whitespace]: up to the end of the line. *)
Fixpoint skip_line_comment (n : nat) (lex : t) : t :=
  match n with
  | 0 => lex
  | S n' =>
      match cur lex with
      | None => lex
      | Some c =>
          if Ascii.eqb c newline then lex
          else skip_line_comment n' (advance 1 lex)
      end
  end.

(** The [/*] branch of [skip_whitespace]: up to and over the next [*/]. *)
Fixpoint skip_block_comment (n : nat) (lex : t) : t :=
  match n with
  | 0 => lex
  | S n' =>
      match cur lex with
      | None => lex
      | Some c =>
          if Ascii.eqb c star && char_is slash (next lex) then advance 2 lex
          else skip_block_comment n' (advance 1 lex)
      end
  end.

Fixpoint skip_whitespace_loop (n : nat) (lex : t) : t :=
  match n with
  | 0 => lex
  | S n' =>
      match cur lex with
      | None => lex
      | Some c =>
          if Ascii.eqb c newline then
            skip_whitespace_loop n' (advance 1 (count_line lex))
          else if nat_of_ascii c <=? nat_of_ascii " " then
            skip_whitespace_loop n' (advance 1 lex)
          else if Ascii.eqb c slash && char_is slash (next lex) then
            skip_whitespace_loop n' (skip_line_comment (remaining lex) lex)
          else if Ascii.eqb c slash && char_is star (next lex) then
            skip_whitespace_loop n' (skip_block_comment (remaining lex) lex)
          else lex
      end
  end.

Definition skip_whitespace (lex : t) : t :=
  skip_whitespace_loop (remaining lex) lex.

(** The inner loop of [parse_token], entered after the opening quote:
    [start] is the position of that quote. *)
Fixpoint quoted_loop (n : nat) (start : nat) (lex : t) : res (option string) * t :=
  match n with
  | 0 => (Exn EofInQuotedToken, lex)
  | S n' =>
      match cur lex with
      | None => (Exn EofInQuotedToken, lex)
      | Some c =>
          let lex' := advance 1 lex in
          if Ascii.eqb c quote then
            (Val (Some (slice (data lex') (start + 1) (pos lex' - 1))), lex')
          else quoted_loop n' start lex'
      end
  end.

(** [end = self.pos; return self.data[start:end]] *)
Definition finish (start : nat) (lex : t) : res (option string) * t :=
  (Val (Some (slice (data lex) start (pos lex))), lex).

(** The outer loop of [parse_token]. *)
Fixpoint token_loop (n : nat) (start : nat) (lex : t) : res (option string) * t :=
  match n with
  | 0 => finish start lex
  | S n' =>
      match cur lex with
      | None => finish start lex
      | Some c =>
          if Ascii.eqb c quote then
            if negb (start =? pos lex) then (Exn QuoteInMiddleOfToken, lex)
            else quoted_loop (remaining (advance 1 lex)) start (advance 1 lex)
          else if (Ascii.eqb c slash && char_is slash (next lex))
                  || (Ascii.eqb c slash && char_is star (next lex)) then
            finish start lex
          else if negb (char_in c valid_token_chars) then
            if char_in c valid_single_tokens then
              if pos lex =? start then finish start (advance 1 lex)
              else finish start lex
            else finish start lex
          else token_loop n' start (advance 1 lex)
      end
  end.

Definition parse_token (lex : t) : res (option string) * t :=
  let lex := skip_whitespace lex in
  if eof lex then (Val None, lex)
  else token_loop (remaining lex) (pos lex) lex.

(** [token == t] for a string [token] and an optional string [t]. *)
Definition token_is (token : string) (t : option string) : bool :=
  match t with
  | Some s => String.eqb token s
  | None => false
  end.

Definition expect_token (token : string) (lex : t) : res unit * t :=
  match parse_token lex with
  | (Exn e, lex') => (Exn e, lex')
  | (Val t, lex') =>
      if negb (token_is token t) then (Exn (ExpectedToken token t (line lex')), lex')
      else (Val tt, lex')
  end.

(** The [while True] loop of [skip_bracket_delimiter_section].  Nothing
    bounds it: a token can be empty and leave the position where it was. *)
Fixpoint skip_loop (fuel : nat) (opening closing : string)
         (num_required_closing : Z) (lex : t) : option (res unit * t) :=
  match fuel with
  | 0 => None
  | S fuel' =>
      match parse_token lex with
      | (Exn e, lex') => Some (Exn e, lex')
      | (Val token, lex') =>
          match token with
          | None => Some (Val tt, lex')
          | Some _ =>
              if token_is opening token then
                skip_loop fuel' opening closing (num_required_closing + 1) lex'
              else if token_is closing token then
                let num_required_closing := (num_required_closing - 1)%Z in
                if (num_required_closing =? 0)%Z then Some (Val tt, lex')
                else skip_loop fuel' opening closing num_required_closing lex'
              else skip_loop fuel' opening closing num_required_closing lex'
          end
      end
  end.

Definition skip_bracket_delimiter_section (fuel : nat) (opening closing : string)
           (lex : t) : option (res unit * t) :=
  match expect_token opening lex with
  | (Exn e, lex') => Some (Exn e, lex')
  | (Val _, lex') => skip_loop fuel opening closing 1 lex'
  end.

End Lexer.

(** ** Parser state and its monad *)

(** What a parser works on: the lexer of the file being read and the
    declaration table ([scene.bfg.material_decls] or [scene.bfg.entities]),
    a host collection that keeps its items in insertion order.  A
    computation answers [None] when its fuel is spent, and otherwise a value
    or an exception together with the state reached: what was written to the
    table before an exception stays written. *)
Record pstate (T : Type) : Type := mkst { lex : Lexer.t; decls : list T }.
Arguments mkst {T} lex decls.
Arguments lex {T} p.
Arguments decls {T} p.

Definition M (T A : Type) : Type := pstate T -> option (res A * pstate T).

Definition ret {T A} (a : A) : M T A := fun s => Some (Val a, s).
Definition raise {T A} (e : exn) : M T A := fun s => Some (Exn e, s).
Definition bind {T A B} (m : M T A) (k : A -> M T B) : M T B :=
  fun s =>
    match m s with
    | None => None
    | Some (Exn e, s') => Some (Exn e, s')
    | Some (Val a, s') => k a s'
    end.
Definition out_of_fuel {T A} : M T A := fun _ => None.

Notation "'let*' x ':=' m 'in' k" := (bind m (fun x => k))
  (at level 10, x pattern, m at level 100, k at level 200, only parsing).
Notation "m ';;' k" := (bind m (fun _ => k))
  (at level 100, k at level 200, right associativity, only parsing).

(** A method of the lexer, run on the lexer of the state. *)
Definition on_lex {T A} (f : Lexer.t -> res A * Lexer.t) : M T A :=
  fun s => let (r, l) := f (lex s) in Some (r, mkst l (decls s)).

Definition on_lex_fuel {T A} (f : Lexer.t -> option (res A * Lexer.t)) : M T A :=
  fun s =>
    match f (lex s) with
    | None => None
    | Some (r, l) => Some (r, mkst l (decls s))
    end.

(** [decl.field = ...] on the item at index [i] of the table. *)
Definition update {T} (i : nat) (f : T -> T) : M T unit :=
  fun s => Some (Val tt, mkst (lex s) (alter f i (decls s))).

Definition table {T} : M T (list T) := fun s => Some (Val (decls s), s).

(** [collection.add()]: a new item at the end, its index returned. *)
Definition add {T} (item : T) : M T nat :=
  fun s => Some (Val (length (decls s)), mkst (lex s) (decls s ++ [item])%list).

Definition of_res {T A} (r : res A) : M T A :=
  match r with
  | Val a => ret a
  | Exn e => raise e
  end.

(** ** MATERIALS *)

Module Materials.

(** [MaterialDeclPropGroup]; a new item holds the defaults of its
    properties, the empty string and [0.0].  The host keeps
    [heightmap_scale] in single precision; the value modelled is the one
    assigned. *)
Record MaterialDeclPropGroup : Type := mk {
  name : string;
  diffuse_texture : string;
  editor_texture : string;
  heightmap_scale : float; (* 0 if normal_texture isn't a heightmap *)
  normal_texture : string;
  specular_texture : string;
  texture : string (* any stage texture map *)
}.

Definition new_item : MaterialDeclPropGroup := mk "" "" "" 0%float "" "" "".

Definition set_name (v : string) (d : MaterialDeclPropGroup) :=
  mk v (diffuse_texture d) (editor_texture d) (heightmap_scale d)
     (normal_texture d) (specular_texture d) (texture d).
Definition set_diffuse_texture (v : string) (d : MaterialDeclPropGroup) :=
  mk (name d) v (editor_texture d) (heightmap_scale d)
     (normal_texture d) (specular_texture d) (texture d).
Definition set_editor_texture (v : string) (d : MaterialDeclPropGroup) :=
  mk (name d) (diffuse_texture d) v (heightmap_scale d)
     (normal_texture d) (specular_texture d) (texture d).
Definition set_heightmap_scale (v : float) (d : MaterialDeclPropGroup) :=
  mk (name d) (diffuse_texture d) (editor_texture d) v
     (normal_texture d) (specular_texture d) (texture d).
Definition set_normal_texture (v : string) (d : MaterialDeclPropGroup) :=
  mk (name d) (diffuse_texture d) (editor_texture d) (heightmap_scale d)
     v (specular_texture d) (texture d).
Definition set_specular_texture (v : string) (d : MaterialDeclPropGroup) :=
  mk (name d) (diffuse_texture d) (editor_texture d) (heightmap_scale d)
     (normal_texture d) v (texture d).
Definition set_texture (v : string) (d : MaterialDeclPropGroup) :=
  mk (name d) (diffuse_texture d) (editor_texture d) (heightmap_scale d)
     (normal_texture d) (specular_texture d) v.

(** The locals of the body loop of [parse_material_file]. *)
Record locals : Type := mkl {
  num_required_closing : Z;
  in_stage : bool;
  stage_blend : option string;
  stage_heightmap_scale : float;
  stage_texture : option string
}.

(** Their values when the loop is entered. *)
Definition body_entry : locals := mkl 1 false None 0%float None.

Section WithHost.

(** Two things the host and Python decide, not this file: [float(s)]
    on a string, and what a [StringProperty] holds after [None] is
    assigned to it (or the exception that assignment raises). *)
Variable float_of_string : string -> res float.
Variable none_as_string : res string.

#[local] Abbreviation M := (M MaterialDeclPropGroup).

(** [float(t)] for a token that may be [None]. *)
Definition float_of (t : option string) : res float :=
  match t with
  | None => Exn TypeError
  | Some s => float_of_string s
  end.

(** [decl.<field> = value] for a string property. *)
Definition assign (decl : nat) (set : string -> MaterialDeclPropGroup -> MaterialDeclPropGroup)
           (value : option string) : M unit :=
  match value with
  | Some v => update decl (set v)
  | None => let* v := of_res none_as_string in update decl (set v)
  end.

(** [t.lower()] for a token that may be [None]. *)
Definition lower_of (t : option string) : M string :=
  match t with
  | None => raise AttributeError
  | Some s => ret (lower s)
  end.

Definition parse_heightmap : M (option string * float) :=
  on_lex (Lexer.expect_token "(") ;;
  let* texture := on_lex Lexer.parse_token in
  on_lex (Lexer.expect_token ",") ;;
  let* t := on_lex Lexer.parse_token in
  let* scale := of_res (float_of t) in
  on_lex (Lexer.expect_token ")") ;;
  ret (texture, scale).

(** Leaving a stage: the [num_required_closing == 1] branch. *)
Definition close_stage (decl : nat) (v : locals) : M unit :=
  (if truthy (stage_texture v)
   then assign decl set_texture (stage_texture v)
   else ret tt) ;;
  if truthy (stage_blend v) && truthy (stage_texture v) then
    let* blend := lower_of (stage_blend v) in
    if String.eqb blend "bumpmap" then
      assign decl set_normal_texture (stage_texture v) ;;
      update decl (set_heightmap_scale (stage_heightmap_scale v))
    else if String.eqb blend "diffusemap" then
      assign decl set_diffuse_texture (stage_texture v)
    else if String.eqb blend "specularmap" then
      assign decl set_specular_texture (stage_texture v)
    else ret tt
  else ret tt.

(** The brace bookkeeping at the head of the loop body; [None] is
    [break]. *)
Definition braces (decl : nat) (token : string) (v : locals) : M (option locals) :=
  if String.eqb token "{" then
    let n := (num_required_closing v + 1)%Z in
    if (n =? 2)%Z then ret (Some (mkl n true None 0%float None))
    else ret (Some (mkl n (in_stage v) (stage_blend v)
                        (stage_heightmap_scale v) (stage_texture v)))
  else if String.eqb token "}" then
    let n := (num_required_closing v - 1)%Z in
    if (n =? 0)%Z then ret None
    else if (n =? 1)%Z then
      close_stage decl v ;;
      ret (Some (mkl n false (stage_blend v)
                     (stage_heightmap_scale v) (stage_texture v)))
    else ret (Some (mkl n (in_stage v) (stage_blend v)
                        (stage_heightmap_scale v) (stage_texture v)))
  else ret (Some v).

(** The keys of a stage: the [if in_stage] branch. *)
Definition stage_keys (token : string) (v : locals) : M locals :=
  if String.eqb (lower token) "blend" then
    let* t := on_lex Lexer.parse_token in
    ret (mkl (num_required_closing v) (in_stage v) t
             (stage_heightmap_scale v) (stage_texture v))
  else if String.eqb (lower token) "map" then
    let* t := on_lex Lexer.parse_token in
    let* l := lower_of t in
    if String.eqb l "heightmap" then
      let* (tex, scale) := parse_heightmap in
      ret (mkl (num_required_closing v) (in_stage v) (stage_blend v) scale tex)
    else
      ret (mkl (num_required_closing v) (in_stage v) (stage_blend v)
               (stage_heightmap_scale v) t)
  else ret v.

(** The keys of the declaration body: the [else] branch. *)
Definition decl_keys (decl : nat) (token : string) : M unit :=
  if String.eqb (lower token) "bumpmap" then
    let* t := on_lex Lexer.parse_token in
    let* l := lower_of t in
    if String.eqb l "heightmap" then
      let* (tex, scale) := parse_heightmap in
      assign decl set_normal_texture tex ;;
      update decl (set_heightmap_scale scale)
    else assign decl set_normal_texture t
  else if String.eqb (lower token) "diffusemap" then
    let* t := on_lex Lexer.parse_token in
    assign decl set_diffuse_texture t
  else if String.eqb (lower token) "qer_editorimage" then
    let* t := on_lex Lexer.parse_token in
    assign decl set_editor_texture t
  else if String.eqb (lower token) "specularmap" then
    let* t := on_lex Lexer.parse_token in
    assign decl set_specular_texture t
  else ret tt.

(** One turn of the body loop; [None] is [break]. *)
Definition body_step (decl : nat) (v : locals) : M (option locals) :=
  let* token := on_lex Lexer.parse_token in
  match token with
  | None => ret None
  | Some token =>
      let* b := braces decl token v in
      match b with
      | None => ret None
      | Some v =>
          if in_stage v then
            let* v := stage_keys token v in ret (Some v)
          else
            decl_keys decl token ;; ret (Some v)
      end
  end.

Fixpoint body_loop (fuel : nat) (decl : nat) (v : locals) : M unit :=
  match fuel with
  | 0 => out_of_fuel
  | S fuel' =>
      let* r := body_step decl v in
      match r with
      | None => ret tt
      | Some v' => body_loop fuel' decl v'
      end
  end.

(** [name in scene.bfg.material_decls]: the index of the first item of
    that name. *)
Definition find (n : string) (l : list MaterialDeclPropGroup) : option nat :=
  fst <$> list_find (fun d => name d = n) l.

(** The lookup or creation of the declaration, with the two counters. *)
Definition lookup_or_add (n : option string) (created updated : nat)
  : M (nat * nat * nat) :=
  match n with
  | None => raise TypeError
  | Some n =>
      let* l := table in
      match find n l with
      | Some decl => ret (decl, created, updated + 1)
      | None =>
          let* decl := add new_item in
          update decl (set_name n) ;;
          ret (decl, created + 1, updated)
      end
  end.

Definition is_skipped_kind (token : string) : bool :=
  String.eqb token "particle" || String.eqb token "skin" || String.eqb token "table".

(** The outer loop of [parse_material_file]. *)
Fixpoint file_loop (fuel : nat) (created updated : nat) : M (nat * nat) :=
  match fuel with
  | 0 => out_of_fuel
  | S fuel' =>
      let* token := on_lex Lexer.parse_token in
      match token with
      | None => ret (created, updated)
      | Some token =>
          if is_skipped_kind token then
            on_lex Lexer.parse_token ;;
            on_lex_fuel (Lexer.skip_bracket_delimiter_section fuel' "{" "}") ;;
            file_loop fuel' created updated
          else
            let* n := (if String.eqb token "material"
                       then on_lex Lexer.parse_token
                       else ret (Some token)) in
            let* (decl, created, updated) := lookup_or_add n created updated in
            on_lex (Lexer.expect_token "{") ;;
            body_loop fuel' decl body_entry ;;
            file_loop fuel' created updated
      end
  end.

(** [parse_material_file], on the contents of the file and the table
    of the scene: the counters it returns and the table it leaves. *)
Definition parse_material_file (fuel : nat) (contents : string)
           (material_decls : list MaterialDeclPropGroup)
  : option (res (nat * nat) * list MaterialDeclPropGroup) :=
  match file_loop fuel 0 0 (mkst (Lexer.init contents) material_decls) with
  | None => None
  | Some (r, s) => Some (r, decls s)
  end.

End WithHost.

End Materials.

(** ** ENTITIES *)

Module Entities.

(** [EntityPropGroup]. *)
Record EntityPropGroup : Type := mk {
  name : string;
  color : string;
  usage : string;
  mins : string;
  maxs : string
}.

Definition new_item : EntityPropGroup := mk "" "" "" "" "".

Definition set_name (v : string) (e : EntityPropGroup) :=
  mk v (color e) (usage e) (mins e) (maxs e).
Definition set_color (v : string) (e : EntityPropGroup) :=
  mk (name e) v (usage e) (mins e) (maxs e).
Definition set_usage (v : string) (e : EntityPropGroup) :=
  mk (name e) (color e) v (mins e) (maxs e).
Definition set_mins (v : string) (e : EntityPropGroup) :=
  mk (name e) (color e) (usage e) v (maxs e).
Definition set_maxs (v : string) (e : EntityPropGroup) :=
  mk (name e) (color e) (usage e) (mins e) v.

(** The four assignments that follow the lookup. *)
Definition reset (e : EntityPropGroup) : EntityPropGroup :=
  set_usage "" (set_maxs "" (set_mins "" (set_color "0 0 1" e))).

Section WithHost.

(** What a [StringProperty] holds after [None] is assigned to it, or
    the exception that assignment raises: the host's decision. *)
Variable none_as_string : res string.

#[local] Abbreviation M := (M EntityPropGroup).

(** [entity.<field> = value] for a string property. *)
Definition assign (entity : nat) (set : string -> EntityPropGroup -> EntityPropGroup)
           (value : option string) : M unit :=
  match value with
  | Some v => update entity (set v)
  | None => let* v := of_res none_as_string in update entity (set v)
  end.

(** One turn of the body loop; [None] is [break]. *)
Definition body_step (entity : nat) (num_required_closing : Z) : M (option Z) :=
  let* token := on_lex Lexer.parse_token in
  match token with
  | None => ret None
  | Some token =>
      if String.eqb token "{" then ret (Some (num_required_closing + 1)%Z)
      else if String.eqb token "}" then
        let n := (num_required_closing - 1)%Z in
        if (n =? 0)%Z then ret None else ret (Some n)
      else if String.eqb token "editor_color" then
        let* t := on_lex Lexer.parse_token in
        assign entity set_color t ;; ret (Some num_required_closing)
      else if String.eqb token "editor_mins" then
        let* t := on_lex Lexer.parse_token in
        assign entity set_mins t ;; ret (Some num_required_closing)
      else if String.eqb token "editor_maxs" then
        let* t := on_lex Lexer.parse_token in
        assign entity set_maxs t ;; ret (Some num_required_closing)
      else if String.eqb token "editor_usage" then
        let* t := on_lex Lexer.parse_token in
        assign entity set_usage t ;; ret (Some num_required_closing)
      else ret (Some num_required_closing)
  end.

Fixpoint body_loop (fuel : nat) (entity : nat) (num_required_closing : Z) : M unit :=
  match fuel with
  | 0 => out_of_fuel
  | S fuel' =>
      let* r := body_step entity num_required_closing in
      match r with
      | None => ret tt
      | Some n => body_loop fuel' entity n
      end
  end.

(** [name in scene.bfg.entities]: the index of the first item of that
    name. *)
Definition find (n : string) (l : list EntityPropGroup) : option nat :=
  fst <$> list_find (fun e => name e = n) l.

(** The lookup or creation of the entity, with the two counters, and
    the reset of its four attributes. *)
Definition lookup_or_add (n : option string) (created updated : nat)
  : M (nat * nat * nat) :=
  match n with
  | None => raise TypeError
  | Some n =>
      let* l := table in
      let* (entity, created, updated) :=
        match find n l with
        | Some entity => ret (entity, created, updated + 1)
        | None =>
            let* entity := add new_item in
            update entity (set_name n) ;;
            ret (entity, created + 1, updated)
        end in
      update entity (set_color "0 0 1") ;;
      update entity (set_mins "") ;;
      update entity (set_maxs "") ;;
      update entity (set_usage "") ;;
      ret (entity, created, updated)
  end.

(** The outer loop of [parse_def_file]. *)
Fixpoint file_loop (fuel : nat) (created updated : nat) : M (nat * nat) :=
  match fuel with
  | 0 => out_of_fuel
  | S fuel' =>
      let* token := on_lex Lexer.parse_token in
      match token with
      | None => ret (created, updated)
      | Some token =>
          if negb (String.eqb token "entityDef") then
            on_lex Lexer.parse_token ;;
            on_lex_fuel (Lexer.skip_bracket_delimiter_section fuel' "{" "}") ;;
            file_loop fuel' created updated
          else
            let* n := on_lex Lexer.parse_token in
            let* (entity, created, updated) := lookup_or_add n created updated in
            on_lex (Lexer.expect_token "{") ;;
            body_loop fuel' entity 1 ;;
            file_loop fuel' created updated
      end
  end.

(** [parse_def_file], on the contents of the file and the table of the
    scene: the counters it returns and the table it leaves. *)
Definition parse_def_file (fuel : nat) (contents : string)
           (entities : list EntityPropGroup)
  : option (res (nat * nat) * list EntityPropGroup) :=
  match file_loop fuel 0 0 (mkst (Lexer.init contents) entities) with
  | None => None
  | Some (r, s) => Some (r, decls s)
  end.

End WithHost.

End Entities.

(** ** UTILITY FUNCTIONS *)

(** [num / den] rounded to the nearest integer, ties to the even one, for
    [0 <= num] and [0 < den]. *)
Definition round_half_even (num den : Z) : Z :=
  let q := (num / den)%Z in
  match (2 * (num mod den) ?= den)%Z with
  | Lt => q
  | Gt => (q + 1)%Z
  | Eq => if Z.even q then q else (q + 1)%Z
  end.

(** The magnitude [m * 2^e], times [10^6], rounded to an integer: the
    digits that [%f] prints. *)
Definition micro_units (m : positive) (e : Z) : Z :=
  if (0 <=? e)%Z then (Z.pos m * 2 ^ e * 1000000)%Z
  else round_half_even (Z.pos m * 1000000) (2 ^ (- e)).

Definition digit (n : Z) : ascii := ascii_of_nat (48 + Z.to_nat (n mod 10)).

(** The six decimals of [r], for [0 <= r < 10^6]. *)
Definition six_digits (r : Z) : string :=
  String (digit (r / 100000))
    (String (digit (r / 10000))
       (String (digit (r / 1000))
          (String (digit (r / 100))
             (String (digit (r / 10))
                (String (digit r) EmptyString))))).

(** The decimal writing of [n], for [0 <= n]. *)
Definition decimal (n : Z) : string :=
  DecimalString.NilZero.string_of_uint (N.to_uint (Z.to_N n)).

Definition sign (s : bool) : string := if s then "-" else "".

(** ["%f" % a]: six decimals, the exact binary value rounded half to even. *)
Definition format_f (a : float) : string :=
  match Prim2SF a with
  | S754_zero s => sign s ++ "0.000000"
  | S754_infinity s => sign s ++ "inf"
  | S754_nan => "nan"
  | S754_finite s m e =>
      let n := micro_units m e in
      sign s ++ decimal (n / 1000000) ++ "." ++ six_digits (n mod 1000000)
  end.

Definition ftos (a : float) : string := rstrip "." (rstrip "0" (format_f a)).

(** Sequencing for computations that can only raise. *)
Definition rbind {A B} (r : res A) (k : A -> res B) : res B :=
  match r with
  | Val a => k a
  | Exn e => Exn e
  end.

Notation "'do*' x ':=' m 'in' k" := (rbind m (fun x => k))
  (at level 10, x pattern, m at level 100, k at level 200, only parsing).

(** [l[i]], raising [IndexError] out of range. *)
Definition item {A} (l : list A) (i : nat) : res A :=
  match l !! i with
  | Some a => Val a
  | None => Exn IndexError
  end.

(** A [for] loop whose body can raise: the results in order. *)
Fixpoint for_each {A B} (f : A -> res B) (l : list A) : res (list B) :=
  match l with
  | [] => Val []
  | a :: l' => do* b := f a in do* bs := for_each f l' in Val (b :: bs)
  end.

(** A [for] loop that threads an accumulator. *)
Fixpoint for_fold {A B} (f : B -> A -> res B) (l : list A) (b : B) : res B :=
  match l with
  | [] => Val b
  | a :: l' => do* b' := f b a in for_fold f l' b'
  end.

(** ** EXPORT *)

Module ExportMap.

(** used when creating light and entities, and exporting *)
Definition _scale_to_game : float := 64%float.

Definition vec2 : Type := float * float.
Definition vec3 : Type := float * float * float.

(** The host's mesh: one position and normal per vertex, one loop per
    face corner, the UV of a corner in the UV layer at the index of its
    loop, the loops of a polygon in one run of the loop array, and the
    names of its materials, which are the material slots of an object made
    for the mesh. *)
Record MeshVertex : Type := { co : vec3; normal : vec3 }.
Record MeshLoop : Type := { vertex_index : nat; index : nat }.
Record MeshPolygon : Type := {
  material_index : nat;
  loop_start : nat;
  loop_total : nat
}.
Record Mesh : Type := {
  vertices : list MeshVertex;
  loops : list MeshLoop;
  polygons : list MeshPolygon;
  uv_layers : list (list vec2);
  materials : list string
}.

(** [p.loop_indices] *)
Definition loop_indices (p : MeshPolygon) : list nat :=
  seq (loop_start p) (loop_total p).

Record Lamp : Type := {
  distance : float;
  color : vec3;
  use_specular : bool;
  use_diffuse : bool
}.

(** [obj.bfg] *)
Record BfgObject : Type := {
  bfg_type : string;
  classname : string;
  entity_model : string;
  light_material : string
}.

Record Object : Type := {
  name : string;
  type : string;
  location : vec3;
  rotation_euler : vec3;
  data : option Lamp; (* the lamp of a 'LAMP' object *)
  bfg : BfgObject
}.

(** The exported document. *)
Record Vert : Type := { xyz : vec3; st : vec2; vnormal : vec3 }.
Record Poly : Type := { material : string; indices : list nat }.
Record Primitive : Type := {
  primitive : nat;
  verts : list Vert;
  polys : list Poly
}.

(** The values of an entity's dictionary, as [json.dump] tells them
    apart: an integer, a string, the list of primitives. *)
Inductive value : Type :=
| VInt (n : Z)
| VStr (s : string)
| VPrimitives (l : list Primitive).

(** An [OrderedDict] with string keys, in insertion order. *)
Definition dict : Type := list (string * value).

Record Document : Type := { version : Z; entities : list dict }.

(** [bpy.data.groups] and [context.scene.objects]. *)
Record Blend : Type := {
  groups : list (string * list Object);
  scene_objects : list Object
}.

(** What [execute] leaves behind: the reports it made and the file it
    wrote, if any, with the [indent] option it was written with. *)
Record Effects : Type := {
  reports : list (string * string);
  written : option (Document * bool)
}.

(** The entries of [vert_map]: [[new index, loop index]]. *)
Definition entry : Type := nat * nat.

(** [vert_map[loop.vertex_index].append([0, loop.index])] *)
Definition append_loop (vert_map : list (list entry)) (loop : MeshLoop)
  : res (list (list entry)) :=
  do* row := item vert_map (vertex_index loop) in
  Val (<[vertex_index loop := (row ++ [(0, index loop)])%list]> vert_map).

(** The first pass over the polygons: every loop is filed under its
    vertex. *)
Definition collect_loops (mesh : Mesh) (vert_map : list (list entry))
  : res (list (list entry)) :=
  for_fold (fun vm p =>
              for_fold (fun vm i =>
                          do* loop := item (loops mesh) i in
                          append_loop vm loop)
                       (loop_indices p) vm)
           (polygons mesh) vert_map.

(** [vm[0] = num_vertices; num_vertices += 1] along one row. *)
Fixpoint number_row (num_vertices : nat) (row : list entry) : list entry * nat :=
  match row with
  | [] => ([], num_vertices)
  | (_, l) :: row' =>
      let (r, n) := number_row (num_vertices + 1) row' in
      ((num_vertices, l) :: r, n)
  end.

(** The numbering pass, row after row in the order of the vertices. *)
Fixpoint number_rows (num_vertices : nat) (vert_map : list (list entry))
  : list (list entry) * nat :=
  match vert_map with
  | [] => ([], num_vertices)
  | row :: rows =>
      let (r, n) := number_row num_vertices row in
      let (rs, n') := number_rows n rows in
      (r :: rs, n')
  end.

Definition scale3 (v : vec3) : vec3 :=
  let '(x, y, z) := v in
  (x * _scale_to_game, y * _scale_to_game, z * _scale_to_game)%float.

(** The output vertex of one entry of the row of vertex [v]. *)
Definition make_vert (mesh : Mesh) (v : MeshVertex) (vm : entry) : res Vert :=
  do* layer := item (uv_layers mesh) 0 in
  do* uv := item layer (snd vm) in
  Val {| xyz := scale3 (co v); st := uv; vnormal := normal v |}.

(** [for i, v in enumerate(mesh.vertices): for vm in vert_map[i]: ...] *)
Fixpoint make_verts (mesh : Mesh) (i : nat) (vs : list MeshVertex)
         (vert_map : list (list entry)) : res (list Vert) :=
  match vs with
  | [] => Val []
  | v :: vs' =>
      do* row := item vert_map i in
      do* here := for_each (make_vert mesh v) row in
      do* rest := make_verts mesh (i + 1) vs' vert_map in
      Val (here ++ rest)%list
  end.

(** [next(x for x in row if x[1] == loop_index)] *)
Definition next_entry (row : list entry) (loop_index : nat) : res entry :=
  match List.find (fun x => snd x =? loop_index) row with
  | Some x => Val x
  | None => Exn StopIteration
  end.

(** The index written for one corner of a polygon. *)
Definition corner_index (mesh : Mesh) (vert_map : list (list entry)) (i : nat)
  : res nat :=
  do* loop := item (loops mesh) i in
  do* v := item (vertices mesh) (vertex_index loop) in
  do* layer := item (uv_layers mesh) 0 in
  do* uv := item layer (index loop) in
  do* row := item vert_map (vertex_index loop) in
  do* vm := next_entry row (index loop) in
  Val (fst vm).

(** One polygon; [obj] is the temporary object by now, and its slots are
    the materials of the temporary mesh. *)
Definition make_poly (mesh : Mesh) (vert_map : list (list entry))
           (p : MeshPolygon) : res Poly :=
  do* slot := item (materials mesh) (material_index p) in
  do* ixs := for_each (corner_index mesh vert_map) (loop_indices p) in
  Val {| material := slot; indices := ixs |}.

(** [s.replace("\", "/")] *)
Fixpoint to_forward_slashes (s : string) : string :=
  match s with
  | EmptyString => EmptyString
  | String c s' =>
      String (if Ascii.eqb c "\"%char then "/"%char else c) (to_forward_slashes s')
  end.

Definition three (a b c : string) : string := a ++ " " ++ b ++ " " ++ c.

(** [d[key] = v] on a dictionary that does not hold [key] yet. *)
Definition set_key (d : dict) (key : string) (v : value) : dict := (d ++ [(key, v)])%list.

Section WithHost.

(** The host's part of the export: the temporary mesh of an object in
    world space ([obj.to_mesh] then [transform(obj.matrix_world)]), the
    triangulation operator, [math.degrees], and the rotation matrix of
    an XYZ Euler triple, row by row. *)
Variable world_mesh : Object -> res Mesh.
Variable quads_convert_to_tris : Mesh -> Mesh.
Variable degrees : float -> float.
Variable euler_to_matrix : vec3 -> vec3 * vec3 * vec3.

Definition create_primitive (obj : Object) (index : nat) : res Primitive :=
  do* temp_mesh := world_mesh obj in
  let mesh := quads_convert_to_tris temp_mesh in
  let vert_map := replicate (length (vertices mesh)) [] in
  do* vert_map := collect_loops mesh vert_map in
  let (vert_map, num_vertices) := number_rows 0 vert_map in
  do* verts := make_verts mesh 0 (vertices mesh) vert_map in
  do* polygons := for_each (make_poly mesh vert_map) (polygons mesh) in
  Val {| primitive := index; verts := verts; polys := polygons |}.

(** [for i, obj in enumerate(...): primitives.append(...)] *)
Fixpoint create_primitives (i : nat) (objs : list Object) : res (list Primitive) :=
  match objs with
  | [] => Val []
  | obj :: objs' =>
      do* p := create_primitive obj i in
      do* ps := create_primitives (i + 1) objs' in
      Val (p :: ps)
  end.

Definition is_exported (obj : Object) : bool :=
  String.eqb (bfg_type (bfg obj)) "ENTITY"
  || String.eqb (bfg_type (bfg obj)) "STATIC_MODEL"
  || String.eqb (type obj) "LAMP".

(** The fields that depend on the kind of the object. *)
Definition kind_fields (obj : Object) (ent : dict) : res dict :=
  if String.eqb (bfg_type (bfg obj)) "ENTITY" then
    let '(_, _, z) := rotation_euler obj in
    if negb (PrimFloat.eqb z 0%float)
    then Val (set_key ent "angle" (VStr (ftos (degrees z))))
    else Val ent
  else if String.eqb (bfg_type (bfg obj)) "STATIC_MODEL" then
    let ent := set_key ent "model" (VStr (to_forward_slashes (entity_model (bfg obj)))) in
    let '(a0, a1, a2) := rotation_euler obj in
    let '(r0, r1, r2) := euler_to_matrix (- a0, - a1, - a2)%float in
    let row := fun r : vec3 => let '(x, y, z) := r in three (ftos x) (ftos y) (ftos z) in
    Val (set_key ent "rotation" (VStr (three (row r0) (row r1) (row r2))))
  else if String.eqb (type obj) "LAMP" then
    match data obj with
    | None => Exn AttributeError
    | Some lamp =>
        let ent := set_key ent "light_center" (VStr "0 0 0") in
        let radius := ftos (distance lamp * _scale_to_game) in
        let ent := set_key ent "light_radius" (VStr (three radius radius radius)) in
        let '(r, g, b) := color lamp in
        let ent := set_key ent "_color" (VStr (three (ftos r) (ftos g) (ftos b))) in
        (* "%d" % 0 if obj.data.use_specular else 1 *)
        let ent := set_key ent "nospecular"
                           (if use_specular lamp then VStr "0" else VInt 1) in
        let ent := set_key ent "nodiffuse"
                           (if use_diffuse lamp then VStr "0" else VInt 1) in
        if negb (String.eqb (light_material (bfg obj)) "default")
        then Val (set_key ent "texture" (VStr (light_material (bfg obj))))
        else Val ent
    end
  else Val ent.

Definition origin (obj : Object) : string :=
  let '(x, y, z) := location obj in
  three (ftos (x * _scale_to_game)) (ftos (y * _scale_to_game))
        (ftos (z * _scale_to_game)).

Definition export_entity (obj : Object) (entity_index : nat) : res dict :=
  let ent := [("entity", VInt (Z.of_nat entity_index));
              ("classname", VStr (if String.eqb (type obj) "LAMP"
                                  then "light" else classname (bfg obj)));
              ("name", VStr (name obj));
              ("origin", VStr (origin obj))] in
  kind_fields obj ent.

(** [for obj in context.scene.objects: ...] *)
Fixpoint export_entities (entity_index : nat) (objs : list Object) : res (list dict) :=
  match objs with
  | [] => Val []
  | obj :: objs' =>
      if is_exported obj then
        do* ent := export_entity obj entity_index in
        do* ents := export_entities (entity_index + 1) objs' in
        Val (ent :: ents)
      else export_entities entity_index objs'
  end.

(** [bpy.data.groups["worldspawn"]], when there is one. *)
Definition worldspawn_group (b : Blend) : option (list Object) :=
  snd <$> List.find (fun g => String.eqb (fst g) "worldspawn") (groups b).

Definition no_worldspawn_message : string :=
  "No worldspawn group found. Either build the map or create a group named "
  ++ String quote ("worldspawn" ++ String quote " and link an object to it.").

(** [execute]: an exception leaves nothing written, the file being
    opened last. *)
Definition execute (indent : bool) (b : Blend) : res Effects :=
  match worldspawn_group b with
  | None =>
      Val {| reports := [("ERROR", no_worldspawn_message)]; written := None |}
  | Some objs =>
      do* primitives := create_primitives 0 objs in
      let worldspawn := [("entity", VInt 0);
                         ("classname", VStr "worldspawn");
                         ("primitives", VPrimitives primitives)] in
      do* ents := export_entities 1 (scene_objects b) in
      Val {| reports := [];
             written := Some ({| version := 3; entities := worldspawn :: ents |},
                              indent) |}
  end.

End WithHost.

(** The host's triangulation, as far as the export depends on it: every
    polygon of [n] corners becomes [n - 2] triangles that fan out from its
    first corner, each triangle with three loops of its own that carry
    the vertex and the UV of the corner they come from. *)
Definition fan (p : MeshPolygon) : list (nat * nat * nat) :=
  map (fun k => (loop_start p, loop_start p + k + 1, loop_start p + k + 2))
      (seq 0 (loop_total p - 2)).

Definition corners_of (t : nat * nat * nat) : list nat :=
  let '(a, b, c) := t in [a; b; c].

Definition fan_triangulate (mesh : Mesh) : Mesh :=
  let tris := flat_map (fun p => map (fun t => (material_index p, t)) (fan p))
                       (polygons mesh) in
  let corners := flat_map (fun mt => corners_of (snd mt)) tris in
  {| vertices := vertices mesh;
     loops := imap (fun i c => {| vertex_index := default 0 (vertex_index <$> loops mesh !! c);
                                 index := i |}) corners;
     polygons := imap (fun i mt => {| material_index := fst mt;
                                      loop_start := 3 * i;
                                      loop_total := 3 |}) tris;
     uv_layers := map (fun layer => map (fun c => default (0, 0)%float (layer !! c)) corners)
                      (uv_layers mesh);
                      materials := materials mesh |}.

End ExportMap.

(** ** A host for the examples *)

(** The value of a run of decimal digits, most significant first, or
    [None] when a character is not a digit. *)
Fixpoint digits_value (acc : Z) (s : string) : option Z :=
  match s with
  | EmptyString => Some acc
  | String c s' =>
      let n := nat_of_ascii c in
      if (48 <=? n) && (n <=? 57)
      then digits_value (10 * acc + Z.of_nat (n - 48)) s'
      else None
  end.

(** The text before the first point, and the text after it if there is
    one. *)
Fixpoint split_point (s : string) : string * option string :=
  match s with
  | EmptyString => (EmptyString, None)
  | String c s' =>
      if Ascii.eqb c "."%char then (EmptyString, Some s')
      else let (a, b) := split_point s' in (String c a, b)
  end.

(** Python's [float(s)] on the short decimal literals: an optional sign,
    digits, and optionally a point and more digits, at most fifteen digits
    in all, so that the quotient of two integers that binary64 represents
    exactly is the correctly rounded value.  Every other string is left out
    of this instance and answered [ValueError], as Python answers the
    strings that are no numbers. *)
Definition float_of_short_decimal (s : string) : res float :=
  let (negative, body) :=
    match s with
    | String "-" s' => (true, s')
    | String "+" s' => (false, s')
    | _ => (false, s)
    end in
  let (whole, frac) := split_point body in
  let frac := default EmptyString frac in
  if (String.length whole + String.length frac =? 0)
     || (15 <? String.length whole + String.length frac)
  then Exn ValueError
  else
    match digits_value 0 (whole ++ frac) with
    | None => Exn ValueError
    | Some m =>
        let q := (PrimFloat.of_uint63 (Uint63.of_Z m)
                  / PrimFloat.of_uint63 (Uint63.of_Z (10 ^ Z.of_nat (String.length frac))))%float in
        Val (if negative then (- q)%float else q)
    end.

(** ** Vocabulary of the statements *)

(** [s] between double quotes, as it stands in a script. *)
Definition quoted (s : string) : string := String quote (s ++ String quote "").

(** A run of characters that [parse_token] takes into one token: each a
    valid token character, and no [//] inside. *)
Fixpoint plain_word (w : string) : bool :=
  match w with
  | EmptyString => true
  | String c w' =>
      char_in c Lexer.valid_token_chars
      && negb (Ascii.eqb c slash && Lexer.char_is slash (get 0 w'))
      && plain_word w'
  end.

(** The tokens that [parse_token] returns from [lex] on, call after call,
    until it returns [None] and leaves the lexer at [lex']. *)
Inductive token_stream : Lexer.t -> list string -> Lexer.t -> Prop :=
| stream_end (lex lex' : Lexer.t) :
    Lexer.parse_token lex = (Val None, lex') ->
    token_stream lex [] lex'
| stream_token (lex lex1 lex' : Lexer.t) (t : string) (ts : list string) :
    Lexer.parse_token lex = (Val (Some t), lex1) ->
    token_stream lex1 ts lex' ->
    token_stream lex (t :: ts) lex'.

(** The count of [skip_bracket_delimiter_section], started at [n], does not
    reach 0 along the tokens [ts]. *)
Fixpoint stays_open (opening closing : string) (n : Z) (ts : list string) : bool :=
  match ts with
  | [] => true
  | t :: ts' =>
      if String.eqb opening t then stays_open opening closing (n + 1) ts'
      else if String.eqb closing t then
        negb (n - 1 =? 0)%Z && stays_open opening closing (n - 1) ts'
      else stays_open opening closing n ts'
  end.

(** The attribute that a key of an entity body sets. *)
Definition entity_key (key : string)
  : option (string -> Entities.EntityPropGroup -> Entities.EntityPropGroup) :=
  if String.eqb key "editor_color" then Some Entities.set_color
  else if String.eqb key "editor_mins" then Some Entities.set_mins
  else if String.eqb key "editor_maxs" then Some Entities.set_maxs
  else if String.eqb key "editor_usage" then Some Entities.set_usage
  else None.

(** What leaving a stage writes to the declaration, in the words of the
    specification: a captured texture goes to [texture]; with a recognized
    blend kind captured as well, it also goes to the field of that kind,
    together with the height-map scale for a bump map. *)
Definition stage_writes (v : Materials.locals)
           (d : Materials.MaterialDeclPropGroup) : Materials.MaterialDeclPropGroup :=
  match Materials.stage_texture v with
  | Some (String c t) =>
      let tex := String c t in
      let d := Materials.set_texture tex d in
      match Materials.stage_blend v with
      | Some (String b bs) =>
          let blend := lower (String b bs) in
          if String.eqb blend "bumpmap" then
            Materials.set_heightmap_scale (Materials.stage_heightmap_scale v)
                                          (Materials.set_normal_texture tex d)
          else if String.eqb blend "diffusemap" then Materials.set_diffuse_texture tex d
          else if String.eqb blend "specularmap" then Materials.set_specular_texture tex d
          else d
      | _ => d
      end
  | _ => d
  end.

(** Every character of [s] occurs in [chars]. *)
Fixpoint all_in (chars s : string) : bool :=
  match s with
  | EmptyString => true
  | String c s' => char_in c chars && all_in chars s'
  end.

(** The last character of [s], if it has one. *)
Fixpoint last_char (s : string) : option ascii :=
  match s with
  | EmptyString => None
  | String c EmptyString => Some c
  | String _ s' => last_char s'
  end.

Definition decimal_digits : string := "0123456789".

(** The value a key has in a dictionary. *)
Definition value_of (key : string) (d : ExportMap.dict) : option ExportMap.value :=
  snd <$> List.find (fun kv => String.eqb (fst kv) key) d.

(** The output vertex that belongs to the face corner of loop [i]: the
    scaled position and the normal of the vertex of the loop, with the UV
    of the loop. *)
Definition corner_vertex (mesh : ExportMap.Mesh) (i : nat) : option ExportMap.Vert :=
  loop ← ExportMap.loops mesh !! i;
  v ← ExportMap.vertices mesh !! ExportMap.vertex_index loop;
  layer ← ExportMap.uv_layers mesh !! 0;
  uv ← layer !! ExportMap.index loop;
  Some {| ExportMap.xyz := ExportMap.scale3 (ExportMap.co v);
          ExportMap.st := uv;
          ExportMap.vnormal := ExportMap.normal v |}.

(** The face corners of a mesh, polygon after polygon. *)
Definition face_corners (mesh : ExportMap.Mesh) : list nat :=
  flat_map ExportMap.loop_indices (ExportMap.polygons mesh).

(** [k] is the index written for corner [j] of polygon [q]. *)
Definition written_index (p : ExportMap.Primitive) (q j k : nat) : Prop :=
  exists poly, ExportMap.polys p !! q = Some poly /\ ExportMap.indices poly !! j = Some k.

(** A cube of side 1: eight vertices, six quads, each corner of each quad
    with a UV of its own. *)
Definition cube_mesh : ExportMap.Mesh :=
  let v := fun x y z : float =>
             {| ExportMap.co := (x, y, z); ExportMap.normal := (0, 0, 1)%float |} in
  {| ExportMap.vertices :=
       [v 0 0 0; v 1 0 0; v 1 1 0; v 0 1 0; v 0 0 1; v 1 0 1; v 1 1 1; v 0 1 1]%float;
     ExportMap.loops :=
       imap (fun i vi => {| ExportMap.vertex_index := vi; ExportMap.index := i |})
            [0; 3; 2; 1;  4; 5; 6; 7;  0; 1; 5; 4;  1; 2; 6; 5;  2; 3; 7; 6;  3; 0; 4; 7];
     ExportMap.polygons :=
       map (fun q => {| ExportMap.material_index := 0;
                        ExportMap.loop_start := 4 * q;
                        ExportMap.loop_total := 4 |}) (seq 0 6);
     ExportMap.uv_layers :=
       [map (fun i => (PrimFloat.of_uint63 (Uint63.of_Z (Z.of_nat (i / 4))),
                       PrimFloat.of_uint63 (Uint63.of_Z (Z.of_nat (i mod 4)))))
            (seq 0 24)];
            ExportMap.materials := ["textures/base_wall/a"] |}.

Definition cube : ExportMap.Object :=
  {| ExportMap.name := "Cube";
     ExportMap.type := "MESH";
     ExportMap.location := (0, 0, 0)%float;
     ExportMap.rotation_euler := (0, 0, 0)%float;
     ExportMap.data := None;
     ExportMap.bfg := {| ExportMap.bfg_type := "BRUSH";
                         ExportMap.classname := "";
                         ExportMap.entity_model := "";
                         ExportMap.light_material := "default" |} |}.

(** A point lamp, its specular term switched off. *)
Definition lamp_without_specular : ExportMap.Object :=
  {| ExportMap.name := "Lamp";
     ExportMap.type := "LAMP";
     ExportMap.location := (1, 2, 0.5)%float;
     ExportMap.rotation_euler := (0, 0, 0)%float;
     ExportMap.data := Some {| ExportMap.distance := 2;
                               ExportMap.color := (1, 0.5, 0.25)%float;
                               ExportMap.use_specular := false;
                               ExportMap.use_diffuse := true |};
     ExportMap.bfg := {| ExportMap.bfg_type := "NONE";
                         ExportMap.classname := "";
                         ExportMap.entity_model := "";
                         ExportMap.light_material := "default" |} |}.

(** ** More vocabulary *)


(** A character that [parse_token] can neither take into a token nor
    skip: above the blank, no token character, no punctuation, no quote. *)
Definition stray (c : ascii) : bool :=
  negb (nat_of_ascii c <=? nat_of_ascii " ")
  && negb (char_in c Lexer.valid_token_chars)
  && negb (char_in c Lexer.valid_single_tokens)
  && negb (Ascii.eqb c quote).

(** Every character of [s] is a blank: its code is at most that of the
    space. *)
Fixpoint blank (s : string) : bool :=
  match s with
  | EmptyString => true
  | String c s' => (nat_of_ascii c <=? nat_of_ascii " ") && blank s'
  end.

(** The number of newlines in [s]. *)
Fixpoint newlines (s : string) : nat :=
  match s with
  | EmptyString => 0
  | String c s' => (if Ascii.eqb c newline then 1 else 0) + newlines s'
  end.

(** A character at which [skip_whitespace] stops: above the blank and not
    the start of a comment, [r] being what follows it. *)
Definition starts_token (c : ascii) (r : string) : bool :=
  negb (nat_of_ascii c <=? nat_of_ascii " ")
  && negb (Ascii.eqb c slash
           && (Lexer.char_is slash (get 0 r) || Lexer.char_is star (get 0 r))).

(** The tokens that [parse_token] returns from [lex] to [lex'], call after
    call. *)
Inductive token_run : Lexer.t -> list string -> Lexer.t -> Prop :=
| run_nil (lex : Lexer.t) : token_run lex [] lex
| run_cons (lex lex1 lex' : Lexer.t) (t : string) (ts : list string) :
    Lexer.parse_token lex = (Val (Some t), lex1) ->
    token_run lex1 ts lex' ->
    token_run lex (t :: ts) lex'.

(** The count of [skip_bracket_delimiter_section], started at [n], reaches
    0 at the last token of [ts] and not before. *)
Fixpoint closes_at_end (opening closing : string) (n : Z) (ts : list string) : bool :=
  match ts with
  | [] => false
  | t :: ts' =>
      if String.eqb opening t then closes_at_end opening closing (n + 1) ts'
      else if String.eqb closing t then
        if (n - 1 =? 0)%Z then match ts' with [] => true | _ => false end
        else closes_at_end opening closing (n - 1) ts'
      else closes_at_end opening closing n ts'
  end.

(** [a] is [b] moved forward in the same text, on the same line or a
    later one. *)
Definition ahead (a b : Lexer.t) : Prop :=
  Lexer.data a = Lexer.data b
  /\ Lexer.pos b <= Lexer.pos a
  /\ Lexer.line b <= Lexer.line a.

(** A computation that leaves the names of the table as they are,
    [name] being the field that holds the name of an item. *)
Definition keeps_names {T A} (name : T -> string) (m : M T A) : Prop :=
  forall s r s', m s = Some (r, s') -> map name (decls s') = map name (decls s).

(** A computation that writes to no item of the table but the one at
    index [e]. *)
Definition writes_only_at {T A} (e : nat) (m : M T A) : Prop :=
  forall s r s' i,
    m s = Some (r, s') -> i <> e -> decls s' !! i = decls s !! i.

(** A computation whose course and whose item at index [e] depend on the
    lexer and on that item alone: from two states with the same lexer and
    the same item at [e] it ends the same way, with the same lexer and the
    same item at [e]. *)
Definition alike_at {T A} (e : nat) (m : M T A) : Prop :=
  forall s1 s2,
    lex s1 = lex s2 ->
    decls s1 !! e = decls s2 !! e ->
    match m s1, m s2 with
    | None, None => True
    | Some (r1, s1'), Some (r2, s2') =>
        r1 = r2 /\ lex s1' = lex s2' /\ decls s1' !! e = decls s2' !! e
    | _, _ => False
    end.

(** A change [w] of an item either leaves [field] as it is or sets it to
    one value, whatever the item. *)
Definition fixes {T V} (field : T -> V) (w : T -> T) : Prop :=
  (forall x, field (w x) = field x) \/ (exists v, forall x, field (w x) = v).

(** What the writes of a material body amount to: the name is kept and
    every other field is kept or set to a value that does not depend on
    the declaration. *)
Definition settles (w : Materials.MaterialDeclPropGroup -> Materials.MaterialDeclPropGroup)
  : Prop :=
  (forall x, Materials.name (w x) = Materials.name x)
  /\ fixes Materials.diffuse_texture w
  /\ fixes Materials.editor_texture w
  /\ fixes Materials.heightmap_scale w
  /\ fixes Materials.normal_texture w
  /\ fixes Materials.specular_texture w
  /\ fixes Materials.texture w.

(** A computation that does one and the same thing whatever the table
    holds: from any state with the lexer of [s] it ends as from [s], with
    the same lexer, and its writes amount to one change [w] of the item at
    index [e], [w] being of the kind [P]. *)
Definition acts_at {T A} (P : (T -> T) -> Prop) (e : nat) (m : M T A) : Prop :=
  forall s r s',
    m s = Some (r, s') ->
    exists w, P w
              /\ forall s2, lex s2 = lex s ->
                            m s2 = Some (r, mkst (lex s') (alter w e (decls s2))).

(** No character of [s] is a newline. *)
Fixpoint no_newline (s : string) : bool :=
  match s with
  | EmptyString => true
  | String c s' => negb (Ascii.eqb c newline) && no_newline s'
  end.

(** [*/] occurs in [s]. *)
Fixpoint has_close (s : string) : bool :=
  match s with
  | EmptyString => false
  | String c s' => (Ascii.eqb c star && Lexer.char_is slash (get 0 s')) || has_close s'
  end.


(** The cube, its materials taken away. *)
Definition cube_without_materials : ExportMap.Mesh :=
  {| ExportMap.vertices := ExportMap.vertices cube_mesh;
     ExportMap.loops := ExportMap.loops cube_mesh;
     ExportMap.polygons := ExportMap.polygons cube_mesh;
     ExportMap.uv_layers := ExportMap.uv_layers cube_mesh;
     ExportMap.materials := [] |}.

(** Every value a computation returns satisfies [Q]. *)
Definition yields {T A} (Q : A -> Prop) (m : M T A) : Prop :=
  forall s a s', m s = Some (Val a, s') -> Q a.

(** The body loop of [parse_material_file] is in a stage exactly at depth
    two or more; the depth is at least one while the loop runs. *)
Definition stage_at_depth (v : Materials.locals) : Prop :=
  (1 <= Materials.num_required_closing v)%Z
  /\ Materials.in_stage v = (2 <=? Materials.num_required_closing v)%Z.

(** ** FILE SYSTEM *)

(** A computation on a state [S] that answers a value or an exception
    with the state reached, or [None] when a parser inside it ran out of
    fuel. *)
Definition W (S A : Type) : Type := S -> option (res A * S).

Definition wbind {S A B} (m : W S A) (k : A -> W S B) : W S B :=
  fun st =>
    match m st with
    | None => None
    | Some (Exn e, st') => Some (Exn e, st')
    | Some (Val a, st') => k a st'
    end.

Module FileSystem.

Record t : Type := mk { search_dirs : list string }.

(** [__init__]: the mod directory, when one is set, then [basedev] and
    [base]; highest priority first. *)
Definition init (mod_dir : string) : t :=
  mk ((if truthy (Some mod_dir) then [mod_dir] else []) ++ ["basedev"; "base"]).

Section WithHost.

(** The host's file system, as far as [for_each_file] looks at it:
    [os.path.realpath(bpy.path.abspath(p))], [os.path.join],
    [os.path.exists], [glob.glob] and [os.path.basename]. *)
Variable resolve : string -> string.
Variable join : string -> string -> string.
Variable path_exists : string -> bool.
Variable glob : string -> list string.
Variable basename : string -> string.

Context {S : Type}.
Variable callback : string -> string -> W S unit.

(** [for f in glob.glob(...)]: the files of one search directory. *)
Fixpoint files_loop (full_path : string) (files : list string)
         (touched_files : list string) : W S (list string) :=
  match files with
  | [] => fun st => Some (Val touched_files, st)
  | f :: files' =>
      let base := basename f in
      if negb (existsb (String.eqb base) touched_files) then
        wbind (callback full_path f)
              (fun _ => files_loop full_path files' (touched_files ++ [base]))
      else files_loop full_path files' touched_files
  end.

(** [for search_dir in self.search_dirs] *)
Fixpoint dirs_loop (game_path pattern : string) (dirs : list string)
         (touched_files : list string) : W S unit :=
  match dirs with
  | [] => fun st => Some (Val tt, st)
  | search_dir :: dirs' =>
      let full_path := join (resolve game_path) search_dir in
      if path_exists full_path then
        wbind (files_loop full_path (glob (join full_path pattern)) touched_files)
              (fun touched_files => dirs_loop game_path pattern dirs' touched_files)
      else dirs_loop game_path pattern dirs' touched_files
  end.

Definition for_each_file (fs : t) (game_path pattern : string) : W S unit :=
  dirs_loop game_path pattern (search_dirs fs) [].

End WithHost.

End FileSystem.

(** ** The importers *)

Module ImportEntities.

(** The scene's table and the two counters of the operator. *)
Record state : Type := mkstate {
  entities : list Entities.EntityPropGroup;
  num_entities_created : nat;
  num_entities_updated : nat
}.

Section WithHost.

Variable resolve : string -> string.
Variable join : string -> string -> string.
Variable path_exists : string -> bool.
Variable glob : string -> list string.
Variable basename : string -> string.
(** [open(filename).read()], for a file that [glob] has listed. *)
Variable read_file : string -> string.
Variable none_as_string : res string.

(** The callback [pdf]; an exception leaves the counters as they were
    and the table as the parser left it. *)
Definition pdf (fuel : nat) (search_path filename : string) : W state unit :=
  fun st =>
    match Entities.parse_def_file none_as_string fuel (read_file filename) (entities st) with
    | None => None
    | Some (Exn e, table) =>
        Some (Exn e, mkstate table (num_entities_created st) (num_entities_updated st))
    | Some (Val (created, updated), table) =>
        Some (Val tt, mkstate table (num_entities_created st + created)
                              (num_entities_updated st + updated))
    end.

(** ["Imported %d entities, updated %d" % (created, updated)] *)
Definition imported_message (created updated : nat) : string :=
  "Imported " ++ decimal (Z.of_nat created) ++ " entities, updated "
  ++ decimal (Z.of_nat updated).

(** [execute]: the reports it makes, and the table and the counters it
    leaves; without a game path the counters are not set. *)
Definition execute (fuel : nat) (game_path mod_dir : string)
           (table : list Entities.EntityPropGroup)
  : option (res (list (string * string)) * list Entities.EntityPropGroup * option (nat * nat)) :=
  if truthy (Some game_path) then
    match FileSystem.for_each_file resolve join path_exists glob basename (pdf fuel)
                                   (FileSystem.init mod_dir) game_path "def\*.def"
                                   (mkstate table 0 0) with
    | None => None
    | Some (Exn e, st) =>
        Some (Exn e, entities st,
              Some (num_entities_created st, num_entities_updated st))
    | Some (Val _, st) =>
        Some (Val [("INFO", imported_message (num_entities_created st)
                                             (num_entities_updated st))],
              entities st,
              Some (num_entities_created st, num_entities_updated st))
    end
  else Some (Val [("ERROR", "RBDOOM-3-BFG path not set")], table, None).

End WithHost.

End ImportEntities.

Module ImportMaterials.

(** [update_material_decl_paths]: the directories of the declarations
    under [textures], each once, in the order of the table.  [dirname] is
    the host's [os.path.dirname]; a path item holds its name only. *)
Section Paths.

Variable dirname : string -> string.



End Paths.

End ImportMaterials.

(** ** More vocabulary *)


(** The files that match [pattern] in the search directories that exist,
    each with its directory, in the order of the directories. *)
Definition candidates (resolve : string -> string) (join : string -> string -> string)
           (path_exists : string -> bool) (glob : string -> list string)
           (fs : FileSystem.t) (game_path pattern : string) : list (string * string) :=
  flat_map (fun search_dir =>
              let full_path := join (resolve game_path) search_dir in
              if path_exists full_path
              then map (pair full_path) (glob (join full_path pattern))
              else [])
           (FileSystem.search_dirs fs).

(** The calls of [callback] on the files of [l], one after the other,
    up to the first that raises. *)
Fixpoint run_all {S} (callback : string -> string -> W S unit)
         (l : list (string * string)) : W S unit :=
  match l with
  | [] => fun st => Some (Val tt, st)
  | c :: l' => wbind (callback (fst c) (snd c)) (fun _ => run_all callback l')
  end.

(** The files of [l] whose base name is neither in [touched] nor the base
    name of an earlier file of [l]. *)
Fixpoint unseen (basename : string -> string) (l : list (string * string))
         (touched : list string) : list (string * string) :=
  match l with
  | [] => []
  | c :: l' =>
      if negb (existsb (String.eqb (basename (snd c))) touched)
      then c :: unseen basename l' (touched ++ [basename (snd c)])
      else unseen basename l' touched
  end.

(** * Properties *)

(** ** Strings *)

Section StringFacts.

Lemma append_cons (c : ascii) (s t : string) : String c s ++ t = String c (s ++ t).
Proof. reflexivity. Qed.

Lemma append_empty (t : string) : "" ++ t = t.
Proof. reflexivity. Qed.

Lemma length_append (a b : string) :
  String.length (a ++ b) = String.length a + String.length b.
Proof.
  induction a as [|c a IH]; [reflexivity|].
  rewrite append_cons. simpl. now rewrite IH.
Qed.

Lemma get_append_r (p s : string) (k : nat) :
  get (String.length p + k) (p ++ s) = get k s.
Proof.
  induction p as [|c p IH]; [reflexivity|].
  rewrite append_cons. exact IH.
Qed.

Lemma get_append_0 (p s : string) : get (String.length p) (p ++ s) = get 0 s.
Proof. rewrite <- (Nat.add_0_r (String.length p)). apply get_append_r. Qed.

Lemma substring_append_r (p s : string) (i n : nat) :
  substring (String.length p + i) n (p ++ s) = substring i n s.
Proof.
  induction p as [|c p IH]; [reflexivity|].
  rewrite append_cons. exact IH.
Qed.

Lemma substring_prefix (s t : string) :
  substring 0 (String.length s) (s ++ t) = s.
Proof.
  induction s as [|c s IH].
  - now destruct t.
  - rewrite append_cons. simpl. now rewrite IH.
Qed.

Lemma append_snoc (p : string) (c : ascii) (s : string) :
  (p ++ String c "") ++ s = p ++ String c s.
Proof.
  induction p as [|x p IH]; [reflexivity|].
  rewrite !append_cons. now rewrite IH.
Qed.

Lemma length_snoc (p : string) (c : ascii) :
  String.length (p ++ String c "") = String.length p + 1.
Proof. now rewrite length_append. Qed.

End StringFacts.

Section LexerFacts.
Import Lexer.

Lemma char_in_cons (c d : ascii) (s : string) :
  char_in c (String d s) = Ascii.eqb c d || char_in c s.
Proof. reflexivity. Qed.

Lemma cur_at (p : string) (c : ascii) (s : string) (ln : nat) :
  cur (mk (p ++ String c s) ln (String.length p)) = Some c.
Proof. unfold cur. cbn [pos data]. now rewrite get_append_0. Qed.

Lemma cur_at_end (p : string) (ln : nat) :
  cur (mk p ln (String.length p)) = None.
Proof.
  unfold cur. cbn [pos data]. induction p as [|c p IH]; [reflexivity | exact IH].
Qed.

Lemma next_at (p : string) (c : ascii) (s : string) (ln : nat) :
  next (mk (p ++ String c s) ln (String.length p)) = get 0 s.
Proof. unfold next. cbn [pos data]. now rewrite get_append_r. Qed.

Lemma advance_at (p : string) (c : ascii) (s : string) (ln : nat) :
  advance 1 (mk (p ++ String c s) ln (String.length p))
  = mk ((p ++ String c "") ++ s) ln (String.length (p ++ String c "")).
Proof. unfold advance. cbn [pos data line]. now rewrite append_snoc, length_snoc. Qed.

Lemma not_quote (c : ascii) (s : string) :
  char_in c s = true -> char_in quote s = false -> Ascii.eqb c quote = false.
Proof.
  intros Hc Hq. destruct (Ascii.eqb c quote) eqn:E; [|reflexivity].
  apply Ascii.eqb_eq in E. subst c. congruence.
Qed.

(** Inside a quoted token: up to the closing quote. *)
Lemma quoted_loop_closes (content : string) :
  forall (p rest : string) (ln n start : nat),
    char_in quote content = false ->
    String.length content < n ->
    quoted_loop n start (mk (p ++ content ++ String quote rest) ln (String.length p))
    = (Val (Some (slice (p ++ content ++ String quote rest) (start + 1)
                        (String.length p + String.length content))),
       mk (p ++ content ++ String quote rest) ln
          (String.length p + String.length content + 1)).
Proof.
  induction content as [|c content IH]; intros p rest ln n start Hq Hn;
    (destruct n as [|n]; [simpl in Hn; lia|]).
  - rewrite append_empty. cbn [quoted_loop]. rewrite cur_at, Ascii.eqb_refl.
    unfold advance. cbn [pos data line String.length].
    f_equal; [do 3 f_equal; lia | f_equal; lia].
  - rewrite char_in_cons in Hq. apply orb_false_iff in Hq as [Hc Hq].
    rewrite append_cons. cbn [quoted_loop]. rewrite cur_at.
    rewrite Ascii.eqb_sym, Hc. cbn zeta. rewrite advance_at.
    rewrite (IH _ rest ln n start Hq) by (simpl in Hn; lia).
    rewrite append_snoc, length_snoc. cbn [String.length].
    f_equal; [do 3 f_equal; lia | f_equal; lia].
Qed.

(** Inside a quoted token that never closes. *)
Lemma quoted_loop_eof (content : string) :
  forall (p : string) (ln n start : nat),
    char_in quote content = false ->
    fst (quoted_loop n start (mk (p ++ content) ln (String.length p)))
    = Exn EofInQuotedToken.
Proof.
  induction content as [|c content IH]; intros p ln n start Hq;
    (destruct n as [|n]; [reflexivity|]).
  - cbn [quoted_loop].
    replace (p ++ "") with p by (induction p as [|x p IHp]; [reflexivity|]; rewrite append_cons; congruence).
    now rewrite cur_at_end.
  - rewrite char_in_cons in Hq. apply orb_false_iff in Hq as [Hc Hq].
    cbn [quoted_loop]. rewrite cur_at.
    rewrite Ascii.eqb_sym, Hc. cbn zeta. rewrite advance_at.
    apply IH, Hq.
Qed.

Lemma skip_whitespace_loop_at (n : nat) (lex : t) (c : ascii) :
  cur lex = Some c ->
  Ascii.eqb c newline = false ->
  (nat_of_ascii c <=? nat_of_ascii " ") = false ->
  Ascii.eqb c slash = false ->
  skip_whitespace_loop n lex = lex.
Proof.
  intros Hc H1 H2 H3. destruct n; [reflexivity|].
  cbn [skip_whitespace_loop]. rewrite Hc, H1, H2, H3. reflexivity.
Qed.

Lemma plain_word_cons (c : ascii) (w : string) :
  plain_word (String c w)
  = char_in c valid_token_chars
    && negb (Ascii.eqb c slash && char_is slash (get 0 w))
    && plain_word w.
Proof. reflexivity. Qed.

Lemma get_0_append (w : string) (c : ascii) (s : string) :
  get 0 (w ++ String c s) = match w with EmptyString => Some c | String d _ => Some d end.
Proof. destruct w; reflexivity. Qed.

(** A plain word followed by a quote: the quote is met in mid-token. *)
Lemma token_loop_mid_quote (w : string) :
  forall (p rest : string) (ln n start : nat),
    plain_word w = true ->
    start < String.length p + String.length w ->
    start <= String.length p ->
    String.length w < n ->
    fst (token_loop n start (mk (p ++ w ++ String quote rest) ln (String.length p)))
    = Exn QuoteInMiddleOfToken.
Proof.
  induction w as [|c w IH]; intros p rest ln n start Hw Hs Hle Hn;
    (destruct n as [|n]; [simpl in Hn; lia|]).
  - rewrite append_empty. cbn [token_loop]. rewrite cur_at, Ascii.eqb_refl.
    cbn [pos]. simpl in Hs. destruct (start =? String.length p) eqn:E.
    + apply Nat.eqb_eq in E. lia.
    + reflexivity.
  - rewrite plain_word_cons in Hw.
    apply andb_true_iff in Hw as [Hw Hw'].
    apply andb_true_iff in Hw as [Hc Hsl]. apply negb_true_iff in Hsl.
    rewrite append_cons. cbn [token_loop]. rewrite cur_at, next_at.
    rewrite (not_quote c valid_token_chars Hc eq_refl).
    rewrite get_0_append.
    assert (Hcom : (Ascii.eqb c slash && char_is slash
                       match w with EmptyString => Some quote | String d _ => Some d end)
                    || (Ascii.eqb c slash && char_is star
                       match w with EmptyString => Some quote | String d _ => Some d end)
                    = false).
    { apply orb_false_iff. split.
      - destruct w; [destruct (Ascii.eqb c slash); reflexivity | exact Hsl].
      - destruct w as [|d w]; [destruct (Ascii.eqb c slash); reflexivity|].
        rewrite plain_word_cons in Hw'. apply andb_true_iff in Hw' as [Hw' _].
        apply andb_true_iff in Hw' as [Hd _].
        cbn [char_is]. destruct (Ascii.eqb star d) eqn:E.
        + apply Ascii.eqb_eq in E. subst d. discriminate Hd.
        + apply andb_false_r. }
    rewrite Hcom, Hc. cbn [negb]. rewrite advance_at.
    apply IH; [exact Hw' | | | ]; rewrite ?length_snoc; simpl in *; lia.
Qed.

End LexerFacts.

Section QuotedTokens.
Import Lexer.

Lemma eof_false_at (p : string) (c : ascii) (s : string) (ln : nat) :
  eof (mk (p ++ String c s) ln (String.length p)) = false.
Proof.
  unfold eof. cbn [pos data]. rewrite length_append. cbn [String.length].
  apply Nat.leb_gt. lia.
Qed.

Lemma remaining_at (p : string) (s : string) (ln : nat) :
  remaining (mk (p ++ s) ln (String.length p)) = String.length s.
Proof. unfold remaining. cbn [pos data]. rewrite length_append. lia. Qed.

Lemma slice_middle (p s t : string) :
  slice (p ++ s ++ t) (String.length p) (String.length p + String.length s) = s.
Proof.
  unfold slice.
  replace (String.length p + String.length s - String.length p) with (String.length s) by lia.
  rewrite <- (Nat.add_0_r (String.length p)) at 1.
  rewrite substring_append_r. apply substring_prefix.
Qed.

Lemma parse_token_at (lex : t) (p : string) (c : ascii) (s : string) :
  data (skip_whitespace lex) = p ++ String c s ->
  pos (skip_whitespace lex) = String.length p ->
  parse_token lex
  = token_loop (S (String.length s)) (String.length p)
               (mk (p ++ String c s) (line (skip_whitespace lex)) (String.length p)).
Proof.
  intros Hd Hp. unfold parse_token.
  destruct (skip_whitespace lex) as [d ln ps]. cbn [data pos line] in *. subst d ps.
  now rewrite eof_false_at, remaining_at.
Qed.

Lemma parse_token_closed_quote (lex : t) (pre content rest : string) :
  data (skip_whitespace lex) = pre ++ String quote (content ++ String quote rest) ->
  pos (skip_whitespace lex) = String.length pre ->
  char_in quote content = false ->
  parse_token lex
  = (Val (Some content), advance (String.length content + 2) (skip_whitespace lex)).
Proof.
  intros Hd Hp Hq. rewrite (parse_token_at lex _ _ _ Hd Hp).
  cbn [token_loop]. rewrite cur_at, Ascii.eqb_refl. cbn [pos].
  rewrite Nat.eqb_refl. cbn [negb]. rewrite advance_at.
  rewrite remaining_at, quoted_loop_closes; [| exact Hq | rewrite length_append; cbn [String.length]; lia].
  destruct (skip_whitespace lex) as [d ln ps]. cbn [data pos line] in *. subst d ps.
  unfold advance. cbn [data pos line]. rewrite append_snoc, length_snoc.
  f_equal; [| f_equal; lia].
  do 2 f_equal.
  pose proof (slice_middle (pre ++ String quote "") content (String quote rest)) as H.
  rewrite append_snoc, length_snoc in H. exact H.
Qed.

Lemma parse_token_open_quote (lex : t) (pre content : string) :
  data (skip_whitespace lex) = pre ++ String quote content ->
  pos (skip_whitespace lex) = String.length pre ->
  char_in quote content = false ->
  fst (parse_token lex) = Exn EofInQuotedToken.
Proof.
  intros Hd Hp Hq. rewrite (parse_token_at lex _ _ _ Hd Hp).
  cbn [token_loop]. rewrite cur_at, Ascii.eqb_refl. cbn [pos].
  rewrite Nat.eqb_refl. cbn [negb]. rewrite advance_at.
  apply quoted_loop_eof, Hq.
Qed.

Lemma parse_token_mid_quote (lex : t) (pre w rest : string) :
  data (skip_whitespace lex) = pre ++ w ++ String quote rest ->
  pos (skip_whitespace lex) = String.length pre ->
  w <> "" ->
  plain_word w = true ->
  fst (parse_token lex) = Exn QuoteInMiddleOfToken.
Proof.
  intros Hd Hp Hne Hw. destruct w as [|c w]; [congruence|].
  rewrite append_cons in Hd. rewrite (parse_token_at lex _ _ _ Hd Hp).
  rewrite <- append_cons.
  apply token_loop_mid_quote; [exact Hw | | | ];
    rewrite ?length_append; cbn [String.length]; lia.
Qed.

End QuotedTokens.

(** C9.  When the next token starts with a double quote, [parse_token]
    returns what stands between that quote and the next one, unchanged, and
    leaves the position after the closing quote; when the input ends before
    a closing quote it raises "eof in quoted token"; when a quote follows
    characters already taken into the current token it raises "quote in
    middle of token".  The input ["a b c"], quotes included, is the one token
    [a b c]. *)
Theorem parse_token_quoted :
  (forall (lex : Lexer.t) (pre content rest : string),
      Lexer.data (Lexer.skip_whitespace lex)
      = pre ++ String quote (content ++ String quote rest) ->
      Lexer.pos (Lexer.skip_whitespace lex) = String.length pre ->
      char_in quote content = false ->
      Lexer.parse_token lex
      = (Val (Some content),
         Lexer.advance (String.length content + 2) (Lexer.skip_whitespace lex)))
  /\ (forall (lex : Lexer.t) (pre content : string),
         Lexer.data (Lexer.skip_whitespace lex) = pre ++ String quote content ->
         Lexer.pos (Lexer.skip_whitespace lex) = String.length pre ->
         char_in quote content = false ->
         fst (Lexer.parse_token lex) = Exn EofInQuotedToken)
  /\ (forall (lex : Lexer.t) (pre w rest : string),
         Lexer.data (Lexer.skip_whitespace lex) = pre ++ w ++ String quote rest ->
         Lexer.pos (Lexer.skip_whitespace lex) = String.length pre ->
         w <> "" ->
         plain_word w = true ->
         fst (Lexer.parse_token lex) = Exn QuoteInMiddleOfToken)
  /\ fst (Lexer.parse_token (Lexer.init (String quote ("a b c" ++ String quote ""))))
     = Val (Some "a b c").
Proof.
  split; [|split; [|split]].
  - exact parse_token_closed_quote.
  - exact parse_token_open_quote.
  - exact parse_token_mid_quote.
  - reflexivity.
Qed.

Lemma parse_token_quoted_witness :
  Lexer.parse_token (Lexer.init ("  // c" ++ String newline (String quote ("x y" ++ String quote " z"))))
  = (Val (Some "x y"), Lexer.mk ("  // c" ++ String newline (String quote ("x y" ++ String quote " z"))) 2 12)
  /\ fst (Lexer.parse_token (Lexer.init (String quote "x y"))) = Exn EofInQuotedToken
  /\ fst (Lexer.parse_token (Lexer.init ("ab" ++ String quote "x y"))) = Exn QuoteInMiddleOfToken.
Proof.
  split; [|split].
  - exact (proj1 parse_token_quoted
                  (Lexer.init ("  // c" ++ String newline (String quote ("x y" ++ String quote " z"))))
                  ("  // c" ++ String newline "") "x y" " z" eq_refl eq_refl eq_refl).
  - exact (proj1 (proj2 parse_token_quoted) (Lexer.init (String quote "x y"))
                 "" "x y" eq_refl eq_refl eq_refl).
  - refine (proj1 (proj2 (proj2 parse_token_quoted)) (Lexer.init ("ab" ++ String quote "x y"))
                  "" "ab" "x y" eq_refl eq_refl _ eq_refl).
    discriminate.
Defined.

(** ** The bounds of the scanning loops *)

(** Each scanning loop of the lexer recurses on a bound, the number of
    characters left, and does at the bound what it does at the end of the
    input.  A larger bound changes nothing: the bound is reached only
    where the input ends. *)
Section Bounds.
Import Lexer.

Lemma get_none (s : string) (n : nat) : get n s = None <-> String.length s <= n.
Proof.
  revert n. induction s as [|c s IH]; intros n.
  - destruct n; cbn; split; intros; try reflexivity; lia.
  - destruct n as [|n]; cbn [get String.length].
    + split; [discriminate | lia].
    + rewrite IH. lia.
Qed.

Lemma cur_none (lex : t) : cur lex = None <-> remaining lex = 0.
Proof. unfold cur, remaining. rewrite get_none. lia. Qed.

Lemma cur_some_remaining (lex : t) (c : ascii) :
  cur lex = Some c -> remaining (advance 1 lex) = remaining lex - 1 /\ 0 < remaining lex.
Proof.
  intros H. assert (remaining lex <> 0) by (rewrite <- cur_none; congruence).
  unfold remaining, advance in *. cbn [pos data] in *. lia.
Qed.

Lemma next_some_remaining (lex : t) (c : ascii) :
  next lex = Some c -> 2 <= remaining lex.
Proof.
  unfold next, remaining. intros H.
  destruct (le_lt_dec (String.length (data lex)) (pos lex + 1)) as [Hle|Hlt]; [|lia].
  apply get_none in Hle. congruence.
Qed.

Lemma skip_line_comment_bound (n : nat) :
  forall (m : nat) (lex : t),
    remaining lex <= n -> remaining lex <= m ->
    skip_line_comment n lex = skip_line_comment m lex.
Proof.
  induction n as [|n IH]; intros m lex Hn Hm.
  - assert (Hc : cur lex = None) by (apply cur_none; lia).
    destruct m; cbn [skip_line_comment]; now rewrite ?Hc.
  - cbn [skip_line_comment]. destruct (cur lex) as [c|] eqn:Hc.
    + destruct (cur_some_remaining _ _ Hc) as [Hr Hpos].
      destruct m as [|m]; [lia|]. cbn [skip_line_comment]. rewrite Hc.
      destruct (Ascii.eqb c newline); [reflexivity|]. apply IH; lia.
    + destruct m; cbn [skip_line_comment]; now rewrite ?Hc.
Qed.

Lemma skip_block_comment_bound (n : nat) :
  forall (m : nat) (lex : t),
    remaining lex <= n -> remaining lex <= m ->
    skip_block_comment n lex = skip_block_comment m lex.
Proof.
  induction n as [|n IH]; intros m lex Hn Hm.
  - assert (Hc : cur lex = None) by (apply cur_none; lia).
    destruct m; cbn [skip_block_comment]; now rewrite ?Hc.
  - cbn [skip_block_comment]. destruct (cur lex) as [c|] eqn:Hc.
    + destruct (cur_some_remaining _ _ Hc) as [Hr Hpos].
      destruct m as [|m]; [lia|]. cbn [skip_block_comment]. rewrite Hc.
      destruct (Ascii.eqb c star && char_is slash (next lex)); [reflexivity|].
      apply IH; lia.
    + destruct m; cbn [skip_block_comment]; now rewrite ?Hc.
Qed.

(** The comment loops do not move backwards, and move when they start on
    a character that is not the one they stop at. *)
Lemma skip_line_comment_progress (n : nat) :
  forall lex : t,
    remaining (skip_line_comment n lex) <= remaining lex
    /\ forall c, cur lex = Some c -> Ascii.eqb c newline = false -> 0 < n ->
                 remaining (skip_line_comment n lex) < remaining lex.
Proof.
  induction n as [|n IH]; intros lex; cbn [skip_line_comment].
  - split; [lia | intros; lia].
  - destruct (cur lex) as [c|] eqn:Hc.
    + destruct (cur_some_remaining _ _ Hc) as [Hr Hpos].
      destruct (IH (advance 1 lex)) as [IH1 _].
      destruct (Ascii.eqb c newline) eqn:E.
      * split; [lia|]. intros c' [= <-] E'. congruence.
      * split; [lia|]. intros; lia.
    + split; [lia | intros; discriminate].
Qed.

Lemma skip_block_comment_progress (n : nat) :
  forall lex : t,
    remaining (skip_block_comment n lex) <= remaining lex
    /\ forall c, cur lex = Some c -> Ascii.eqb c star = false -> 0 < n ->
                 remaining (skip_block_comment n lex) < remaining lex.
Proof.
  induction n as [|n IH]; intros lex; cbn [skip_block_comment].
  - split; [lia | intros; lia].
  - destruct (cur lex) as [c|] eqn:Hc.
    + destruct (cur_some_remaining _ _ Hc) as [Hr Hpos].
      destruct (IH (advance 1 lex)) as [IH1 _].
      destruct (Ascii.eqb c star) eqn:E; cbn [andb].
      * destruct (char_is slash (next lex)) eqn:En.
        -- split; [unfold remaining, advance; cbn [pos data]; lia|].
           intros c' [= <-] E'. congruence.
        -- split; [lia | intros c' [= <-] E'; congruence].
      * split; [lia | intros; lia].
    + split; [lia | intros; discriminate].
Qed.

Lemma remaining_count_line (lex : t) : remaining (count_line lex) = remaining lex.
Proof. reflexivity. Qed.

Lemma slash_not_newline (c : ascii) :
  Ascii.eqb c slash = true -> Ascii.eqb c newline = false /\ Ascii.eqb c star = false.
Proof. intros H. apply Ascii.eqb_eq in H. now subst c. Qed.

Lemma skip_whitespace_loop_bound (n : nat) :
  forall (m : nat) (lex : t),
    remaining lex <= n -> remaining lex <= m ->
    skip_whitespace_loop n lex = skip_whitespace_loop m lex.
Proof.
  induction n as [|n IH]; intros m lex Hn Hm.
  - assert (Hc : cur lex = None) by (apply cur_none; lia).
    destruct m; cbn [skip_whitespace_loop]; now rewrite ?Hc.
  - cbn [skip_whitespace_loop]. destruct (cur lex) as [c|] eqn:Hc.
    + destruct (cur_some_remaining _ _ Hc) as [Hr Hpos].
      destruct m as [|m]; [lia|]. cbn [skip_whitespace_loop]. rewrite Hc.
      destruct (Ascii.eqb c newline).
      { apply IH; unfold remaining, advance, count_line in *; cbn [pos data] in *; lia. }
      destruct (nat_of_ascii c <=? nat_of_ascii " "); [apply IH; lia|].
      destruct (Ascii.eqb c slash) eqn:Es; cbn [andb]; [|reflexivity].
      destruct (slash_not_newline c Es) as [Enl Est].
      destruct (char_is slash (next lex)).
      { destruct (skip_line_comment_progress (remaining lex) lex) as [_ P].
        specialize (P c Hc Enl Hpos). apply IH; lia. }
      destruct (char_is star (next lex)); [|reflexivity].
      destruct (skip_block_comment_progress (remaining lex) lex) as [_ P].
      specialize (P c Hc Est Hpos). apply IH; lia.
    + destruct m; cbn [skip_whitespace_loop]; now rewrite ?Hc.
Qed.

Lemma quoted_loop_bound (n : nat) :
  forall (m start : nat) (lex : t),
    remaining lex <= n -> remaining lex <= m ->
    quoted_loop n start lex = quoted_loop m start lex.
Proof.
  induction n as [|n IH]; intros m start lex Hn Hm.
  - assert (Hc : cur lex = None) by (apply cur_none; lia).
    destruct m; cbn [quoted_loop]; now rewrite ?Hc.
  - cbn [quoted_loop]. destruct (cur lex) as [c|] eqn:Hc.
    + destruct (cur_some_remaining _ _ Hc) as [Hr Hpos].
      destruct m as [|m]; [lia|]. cbn [quoted_loop]. rewrite Hc. cbn zeta.
      destruct (Ascii.eqb c quote); [reflexivity|]. apply IH; lia.
    + destruct m; cbn [quoted_loop]; now rewrite ?Hc.
Qed.

Lemma token_loop_bound (n : nat) :
  forall (m start : nat) (lex : t),
    remaining lex <= n -> remaining lex <= m ->
    token_loop n start lex = token_loop m start lex.
Proof.
  induction n as [|n IH]; intros m start lex Hn Hm.
  - assert (Hc : cur lex = None) by (apply cur_none; lia).
    destruct m; cbn [token_loop]; now rewrite ?Hc.
  - cbn [token_loop]. destruct (cur lex) as [c|] eqn:Hc.
    + destruct (cur_some_remaining _ _ Hc) as [Hr Hpos].
      destruct m as [|m]; [lia|]. cbn [token_loop]. rewrite Hc.
      destruct (Ascii.eqb c quote); [reflexivity|].
      destruct (_ || _); [reflexivity|].
      destruct (negb _); [reflexivity|]. apply IH; lia.
    + destruct m; cbn [token_loop]; now rewrite ?Hc.
Qed.

(** [parse_token] with any bounds that cover the input. *)
Lemma parse_token_bounds (lex : t) (n1 n2 : nat) :
  remaining lex <= n1 ->
  remaining (skip_whitespace lex) <= n2 ->
  parse_token lex
  = let lex' := skip_whitespace_loop n1 lex in
    if eof lex' then (Val None, lex') else token_loop n2 (pos lex') lex'.
Proof.
  intros H1 H2. unfold parse_token. cbn zeta.
  assert (E : skip_whitespace_loop n1 lex = skip_whitespace lex).
  { unfold skip_whitespace. apply skip_whitespace_loop_bound; lia. }
  rewrite E. destruct (eof (skip_whitespace lex)); [reflexivity|].
  apply token_loop_bound; lia.
Qed.

End Bounds.

(** ** The parser monad *)

Section MonadFacts.
Context {T A B : Type}.

Lemma bind_val (m : M T A) (k : A -> M T B) (s s' : pstate T) (a : A) :
  m s = Some (Val a, s') -> bind m k s = k a s'.
Proof. intros H. unfold bind. now rewrite H. Qed.

Lemma bind_exn (m : M T A) (k : A -> M T B) (s s' : pstate T) (e : exn) :
  m s = Some (Exn e, s') -> bind m k s = Some (Exn e, s').
Proof. intros H. unfold bind. now rewrite H. Qed.

Lemma on_lex_run (f : Lexer.t -> res A * Lexer.t) (s : pstate T) (r : res A) (l : Lexer.t) :
  f (lex s) = (r, l) -> on_lex f s = Some (r, mkst l (decls s)).
Proof. intros H. unfold on_lex. now rewrite H. Qed.

Lemma on_lex_at (f : Lexer.t -> res A * Lexer.t) (l l' : Lexer.t) (d : list T) (r : res A) :
  f l = (r, l') -> on_lex f (mkst l d) = Some (r, mkst l' d).
Proof. intros H. unfold on_lex. cbn [lex decls]. now rewrite H. Qed.

End MonadFacts.

(** ** Entity declarations *)

Section EntityFacts.
Import Entities.
Variable none_as_string : res string.

(** A key and its value, at any depth. *)
Lemma body_step_key (entity : nat) (depth : Z) (s : pstate EntityPropGroup)
      (key value : string) (set : string -> EntityPropGroup -> EntityPropGroup)
      (lex1 lex2 : Lexer.t) :
  entity_key key = Some set ->
  Lexer.parse_token (lex s) = (Val (Some key), lex1) ->
  Lexer.parse_token lex1 = (Val (Some value), lex2) ->
  body_step none_as_string entity depth s
  = Some (Val (Some depth), mkst lex2 (alter (set value) entity (decls s))).
Proof.
  intros Hk H1 H2. unfold body_step.
  rewrite (bind_val _ _ _ _ _ (on_lex_run _ _ _ _ H1)).
  unfold entity_key in Hk.
  destruct (String.eqb key "editor_color") eqn:Ec;
    [|destruct (String.eqb key "editor_mins") eqn:Emi;
      [|destruct (String.eqb key "editor_maxs") eqn:Ema;
        [|destruct (String.eqb key "editor_usage") eqn:Eu; [|discriminate]]]];
    injection Hk as <-;
    match goal with
    | E : String.eqb key _ = true |- _ => apply String.eqb_eq in E; subst key
    end; cbn [String.eqb Ascii.eqb Bool.eqb];
    (erewrite bind_val; [| apply on_lex_run; cbn [lex]; exact H2]);
    reflexivity.
Qed.

(** The end of the input where the loop reads its next token. *)
Lemma body_step_eof (entity : nat) (depth : Z) (s : pstate EntityPropGroup)
      (lex' : Lexer.t) :
  Lexer.parse_token (lex s) = (Val None, lex') ->
  body_step none_as_string entity depth s = Some (Val None, mkst lex' (decls s)).
Proof.
  intros H. unfold body_step.
  now rewrite (bind_val _ _ _ _ _ (on_lex_run _ _ _ _ H)).
Qed.

Lemma body_loop_eof (fuel entity : nat) (depth : Z) (s : pstate EntityPropGroup)
      (lex' : Lexer.t) :
  Lexer.parse_token (lex s) = (Val None, lex') ->
  body_loop none_as_string (S fuel) entity depth s = Some (Val tt, mkst lex' (decls s)).
Proof.
  intros H. cbn [body_loop].
  now rewrite (bind_val _ _ _ _ _ (body_step_eof _ _ _ _ H)).
Qed.

Lemma file_loop_eof (fuel created updated : nat) (s : pstate EntityPropGroup)
      (lex' : Lexer.t) :
  Lexer.parse_token (lex s) = (Val None, lex') ->
  file_loop none_as_string (S fuel) created updated s
  = Some (Val (created, updated), mkst lex' (decls s)).
Proof.
  intros H. cbn [file_loop].
  now rewrite (bind_val _ _ _ _ _ (on_lex_run _ _ _ _ H)).
Qed.

End EntityFacts.

Section EntityRedeclaration.
Import Entities.
Variable none_as_string : res string.

Lemma alter_reset (entity : nat) (l : list EntityPropGroup) :
  alter (set_usage "") entity
        (alter (set_maxs "") entity
               (alter (set_mins "") entity
                      (alter (set_color "0 0 1") entity l)))
  = alter reset entity l.
Proof. rewrite !list_alter_alter_eq. reflexivity. Qed.

Lemma lookup_or_add_found (name : string) (created updated entity : nat)
      (s : pstate EntityPropGroup) :
  find name (decls s) = Some entity ->
  lookup_or_add (Some name) created updated s
  = Some (Val (entity, created, updated + 1),
          mkst (lex s) (alter reset entity (decls s))).
Proof.
  intros H. unfold lookup_or_add, bind, table, update, ret. cbn [lex decls].
  rewrite H. cbn [lex decls]. now rewrite alter_reset.
Qed.

Lemma expect_token_run (token : string) (l l' : Lexer.t) :
  Lexer.parse_token l = (Val (Some token), l') ->
  Lexer.expect_token token l = (Val tt, l').
Proof.
  intros H. unfold Lexer.expect_token. rewrite H.
  cbn [Lexer.token_is]. now rewrite String.eqb_refl.
Qed.

Lemma file_loop_redeclared (fuel created updated : nat) (s : pstate EntityPropGroup)
      (name : string) (entity : nat) (lex1 lex2 lex3 : Lexer.t) :
  Lexer.parse_token (lex s) = (Val (Some "entityDef"), lex1) ->
  Lexer.parse_token lex1 = (Val (Some name), lex2) ->
  find name (decls s) = Some entity ->
  Lexer.parse_token lex2 = (Val (Some "{"), lex3) ->
  file_loop none_as_string (S fuel) created updated s
  = bind (body_loop none_as_string fuel entity 1)
         (fun _ => file_loop none_as_string fuel created (updated + 1))
         (mkst lex3 (alter reset entity (decls s))).
Proof.
  intros H1 H2 Hf H3. cbn [file_loop].
  rewrite (bind_val _ _ _ _ _ (on_lex_run _ _ _ _ H1)).
  cbn [String.eqb Ascii.eqb Bool.eqb negb].
  erewrite bind_val; [| apply on_lex_run; cbn [lex]; exact H2].
  erewrite bind_val; [| apply lookup_or_add_found; cbn [decls]; exact Hf].
  cbn [lex decls].
  erewrite bind_val; [| apply on_lex_run; cbn [lex]; apply expect_token_run; exact H3].
  reflexivity.
Qed.

Lemma parse_bare_foo (fuel : nat) (entities : list EntityPropGroup) (entity : nat) :
  find "foo" entities = Some entity ->
  parse_def_file none_as_string (S (S fuel)) "entityDef foo {}" entities
  = Some (Val (0, 1), alter reset entity entities).
Proof.
  intros Hf. unfold parse_def_file.
  erewrite file_loop_redeclared;
    [| reflexivity | reflexivity | exact Hf | reflexivity].
  cbn [body_loop file_loop]. reflexivity.
Qed.

End EntityRedeclaration.

Section EntityTable.
Import Entities.

Lemma find_lookup (n : string) (l : list EntityPropGroup) (i : nat) :
  find n l = Some i -> exists e, l !! i = Some e /\ name e = n.
Proof.
  unfold find. intros H. apply fmap_Some in H as [[j e] [H ->]].
  apply list_find_Some in H as (Hl & Hn & _). now exists e.
Qed.

Lemma reset_found (n : string) (l : list EntityPropGroup) (i : nat) :
  find n l = Some i ->
  alter reset i l !! i = Some (mk n "0 0 1" "" "" "").
Proof.
  intros H. apply find_lookup in H as (e & He & <-).
  rewrite list_lookup_alter_eq, He. reflexivity.
Qed.

End EntityTable.

(** C3, as the code has it.  The body scan of an entity declaration gives a
    meaning to the keys [editor_color], [editor_mins], [editor_maxs] and
    [editor_usage] at every brace depth, 1 or deeper: the key takes the one
    token that follows it, unchanged, as the value of its attribute and
    leaves the depth as it was.  An opening brace only raises the depth,
    and any other token that is not a closing brace changes nothing. *)
Theorem entity_keys_at_any_depth :
  forall (none_as_string : res string) (entity : nat) (depth : Z)
         (s : pstate Entities.EntityPropGroup) (token : string) (lex1 : Lexer.t),
    Lexer.parse_token (lex s) = (Val (Some token), lex1) ->
    (forall set value lex2,
        entity_key token = Some set ->
        Lexer.parse_token lex1 = (Val (Some value), lex2) ->
        Entities.body_step none_as_string entity depth s
        = Some (Val (Some depth), mkst lex2 (alter (set value) entity (decls s))))
    /\ (token = "{" ->
        Entities.body_step none_as_string entity depth s
        = Some (Val (Some (depth + 1)%Z), mkst lex1 (decls s)))
    /\ (entity_key token = None -> token <> "{" -> token <> "}" ->
        Entities.body_step none_as_string entity depth s
        = Some (Val (Some depth), mkst lex1 (decls s))).
Proof.
  intros none_as_string entity depth s token lex1 H1. split; [|split].
  - intros set value lex2 Hk H2. now apply body_step_key with (key := token) (lex1 := lex1).
  - intros ->. unfold Entities.body_step.
    now rewrite (bind_val _ _ _ _ _ (on_lex_run _ _ _ _ H1)).
  - intros Hk Ho Hc. unfold Entities.body_step.
    rewrite (bind_val _ _ _ _ _ (on_lex_run _ _ _ _ H1)).
    apply String.eqb_neq in Ho, Hc. rewrite Ho, Hc.
    unfold entity_key in Hk.
    destruct (String.eqb token "editor_color"); [discriminate|].
    destruct (String.eqb token "editor_mins"); [discriminate|].
    destruct (String.eqb token "editor_maxs"); [discriminate|].
    destruct (String.eqb token "editor_usage"); [discriminate|].
    reflexivity.
Qed.

(** A key two braces deep sets its attribute. *)
Lemma entity_keys_at_any_depth_witness :
  Entities.body_step (Exn TypeError) 0 2
    (mkst (Lexer.init ("editor_color " ++ quoted "1 1 1" ++ " } }"))
          [Entities.mk "foo" "0 0 1" "" "" ""])
  = Some (Val (Some 2%Z),
          mkst (Lexer.mk ("editor_color " ++ quoted "1 1 1" ++ " } }") 1 20)
               [Entities.mk "foo" "1 1 1" "" "" ""]).
Proof.
  exact (proj1 (entity_keys_at_any_depth (Exn TypeError) 0 2
                 (mkst (Lexer.init ("editor_color " ++ quoted "1 1 1" ++ " } }"))
                       [Entities.mk "foo" "0 0 1" "" "" ""])
                 "editor_color" _ eq_refl)
               Entities.set_color "1 1 1" _ eq_refl eq_refl).
Defined.

(** C3, as stated, fails: [editor_color] inside a nested block of the body
    is not passed over, it changes the colour of the entity. *)
Lemma nested_entity_key_is_interpreted :
  Entities.parse_def_file (Exn TypeError) 9
    ("entityDef foo { { editor_color " ++ quoted "1 1 1" ++ " } }") []
  = Some (Val (1, 0), [Entities.mk "foo" "1 1 1" "" "" ""])
  /\ Entities.color (Entities.mk "foo" "1 1 1" "" "" "")
     <> Entities.color (Entities.reset (Entities.mk "foo" "" "" "" "")).
Proof. split; [reflexivity | discriminate]. Qed.

(** C6.  An [entityDef] whose name is already in the table has its four
    attributes reset to the defaults before its body is scanned, and is
    counted as updated.  Parsing [entityDef foo {}] when [foo] is in the
    table returns (0, 1) and leaves [foo] with the colour ["0 0 1"] and
    empty [mins], [maxs] and [usage], whatever it held before, and every
    other entity as it was. *)
Theorem entity_redeclaration_resets :
  (forall (none_as_string : res string) (fuel created updated : nat)
          (s : pstate Entities.EntityPropGroup) (name : string) (entity : nat)
          (lex1 lex2 lex3 : Lexer.t),
      Lexer.parse_token (lex s) = (Val (Some "entityDef"), lex1) ->
      Lexer.parse_token lex1 = (Val (Some name), lex2) ->
      Entities.find name (decls s) = Some entity ->
      Lexer.parse_token lex2 = (Val (Some "{"), lex3) ->
      Entities.file_loop none_as_string (S fuel) created updated s
      = bind (Entities.body_loop none_as_string fuel entity 1)
             (fun _ => Entities.file_loop none_as_string fuel created (updated + 1))
             (mkst lex3 (alter Entities.reset entity (decls s)))
      /\ alter Entities.reset entity (decls s) !! entity
         = Some (Entities.mk name "0 0 1" "" "" ""))
  /\ (forall (none_as_string : res string) (fuel : nat)
             (entities : list Entities.EntityPropGroup) (entity : nat),
         Entities.find "foo" entities = Some entity ->
         exists entities',
           Entities.parse_def_file none_as_string (S (S fuel)) "entityDef foo {}" entities
           = Some (Val (0, 1), entities')
           /\ entities' !! entity = Some (Entities.mk "foo" "0 0 1" "" "" "")
           /\ length entities' = length entities
           /\ forall j, j <> entity -> entities' !! j = entities !! j).
Proof.
  split.
  - intros none_as_string fuel created updated s name entity lex1 lex2 lex3 H1 H2 Hf H3.
    split; [eapply file_loop_redeclared; eassumption | now apply reset_found].
  - intros none_as_string fuel entities entity Hf.
    exists (alter Entities.reset entity entities). split; [|split; [|split]].
    + now apply parse_bare_foo.
    + now apply reset_found.
    + apply length_alter.
    + intros j Hj. now apply list_lookup_alter_ne.
Qed.

(** A rich declaration of [foo], then [entityDef foo {}]. *)
Lemma entity_redeclaration_resets_witness :
  Entities.parse_def_file (Exn TypeError) 9
    ("entityDef foo { editor_color " ++ quoted "1 0 0" ++ " editor_mins "
       ++ quoted "-8 -8 -8" ++ " editor_maxs " ++ quoted "8 8 8"
       ++ " editor_usage " ++ quoted "A thing." ++ " }") []
  = Some (Val (1, 0), [Entities.mk "foo" "1 0 0" "A thing." "-8 -8 -8" "8 8 8"])
  /\ exists entities',
      Entities.parse_def_file (Exn TypeError) 2 "entityDef foo {}"
        [Entities.mk "foo" "1 0 0" "A thing." "-8 -8 -8" "8 8 8"]
      = Some (Val (0, 1), entities')
      /\ entities' !! 0 = Some (Entities.mk "foo" "0 0 1" "" "" "")
      /\ length entities' = 1
      /\ forall j, j <> 0 -> entities' !! j
                             = [Entities.mk "foo" "1 0 0" "A thing." "-8 -8 -8" "8 8 8"] !! j.
Proof.
  split; [reflexivity|].
  exact (proj2 entity_redeclaration_resets (Exn TypeError) 0
               [Entities.mk "foo" "1 0 0" "A thing." "-8 -8 -8" "8 8 8"] 0 eq_refl).
Defined.

(** ** Material declarations *)

Section MaterialFacts.
Import Materials.
Variable float_of_string : string -> res float.
Variable none_as_string : res string.

Lemma assign_some (decl : nat) (set : string -> MaterialDeclPropGroup -> MaterialDeclPropGroup)
      (v : string) (s : pstate MaterialDeclPropGroup) :
  assign none_as_string decl set (Some v) s
  = Some (Val tt, mkst (lex s) (alter (set v) decl (decls s))).
Proof. reflexivity. Qed.

Lemma truthy_some (o : option string) :
  truthy o = true -> exists c t, o = Some (String c t).
Proof. destruct o as [[|c t]|]; try discriminate. eauto. Qed.

(** Leaving a stage writes what the specification says it writes. *)
Lemma close_stage_writes (decl : nat) (v : locals) (s : pstate MaterialDeclPropGroup) :
  close_stage none_as_string decl v s
  = Some (Val tt, mkst (lex s) (alter (stage_writes v) decl (decls s))).
Proof.
  unfold close_stage, stage_writes.
  destruct (stage_texture v) as [[|c t]|]; cbn [truthy andb].
  - rewrite andb_false_r. unfold bind, ret. destruct s as [l d].
    cbn [lex decls]. now rewrite list_alter_id.
  - destruct (stage_blend v) as [[|b bs]|]; cbn [truthy andb].
    + unfold bind, ret, assign, update. cbn [lex decls]. reflexivity.
    + cbv [bind ret assign update lower_of]. cbn [lex decls].
      destruct (String.eqb (lower (String b bs)) "bumpmap");
        [|destruct (String.eqb (lower (String b bs)) "diffusemap");
          [|destruct (String.eqb (lower (String b bs)) "specularmap")]];
        cbn [lex decls]; rewrite ?list_alter_alter_eq; reflexivity.
    + unfold bind, ret, assign, update. cbn [lex decls]. reflexivity.
  - rewrite andb_false_r. unfold bind, ret. destruct s as [l d].
    cbn [lex decls]. now rewrite list_alter_id.
Qed.

(** The closing brace of a stage. *)
Lemma body_step_leaves_stage (decl : nat) (v : locals)
      (s : pstate MaterialDeclPropGroup) (lex1 : Lexer.t) :
  Lexer.parse_token (lex s) = (Val (Some "}"), lex1) ->
  num_required_closing v = 2%Z ->
  body_step float_of_string none_as_string decl v s
  = Some (Val (Some (mkl 1 false (stage_blend v) (stage_heightmap_scale v)
                         (stage_texture v))),
          mkst lex1 (alter (stage_writes v) decl (decls s))).
Proof.
  intros H Hn. unfold body_step.
  rewrite (bind_val _ _ _ _ _ (on_lex_run _ _ _ _ H)).
  unfold braces. cbn [String.eqb Ascii.eqb Bool.eqb]. rewrite Hn.
  change (2 - 1)%Z with 1%Z. change (1 =? 0)%Z with false.
  change (1 =? 1)%Z with true. cbv iota.
  erewrite bind_val; [| erewrite bind_val; [| apply close_stage_writes]; reflexivity].
  cbn [in_stage].
  unfold bind, decl_keys, ret. cbn [String.eqb Ascii.eqb Bool.eqb lower lower_char].
  reflexivity.
Qed.

End MaterialFacts.

Section StageWrites.
Import Materials.

Lemma lower_nonempty (b : string) (k : string) :
  lower b = k -> k <> "" -> exists c t, b = String c t.
Proof. destruct b as [|c t]; [cbn; intros <- H; congruence | eauto]. Qed.

Lemma stage_writes_texture (v : locals) (d : MaterialDeclPropGroup) (t : string) :
  stage_texture v = Some t -> t <> "" -> texture (stage_writes v d) = t.
Proof.
  intros Ht Hne. unfold stage_writes. rewrite Ht.
  destruct t as [|c t]; [congruence|].
  destruct (stage_blend v) as [[|b bs]|]; try reflexivity.
  destruct (String.eqb _ "bumpmap"); [reflexivity|].
  destruct (String.eqb _ "diffusemap"); [reflexivity|].
  destruct (String.eqb _ "specularmap"); reflexivity.
Qed.

Lemma stage_writes_diffuse (v : locals) (d : MaterialDeclPropGroup) (t b : string) :
  stage_texture v = Some t -> t <> "" ->
  stage_blend v = Some b -> lower b = "diffusemap" ->
  diffuse_texture (stage_writes v d) = t.
Proof.
  intros Ht Hne Hb Hl. unfold stage_writes. rewrite Ht, Hb.
  destruct t as [|c t]; [congruence|].
  destruct (lower_nonempty b _ Hl) as (x & bs & ->); [discriminate|].
  now rewrite Hl.
Qed.

Lemma stage_writes_bump (v : locals) (d : MaterialDeclPropGroup) (t b : string) :
  stage_texture v = Some t -> t <> "" ->
  stage_blend v = Some b -> lower b = "bumpmap" ->
  normal_texture (stage_writes v d) = t
  /\ heightmap_scale (stage_writes v d) = stage_heightmap_scale v.
Proof.
  intros Ht Hne Hb Hl. unfold stage_writes. rewrite Ht, Hb.
  destruct t as [|c t]; [congruence|].
  destruct (lower_nonempty b _ Hl) as (x & bs & ->); [discriminate|].
  now rewrite Hl.
Qed.

Lemma stage_writes_specular (v : locals) (d : MaterialDeclPropGroup) (t b : string) :
  stage_texture v = Some t -> t <> "" ->
  stage_blend v = Some b -> lower b = "specularmap" ->
  specular_texture (stage_writes v d) = t.
Proof.
  intros Ht Hne Hb Hl. unfold stage_writes. rewrite Ht, Hb.
  destruct t as [|c t]; [congruence|].
  destruct (lower_nonempty b _ Hl) as (x & bs & ->); [discriminate|].
  now rewrite Hl.
Qed.

End StageWrites.

(** C8.  On the closing brace that takes the depth from 2 to 1 the body
    scan applies [stage_writes] to the declaration: a captured (non-empty)
    stage texture is written to [texture] whatever the blend, and with a
    recognized blend kind also to the field of that kind, whatever that
    field held.  So of two [diffusemap] stages the second one decides
    [diffuse_texture]. *)
Theorem stage_fields_last_wins :
  (forall (float_of_string : string -> res float) (none_as_string : res string)
          (decl : nat) (v : Materials.locals)
          (s : pstate Materials.MaterialDeclPropGroup) (lex1 : Lexer.t),
      Lexer.parse_token (lex s) = (Val (Some "}"), lex1) ->
      Materials.num_required_closing v = 2%Z ->
      Materials.body_step float_of_string none_as_string decl v s
      = Some (Val (Some (Materials.mkl 1 false (Materials.stage_blend v)
                                       (Materials.stage_heightmap_scale v)
                                       (Materials.stage_texture v))),
              mkst lex1 (alter (stage_writes v) decl (decls s))))
  /\ (forall (v : Materials.locals) (d : Materials.MaterialDeclPropGroup) (t : string),
         Materials.stage_texture v = Some t -> t <> "" ->
         Materials.texture (stage_writes v d) = t
         /\ forall b, Materials.stage_blend v = Some b ->
                      (lower b = "diffusemap" ->
                       Materials.diffuse_texture (stage_writes v d) = t)
                      /\ (lower b = "bumpmap" ->
                          Materials.normal_texture (stage_writes v d) = t
                          /\ Materials.heightmap_scale (stage_writes v d)
                             = Materials.stage_heightmap_scale v)
                      /\ (lower b = "specularmap" ->
                          Materials.specular_texture (stage_writes v d) = t))
  /\ (forall (float_of_string : string -> res float) (none_as_string : res string),
         Materials.parse_material_file float_of_string none_as_string 12
           "m { { blend diffusemap map first } { blend diffusemap map second } }" []
         = Some (Val (1, 0), [Materials.mk "m" "second" "" 0 "" "" "second"])).
Proof.
  split; [|split].
  - intros. now apply body_step_leaves_stage.
  - intros v d t Ht Hne. split; [now apply stage_writes_texture|].
    intros b Hb. split; [|split]; intros Hl.
    + now apply stage_writes_diffuse with (b := b).
    + now apply stage_writes_bump with (b := b).
    + now apply stage_writes_specular with (b := b).
  - intros. reflexivity.
Qed.

(** The closing brace of a second [diffusemap] stage, met with the texture
    of the first one in the declaration. *)
Lemma stage_fields_last_wins_witness :
  Materials.body_step float_of_short_decimal (Exn TypeError) 0
    (Materials.mkl 2 true (Some "DiffuseMap") 0 (Some "second"))
    (mkst (Lexer.init "} }") [Materials.mk "m" "first" "" 0 "" "" "first"])
  = Some (Val (Some (Materials.mkl 1 false (Some "DiffuseMap") 0 (Some "second"))),
          mkst (Lexer.mk "} }" 1 1) [Materials.mk "m" "second" "" 0 "" "" "second"])
  /\ Materials.diffuse_texture
       (stage_writes (Materials.mkl 2 true (Some "DiffuseMap") 0 (Some "second"))
                     (Materials.mk "m" "first" "" 0 "" "" "first"))
     = "second".
Proof.
  split.
  - exact (proj1 stage_fields_last_wins float_of_short_decimal (Exn TypeError) 0
                 (Materials.mkl 2 true (Some "DiffuseMap") 0 (Some "second"))
                 (mkst (Lexer.init "} }") [Materials.mk "m" "first" "" 0 "" "" "first"])
                 _ eq_refl eq_refl).
  - refine (proj1 (proj2 (proj1 (proj2 stage_fields_last_wins)
                                (Materials.mkl 2 true (Some "DiffuseMap") 0 (Some "second"))
                                (Materials.mk "m" "first" "" 0 "" "" "first")
                                "second" eq_refl _)
                         "DiffuseMap" eq_refl)
                  eq_refl).
    discriminate.
Defined.

(** C4 fails on the code.  A declaration whose bump map was a height map
    of scale 4 and is declared again with a plain [bumpmap] texture keeps
    the scale 4 with the plain texture: the body-level [bumpmap] key sets
    [normal_texture] and leaves [heightmap_scale] alone.  A plain [map]
    that follows a height map in one bump stage does the same. *)
Theorem plain_bumpmap_keeps_heightmap_scale :
  Materials.parse_material_file float_of_short_decimal (Exn TypeError) 12
    "textures/m { bumpmap heightmap(textures/m_h, 4) }" []
  = Some (Val (1, 0), [Materials.mk "textures/m" "" "" 4 "textures/m_h" "" ""])
  /\ Materials.parse_material_file float_of_short_decimal (Exn TypeError) 12
       "textures/m { bumpmap textures/m_local }"
       [Materials.mk "textures/m" "" "" 4 "textures/m_h" "" ""]
     = Some (Val (0, 1), [Materials.mk "textures/m" "" "" 4 "textures/m_local" "" ""])
  /\ Materials.parse_material_file float_of_short_decimal (Exn TypeError) 16
       "textures/n { { blend bumpmap map heightmap(textures/n_h, 4) map textures/n_local } }" []
     = Some (Val (1, 0),
             [Materials.mk "textures/n" "" "" 4 "textures/n_local" "" "textures/n_local"]).
Proof. repeat split; reflexivity. Qed.

(** C5 fails on the code.  When the input ends right after the [bumpmap]
    key of a declaration body, at depth 1, the scan does not stop
    silently: the value token is [None] and taking its lower case raises
    [AttributeError].  The declaration created before stays in the table. *)
Theorem end_of_input_after_key_raises :
  Materials.parse_material_file float_of_short_decimal (Exn TypeError) 12
    "textures/m { bumpmap" []
  = Some (Exn AttributeError, [Materials.mk "textures/m" "" "" 0 "" "" ""])
  /\ Materials.parse_material_file float_of_short_decimal (Exn TypeError) 12
       "textures/m { { map" []
     = Some (Exn AttributeError, [Materials.mk "textures/m" "" "" 0 "" "" ""]).
Proof. split; reflexivity. Qed.

(** ** The lenient end of input *)

Section LenientEof.

(** [skip_bracket_delimiter_section]: when the tokens run out before the
    count is back at 0, the loop returns, with no error, at the end of
    the input. *)
Lemma skip_loop_lenient (opening closing : string) (lex lex' : Lexer.t)
      (ts : list string) :
  token_stream lex ts lex' ->
  forall (n : Z) (fuel : nat),
    stays_open opening closing n ts = true ->
    length ts < fuel ->
    Lexer.skip_loop fuel opening closing n lex = Some (Val tt, lex').
Proof.
  induction 1 as [lex lex' H | lex lex1 lex' t ts H Hts IH]; intros n fuel Ho Hf;
    (destruct fuel as [|fuel]; [simpl in Hf; lia|]); cbn [Lexer.skip_loop]; rewrite H.
  - reflexivity.
  - cbn [Lexer.token_is]. cbn [stays_open] in Ho. simpl in Hf.
    destruct (String.eqb opening t); [apply IH; [exact Ho | lia]|].
    destruct (String.eqb closing t); [|apply IH; [exact Ho | lia]].
    apply andb_true_iff in Ho as [Hn Ho]. apply negb_true_iff in Hn.
    rewrite Hn. apply IH; [exact Ho | lia].
Qed.

Lemma skip_section_lenient (opening closing : string) (lex lex1 lex' : Lexer.t)
      (ts : list string) (fuel : nat) :
  Lexer.parse_token lex = (Val (Some opening), lex1) ->
  token_stream lex1 ts lex' ->
  stays_open opening closing 1 ts = true ->
  length ts < fuel ->
  Lexer.skip_bracket_delimiter_section fuel opening closing lex = Some (Val tt, lex').
Proof.
  intros H Hts Ho Hf. unfold Lexer.skip_bracket_delimiter_section.
  rewrite (expect_token_run _ _ _ H). now apply skip_loop_lenient with (ts := ts).
Qed.

Variable float_of_string : string -> res float.
Variable none_as_string : res string.

(** The body scan of a material declaration, at the end of the input
    where it reads its next token: it stops, at whatever depth, and the
    table stays as it is. *)
Lemma material_body_loop_eof (fuel decl : nat) (v : Materials.locals)
      (s : pstate Materials.MaterialDeclPropGroup) (lex' : Lexer.t) :
  Lexer.parse_token (lex s) = (Val None, lex') ->
  Materials.body_loop float_of_string none_as_string (S fuel) decl v s
  = Some (Val tt, mkst lex' (decls s)).
Proof.
  intros H. cbn [Materials.body_loop]. unfold Materials.body_step, bind.
  now rewrite (on_lex_run _ _ _ _ H).
Qed.

Lemma material_file_loop_eof (fuel created updated : nat)
      (s : pstate Materials.MaterialDeclPropGroup) (lex' : Lexer.t) :
  Lexer.parse_token (lex s) = (Val None, lex') ->
  Materials.file_loop float_of_string none_as_string (S fuel) created updated s
  = Some (Val (created, updated), mkst lex' (decls s)).
Proof.
  intros H. cbn [Materials.file_loop].
  now rewrite (bind_val _ _ _ _ _ (on_lex_run _ _ _ _ H)).
Qed.

(** The body-level [bumpmap] key with a plain texture: [normal_texture]
    is set, [heightmap_scale] is not touched. *)
Lemma plain_bumpmap_step (decl : nat) (token value : string)
      (s : pstate Materials.MaterialDeclPropGroup) (lex1 lex2 : Lexer.t) :
  Lexer.parse_token (lex s) = (Val (Some token), lex1) ->
  lower token = "bumpmap" ->
  Lexer.parse_token lex1 = (Val (Some value), lex2) ->
  lower value <> "heightmap" ->
  Materials.body_step float_of_string none_as_string decl Materials.body_entry s
  = Some (Val (Some Materials.body_entry),
          mkst lex2 (alter (Materials.set_normal_texture value) decl (decls s))).
Proof.
  intros H1 Hk H2 Hv. unfold Materials.body_step.
  rewrite (bind_val _ _ _ _ _ (on_lex_run _ _ _ _ H1)).
  assert (Ho : String.eqb token "{" = false).
  { apply String.eqb_neq. intros ->. discriminate Hk. }
  assert (Hc : String.eqb token "}" = false).
  { apply String.eqb_neq. intros ->. discriminate Hk. }
  unfold Materials.braces. rewrite Ho, Hc.
  unfold bind at 1. cbv [ret]. cbn [Materials.in_stage Materials.body_entry].
  unfold Materials.decl_keys. rewrite Hk. cbn [String.eqb Ascii.eqb Bool.eqb].
  unfold bind. cbn [lex decls]. rewrite (on_lex_at _ _ _ _ _ H2).
  cbv [Materials.lower_of ret]. apply String.eqb_neq in Hv. rewrite Hv.
  reflexivity.
Qed.

End LenientEof.

(** ** Number formatting *)

Section Rstrip.
Variable chars : string.

Lemma rstrip_cons (c : ascii) (s : string) :
  rstrip chars (String c s)
  = match rstrip chars s with
    | EmptyString => if char_in c chars then EmptyString else String c EmptyString
    | r => String c r
    end.
Proof. reflexivity. Qed.

Lemma rstrip_keep_head (c : ascii) (s : string) :
  char_in c chars = false -> rstrip chars (String c s) = String c (rstrip chars s).
Proof. intros H. rewrite rstrip_cons, H. now destruct (rstrip chars s). Qed.

Lemma rstrip_append_keep (a b : string) :
  rstrip chars b <> "" -> rstrip chars (a ++ b) = a ++ rstrip chars b.
Proof.
  intros H. induction a as [|c a IH]; [reflexivity|].
  rewrite !append_cons, rstrip_cons, IH.
  destruct (a ++ rstrip chars b) eqn:E; [|reflexivity].
  destruct a; [now rewrite append_empty in E | now rewrite append_cons in E].
Qed.

Lemma rstrip_append_drop (a b : string) :
  rstrip chars b = "" -> rstrip chars (a ++ b) = rstrip chars a.
Proof.
  intros H. induction a as [|c a IH]; [exact H|].
  now rewrite append_cons, !rstrip_cons, IH.
Qed.

Lemma rstrip_unchanged (s : string) (c : ascii) :
  last_char s = Some c -> char_in c chars = false -> rstrip chars s = s.
Proof.
  intros Hl Hc. induction s as [|d s IH]; [reflexivity|].
  rewrite rstrip_cons. destruct s as [|d' s].
  - injection Hl as ->. cbn [rstrip]. now rewrite Hc.
  - rewrite IH by exact Hl. reflexivity.
Qed.

(** What [rstrip] removes is a run of characters of [chars], and what it
    leaves does not end with one. *)
Lemma rstrip_spec (s : string) :
  (exists z, s = rstrip chars s ++ z /\ all_in chars z = true)
  /\ forall c, last_char (rstrip chars s) = Some c -> char_in c chars = false.
Proof.
  induction s as [|d s [(z & Hz & Hall) Hlast]].
  - split; [now exists "" | discriminate].
  - rewrite rstrip_cons. destruct (rstrip chars s) as [|r rs] eqn:E.
    + rewrite append_empty in Hz. subst z.
      destruct (char_in d chars) eqn:Hd.
      * split; [exists (String d s); split; [reflexivity|]| discriminate].
        cbn [all_in]. now rewrite Hd, Hall.
      * split; [now exists s|]. intros c [= <-]. exact Hd.
    + split; [exists z; split; [now rewrite append_cons, <- Hz | exact Hall]|].
      intros c Hc. apply Hlast. exact Hc.
Qed.

End Rstrip.

Section Digits.

Lemma all_in_append (chars a b : string) :
  all_in chars (a ++ b) = all_in chars a && all_in chars b.
Proof.
  induction a as [|c a IH]; [reflexivity|].
  rewrite append_cons. cbn [all_in]. now rewrite IH, andb_assoc.
Qed.

Lemma all_in_rstrip (chars strip s : string) :
  all_in chars s = true -> all_in chars (rstrip strip s) = true.
Proof.
  intros H. destruct (rstrip_spec strip s) as [(z & Hz & _) _].
  rewrite Hz, all_in_append in H. now apply andb_true_iff in H as [H _].
Qed.

Lemma all_in_last (chars s : string) (c : ascii) :
  all_in chars s = true -> last_char s = Some c -> char_in c chars = true.
Proof.
  induction s as [|d s IH]; [discriminate|].
  cbn [all_in]. intros H Hl. apply andb_true_iff in H as [Hd H].
  destruct s as [|d' s]; [injection Hl as <-; exact Hd | now apply IH].
Qed.

Lemma last_char_append (a b : string) :
  b <> "" -> last_char (a ++ b) = last_char b.
Proof.
  intros H. induction a as [|c a IH]; [reflexivity|].
  rewrite append_cons. cbn [last_char]. rewrite IH.
  destruct (a ++ b) eqn:E; [|reflexivity].
  destruct a; [now rewrite append_empty in E | now rewrite append_cons in E].
Qed.

Lemma digit_is_digit (n : Z) : char_in (digit n) decimal_digits = true.
Proof.
  unfold digit.
  assert (H : (0 <= n mod 10 < 10)%Z) by (apply Z.mod_pos_bound; lia).
  assert (Hn : Z.to_nat (n mod 10) < 10) by lia.
  destruct (Z.to_nat (n mod 10)) as [|[|[|[|[|[|[|[|[|[|k]]]]]]]]]];
    try reflexivity; lia.
Qed.

Lemma six_digits_are_digits (r : Z) : all_in decimal_digits (six_digits r) = true.
Proof.
  unfold six_digits. cbn [all_in]. now rewrite !digit_is_digit.
Qed.

Lemma six_digits_length (r : Z) : String.length (six_digits r) = 6.
Proof. reflexivity. Qed.

Lemma uint_digits (d : Decimal.uint) :
  all_in decimal_digits (DecimalString.NilEmpty.string_of_uint d) = true.
Proof. induction d; cbn [DecimalString.NilEmpty.string_of_uint all_in]; auto. Qed.

Lemma decimal_digits_only (n : Z) : all_in decimal_digits (decimal n) = true.
Proof.
  unfold decimal, DecimalString.NilZero.string_of_uint.
  destruct (N.to_uint (Z.to_N n)) eqn:E; try reflexivity; rewrite <- E; apply uint_digits.
Qed.

Lemma decimal_nonempty (n : Z) : decimal n <> "".
Proof.
  unfold decimal, DecimalString.NilZero.string_of_uint.
  destruct (N.to_uint (Z.to_N n)); discriminate.
Qed.

Lemma digit_not_point (c : ascii) :
  char_in c decimal_digits = true -> char_in c "." = false.
Proof.
  intros H. cbn [char_in]. rewrite orb_false_r.
  destruct (Ascii.eqb c ".") eqn:E; [|reflexivity].
  apply Ascii.eqb_eq in E. subst c. discriminate H.
Qed.

Lemma last_of_nonempty (s : string) : s <> "" -> exists c, last_char s = Some c.
Proof.
  induction s as [|d s IH]; [congruence|]. intros _.
  destruct s as [|d' s]; [now exists d|]. apply IH. discriminate.
Qed.

End Digits.

Section Ftos.

(** A whole part that ends with a digit, a point, six decimals. *)
Lemma strip_fixed (whole frac : string) (c : ascii) :
  last_char whole = Some c ->
  char_in c decimal_digits = true ->
  all_in decimal_digits frac = true ->
  rstrip "." (rstrip "0" (whole ++ String "." frac))
  = if String.eqb (rstrip "0" frac) "" then whole
    else whole ++ String "." (rstrip "0" frac).
Proof.
  intros Hl Hc Hf.
  assert (Hp : rstrip "0" (String "." frac) = String "." (rstrip "0" frac))
    by now apply rstrip_keep_head.
  rewrite rstrip_append_keep by (rewrite Hp; discriminate). rewrite Hp.
  destruct (rstrip "0" frac) as [|d f] eqn:E.
  - cbn [String.eqb]. rewrite rstrip_append_drop by reflexivity.
    apply rstrip_unchanged with (c := c); [exact Hl | now apply digit_not_point].
  - cbn [String.eqb].
    destruct (last_of_nonempty (String d f)) as [x Hx]; [discriminate|].
    assert (Hd : char_in x decimal_digits = true).
    { apply all_in_last with (s := String d f); [|exact Hx].
      rewrite <- E. now apply all_in_rstrip. }
    assert (Hk : rstrip "." (String "." (String d f)) = String "." (String d f)).
    { apply rstrip_unchanged with (c := x); [exact Hx | now apply digit_not_point]. }
    rewrite rstrip_append_keep by (rewrite Hk; discriminate). now rewrite Hk.
Qed.

Lemma ftos_finite (a : float) (s : bool) (m : positive) (e : Z) :
  Prim2SF a = S754_finite s m e ->
  let n := micro_units m e in
  let whole := sign s ++ decimal (n / 1000000) in
  let frac := six_digits (n mod 1000000) in
  format_f a = whole ++ "." ++ frac
  /\ String.length frac = 6
  /\ ftos a = if String.eqb (rstrip "0" frac) "" then whole
              else whole ++ "." ++ rstrip "0" frac.
Proof.
  intros H n whole frac.
  assert (Hf : format_f a = whole ++ "." ++ frac).
  { unfold format_f. rewrite H. fold n. unfold whole, frac.
    generalize (decimal (n / 1000000)) (six_digits (n mod 1000000)).
    intros x y. destruct s; reflexivity. }
  split; [exact Hf|]. split; [reflexivity|].
  unfold ftos. rewrite Hf.
  destruct (last_of_nonempty (decimal (n / 1000000)) (decimal_nonempty _)) as [c Hc].
  apply strip_fixed with (c := c).
  - unfold whole. rewrite last_char_append by apply decimal_nonempty. exact Hc.
  - apply all_in_last with (s := decimal (n / 1000000)); [apply decimal_digits_only | exact Hc].
  - apply six_digits_are_digits.
Qed.

End Ftos.



(** ** Loops that can raise *)

Section ForLoops.
Context {A B : Type}.

Lemma for_each_length (f : A -> res B) (l : list A) (out : list B) :
  for_each f l = Val out -> length out = length l.
Proof.
  revert out. induction l as [|a l IH]; intros out H; cbn [for_each] in H.
  - now injection H as <-.
  - destruct (f a) as [b|]; [|discriminate]. cbn [rbind] in H.
    destruct (for_each f l) as [bs|]; [|discriminate]. cbn [rbind] in H.
    injection H as <-. cbn [length]. now rewrite (IH bs).
Qed.

Lemma for_each_lookup (f : A -> res B) (l : list A) (out : list B) (k : nat) (a : A) :
  for_each f l = Val out -> l !! k = Some a ->
  exists b, out !! k = Some b /\ f a = Val b.
Proof.
  revert out k. induction l as [|x l IH]; intros out k H Hk; [discriminate|].
  cbn [for_each] in H.
  destruct (f x) as [b|] eqn:Hx; [|discriminate]. cbn [rbind] in H.
  destruct (for_each f l) as [bs|]; [|discriminate]. cbn [rbind] in H.
  injection H as <-. destruct k as [|k].
  - injection Hk as <-. now exists b.
  - apply (IH bs k eq_refl Hk).
Qed.

Lemma for_each_lookup_inv (f : A -> res B) (l : list A) (out : list B) (k : nat) (b : B) :
  for_each f l = Val out -> out !! k = Some b ->
  exists a, l !! k = Some a /\ f a = Val b.
Proof.
  intros H Hk. pose proof (for_each_length _ _ _ H) as Hlen.
  destruct (l !! k) as [a|] eqn:Ha.
  - destruct (for_each_lookup _ _ _ _ _ H Ha) as (b' & Hb & Hf).
    exists a. split; [reflexivity|]. congruence.
  - apply lookup_ge_None in Ha. apply lookup_lt_Some in Hk. lia.
Qed.

End ForLoops.

(** ** Lists of rows *)

Section Rows.
Context {A : Type}.

Lemma concat_lookup (l : list (list A)) (r t : nat) (row : list A) (x : A) :
  l !! r = Some row -> row !! t = Some x ->
  concat l !! (length (concat (take r l)) + t) = Some x.
Proof.
  revert r. induction l as [|y l IH]; intros r Hr Ht; [discriminate|].
  destruct r as [|r].
  - injection Hr as ->. cbn [take concat length Nat.add].
    rewrite lookup_app_l; [exact Ht | now apply lookup_lt_Some in Ht].
  - cbn [take concat]. rewrite length_app, <- Nat.add_assoc.
    rewrite lookup_app_r by lia.
    replace (length y + (length (concat (take r l)) + t) - length y)
      with (length (concat (take r l)) + t) by lia.
    now apply IH.
Qed.

Lemma concat_insert_length (l : list (list A)) (r : nat) (row : list A) (x : A) :
  l !! r = Some row ->
  length (concat (<[r := (row ++ [x])%list]> l)) = length (concat l) + 1.
Proof.
  revert r. induction l as [|y l IH]; intros r Hr; [discriminate|].
  destruct r as [|r].
  - injection Hr as ->.
    change (<[0 := (row ++ [x])%list]> (row :: l)) with ((row ++ [x])%list :: l).
    cbn [concat]. rewrite !length_app. cbn [length]. lia.
  - change (<[S r := (row ++ [x])%list]> (y :: l))
      with (y :: <[r := (row ++ [x])%list]> l).
    cbn [concat]. rewrite !length_app, (IH r Hr). lia.
Qed.

End Rows.

(** ** The vertex map of [create_primitive] *)

Section VertMap.
Import ExportMap.

Lemma item_val {A} (l : list A) (i : nat) (a : A) :
  item l i = Val a <-> l !! i = Some a.
Proof.
  unfold item. destruct (l !! i); split; intros H; try discriminate; congruence.
Qed.

Lemma append_loop_count (vm vm' : list (list entry)) (loop : MeshLoop) :
  append_loop vm loop = Val vm' ->
  length vm' = length vm /\ length (concat vm') = length (concat vm) + 1.
Proof.
  unfold append_loop. destruct (item vm (vertex_index loop)) as [row|] eqn:E;
    [|discriminate].
  cbn [rbind]. intros [= <-]. apply item_val in E.
  split; [apply length_insert | now apply concat_insert_length].
Qed.

Lemma corners_count (mesh : Mesh) (cs : list nat) :
  forall vm vm' : list (list entry),
    for_fold (fun vm i => do* loop := item (loops mesh) i in append_loop vm loop) cs vm
    = Val vm' ->
    length vm' = length vm
    /\ length (concat vm') = length (concat vm) + length cs.
Proof.
  induction cs as [|i cs IH]; intros vm vm' H; cbn [for_fold] in H.
  - injection H as <-. cbn [length]. lia.
  - destruct (item (loops mesh) i) as [loop|]; [|discriminate]. cbn [rbind] in H.
    destruct (append_loop vm loop) as [vm1|] eqn:E; [|discriminate]. cbn [rbind] in H.
    apply append_loop_count in E as [E1 E2].
    apply IH in H as [H1 H2]. cbn [length]. lia.
Qed.

Lemma collect_loops_count (mesh : Mesh) :
  forall (ps : list MeshPolygon) (vm vm' : list (list entry)),
    for_fold (fun vm p =>
                for_fold (fun vm i => do* loop := item (loops mesh) i in append_loop vm loop)
                         (loop_indices p) vm) ps vm
    = Val vm' ->
    length vm' = length vm
    /\ length (concat vm') = length (concat vm) + length (flat_map loop_indices ps).
Proof.
  induction ps as [|p ps IH]; intros vm vm' H; cbn [for_fold] in H.
  - injection H as <-. cbn [flat_map length]. lia.
  - destruct (for_fold _ (loop_indices p) vm) as [vm1|] eqn:E; [|discriminate].
    cbn [rbind] in H. apply corners_count in E as [E1 E2].
    apply IH in H as [H1 H2]. cbn [flat_map]. rewrite length_app. lia.
Qed.

Lemma number_row_spec (row : list entry) :
  forall n : nat,
    snd (number_row n row) = n + length row
    /\ length (fst (number_row n row)) = length row
    /\ forall t x, fst (number_row n row) !! t = Some x -> fst x = n + t.
Proof.
  induction row as [|[a l] row IH]; intros n; cbn [number_row].
  - cbn [fst snd length]. split; [lia|]. split; [reflexivity|]. discriminate.
  - specialize (IH (n + 1)). destruct (number_row (n + 1) row) as [r n'].
    cbn [fst snd length] in *. destruct IH as (H1 & H2 & H3).
    split; [lia|]. split; [lia|].
    intros [|t] x Hx.
    + injection Hx as <-. cbn [fst]. lia.
    + apply H3 in Hx. lia.
Qed.

Lemma number_rows_spec (vm : list (list entry)) :
  forall n : nat,
    snd (number_rows n vm) = n + length (concat vm)
    /\ length (fst (number_rows n vm)) = length vm
    /\ length (concat (fst (number_rows n vm))) = length (concat vm)
    /\ forall r row t x,
        fst (number_rows n vm) !! r = Some row -> row !! t = Some x ->
        fst x = n + length (concat (take r (fst (number_rows n vm)))) + t.
Proof.
  induction vm as [|row0 vm IH]; intros n; cbn [number_rows].
  - cbn [fst snd concat length]. repeat split; try lia. discriminate.
  - pose proof (number_row_spec row0 n) as (R1 & R2 & R3).
    destruct (number_row n row0) as [r n1]. cbn [fst snd] in *.
    specialize (IH n1). destruct (number_rows n1 vm) as [rs n2].
    cbn [fst snd] in *. destruct IH as (H1 & H2 & H3 & H4).
    cbn [concat length]. rewrite !length_app.
    split; [lia|]. split; [lia|]. split; [lia|].
    intros [|k] row t x Hrow Hx.
    + injection Hrow as ->. cbn [take concat length]. rewrite (R3 _ _ Hx). lia.
    + cbn [take concat]. rewrite length_app. rewrite (H4 _ _ _ _ Hrow Hx). lia.
Qed.

Lemma make_verts_spec (mesh : Mesh) (vs : list MeshVertex) :
  forall (i : nat) (vm : list (list entry)) (out : list Vert),
    make_verts mesh i vs vm = Val out ->
    length out = length (concat (take (length vs) (drop i vm)))
    /\ forall j v row t x,
        vs !! j = Some v -> vm !! (i + j) = Some row -> row !! t = Some x ->
        exists vert,
          out !! (length (concat (take j (drop i vm))) + t) = Some vert
          /\ make_vert mesh v x = Val vert.
Proof.
  induction vs as [|v0 vs IH]; intros i vm out H; cbn [make_verts] in H.
  - injection H as <-. split; [reflexivity | discriminate].
  - destruct (item vm i) as [row0|] eqn:Hrow0; [|discriminate]. cbn [rbind] in H.
    destruct (for_each (make_vert mesh v0) row0) as [here|] eqn:Hhere; [|discriminate].
    cbn [rbind] in H.
    destruct (make_verts mesh (i + 1) vs vm) as [rest|] eqn:Hrest; [|discriminate].
    cbn [rbind] in H. injection H as <-.
    apply item_val in Hrow0. apply IH in Hrest as [L1 L2].
    pose proof (for_each_length _ _ _ Hhere) as Lhere.
    rewrite (drop_S _ _ _ Hrow0). replace (S i) with (i + 1) by lia.
    split.
    + cbn [length take concat]. rewrite !length_app. lia.
    + intros [|j] v row t x Hv Hrow Hx.
      * injection Hv as <-. rewrite Nat.add_0_r in Hrow.
        assert (row = row0) as -> by congruence.
        destruct (for_each_lookup _ _ _ _ _ Hhere Hx) as (vert & Hvert & Hf).
        exists vert. split; [|exact Hf].
        cbn [take concat length Nat.add].
        rewrite lookup_app_l; [exact Hvert | now apply lookup_lt_Some in Hvert].
      * replace (i + S j) with (i + 1 + j) in Hrow by lia.
        destruct (L2 j v row t x Hv Hrow Hx) as (vert & Hvert & Hf).
        exists vert. split; [|exact Hf].
        cbn [take concat]. rewrite length_app, <- Nat.add_assoc.
        rewrite lookup_app_r by lia.
        replace (length row0 + (length (concat (take j (drop (i + 1) vm))) + t) - length here)
          with (length (concat (take j (drop (i + 1) vm))) + t) by lia.
        exact Hvert.
Qed.

End VertMap.

Section CreatePrimitive.
Import ExportMap.
Variable world_mesh : Object -> res Mesh.
Variable quads_convert_to_tris : Mesh -> Mesh.

(** The passes of [create_primitive], one after the other. *)
Lemma create_primitive_passes (obj : Object) (index : nat) (temp : Mesh) (P : Primitive) :
  world_mesh obj = Val temp ->
  create_primitive world_mesh quads_convert_to_tris obj index = Val P ->
  let mesh := quads_convert_to_tris temp in
  exists vm0,
    collect_loops mesh (replicate (length (vertices mesh)) []) = Val vm0
    /\ make_verts mesh 0 (vertices mesh) (fst (number_rows 0 vm0)) = Val (verts P)
    /\ for_each (make_poly mesh (fst (number_rows 0 vm0))) (polygons mesh)
       = Val (polys P)
    /\ primitive P = index.
Proof.
  intros Hw H mesh. unfold create_primitive in H. rewrite Hw in H. cbn [rbind] in H.
  fold mesh in H.
  destruct (collect_loops mesh _) as [vm0|] eqn:Hc; [|discriminate]. cbn [rbind] in H.
  exists vm0. split; [reflexivity|].
  destruct (number_rows 0 vm0) as [vm' n]. cbn [fst].
  destruct (make_verts mesh 0 (vertices mesh) vm') as [vs|]; [|discriminate].
  cbn [rbind] in H.
  destruct (for_each (make_poly mesh vm') (polygons mesh)) as [ps|]; [|discriminate].
  cbn [rbind] in H. injection H as <-. now cbn.
Qed.

Lemma concat_replicate_nil {A} (n : nat) : concat (replicate n (@nil A)) = [].
Proof. induction n as [|n IH]; [reflexivity | exact IH]. Qed.

Lemma collect_loops_shape (mesh : Mesh) (vm0 : list (list entry)) :
  collect_loops mesh (replicate (length (vertices mesh)) []) = Val vm0 ->
  length vm0 = length (vertices mesh)
  /\ length (concat vm0) = length (face_corners mesh).
Proof.
  intros H. apply collect_loops_count in H as [H1 H2].
  rewrite length_replicate in H1. rewrite concat_replicate_nil in H2.
  split; [exact H1 | exact H2].
Qed.

(** What [corner_index] went through when it returned [k]. *)
Lemma corner_index_inv (mesh : Mesh) (vm : list (list entry)) (i k : nat) :
  corner_index mesh vm i = Val k ->
  exists loop v layer uv row x t,
    loops mesh !! i = Some loop
    /\ vertices mesh !! vertex_index loop = Some v
    /\ uv_layers mesh !! 0 = Some layer
    /\ layer !! index loop = Some uv
    /\ vm !! vertex_index loop = Some row
    /\ row !! t = Some x
    /\ snd x = index loop
    /\ fst x = k.
Proof.
  unfold corner_index. intros H.
  destruct (item (loops mesh) i) as [loop|] eqn:E1; [|discriminate]. cbn [rbind] in H.
  destruct (item (vertices mesh) _) as [v|] eqn:E2; [|discriminate]. cbn [rbind] in H.
  destruct (item (uv_layers mesh) 0) as [layer|] eqn:E3; [|discriminate]. cbn [rbind] in H.
  destruct (item layer _) as [uv|] eqn:E4; [|discriminate]. cbn [rbind] in H.
  destruct (item vm _) as [row|] eqn:E5; [|discriminate]. cbn [rbind] in H.
  unfold next_entry in H.
  destruct (List.find (fun x : nat * nat => snd x =? index loop) row) as [x|] eqn:E6;
    [|discriminate].
  cbn [rbind] in H.
  injection H as <-.
  apply item_val in E1, E2, E3, E4, E5.
  apply find_some in E6 as [Hin Hsnd]. apply Nat.eqb_eq in Hsnd.
  apply list_elem_of_In, list_elem_of_lookup in Hin as [t Ht].
  exists loop, v, layer, uv, row, x, t. repeat split; assumption.
Qed.

Lemma written_index_inv (mesh : Mesh) (vm : list (list entry))
      (P : Primitive) (q j k : nat) (p : MeshPolygon) :
  for_each (make_poly mesh vm) (polygons mesh) = Val (polys P) ->
  polygons mesh !! q = Some p ->
  written_index P q j k ->
  j < loop_total p /\ corner_index mesh vm (loop_start p + j) = Val k.
Proof.
  intros H Hp (poly & Hpoly & Hk).
  destruct (for_each_lookup _ _ _ _ _ H Hp) as (poly' & Hpoly' & Hmk).
  assert (poly' = poly) as -> by congruence.
  unfold make_poly in Hmk.
  destruct (item (materials mesh) _) as [slot|]; [|discriminate]. cbn [rbind] in Hmk.
  destruct (for_each (corner_index mesh vm) (loop_indices p)) as [ixs|] eqn:E;
    [|discriminate].
  cbn [rbind] in Hmk. injection Hmk as <-. cbn [indices] in Hk.
  destruct (for_each_lookup_inv _ _ _ _ _ E Hk) as (i & Hi & Hc).
  unfold loop_indices in Hi. apply lookup_seq in Hi as [-> Hj]. now split.
Qed.

Lemma polys_shape (mesh : Mesh) (vm : list (list entry))
      (polys : list Poly) (q : nat) (p : MeshPolygon) :
  for_each (make_poly mesh vm) (polygons mesh) = Val polys ->
  polygons mesh !! q = Some p ->
  exists poly, polys !! q = Some poly
               /\ length (indices poly) = loop_total p
               /\ materials mesh !! material_index p = Some (material poly).
Proof.
  intros H Hp. destruct (for_each_lookup _ _ _ _ _ H Hp) as (poly & Hpoly & Hmk).
  exists poly. split; [exact Hpoly|]. unfold make_poly in Hmk.
  destruct (item (materials mesh) _) as [slot|] eqn:Es; [|discriminate].
  cbn [rbind] in Hmk.
  destruct (for_each (corner_index mesh vm) (loop_indices p)) as [ixs|] eqn:E;
    [|discriminate].
  cbn [rbind] in Hmk. injection Hmk as <-. cbn [indices material].
  apply for_each_length in E. unfold loop_indices in E. rewrite length_seq in E.
  split; [exact E | now apply item_val].
Qed.

Lemma face_corners_count (mesh : Mesh) :
  (forall p, p ∈ polygons mesh -> loop_total p = 3) ->
  length (face_corners mesh) = 3 * length (polygons mesh).
Proof.
  unfold face_corners. induction (polygons mesh) as [|p ps IH]; intros H; [reflexivity|].
  cbn [flat_map length]. rewrite length_app. unfold loop_indices at 1.
  rewrite length_seq, (H p) by apply list_elem_of_here.
  rewrite IH; [lia|]. intros p' Hp'. apply H. now apply list_elem_of_further.
Qed.

(** The split vertices of a primitive. *)
Lemma create_primitive_split (obj : Object) (index : nat) (temp : Mesh) (P : Primitive) :
  world_mesh obj = Val temp ->
  create_primitive world_mesh quads_convert_to_tris obj index = Val P ->
  let mesh := quads_convert_to_tris temp in
  length (verts P) = length (face_corners mesh)
  /\ (forall q p, polygons mesh !! q = Some p ->
                  exists poly, polys P !! q = Some poly
                               /\ length (indices poly) = loop_total p)
  /\ (forall q p j k,
         polygons mesh !! q = Some p -> written_index P q j k ->
         is_Some (verts P !! k)
         /\ verts P !! k = corner_vertex mesh (loop_start p + j))
  /\ (forall q1 p1 j1 q2 p2 j2 k l1 l2,
         polygons mesh !! q1 = Some p1 -> polygons mesh !! q2 = Some p2 ->
         written_index P q1 j1 k -> written_index P q2 j2 k ->
         loops mesh !! (loop_start p1 + j1) = Some l1 ->
         loops mesh !! (loop_start p2 + j2) = Some l2 ->
         ExportMap.index l1 = ExportMap.index l2).
Proof.
  intros Hw H mesh.
  destruct (create_primitive_passes obj index temp P Hw H) as (vm0 & Hc & Hv & Hp & _).
  fold mesh in Hc, Hv, Hp.
  apply collect_loops_shape in Hc as [Hlen Hcount].
  pose proof (number_rows_spec vm0 0) as (_ & Nlen & Ncount & Nfst).
  set (vm := fst (number_rows 0 vm0)) in *.
  apply make_verts_spec in Hv as [Vlen Vat]. rewrite drop_0 in Vlen.
  rewrite take_ge in Vlen by lia.
  split; [lia|]. split; [|split].
  - intros q p Hq. destruct (polys_shape _ _ _ _ _ Hp Hq) as (poly & H1 & H2 & _).
    now exists poly.
  - intros q p j k Hq Hk.
    destruct (written_index_inv _ _ _ _ _ _ _ Hp Hq Hk) as [_ Hci].
    apply corner_index_inv in Hci
      as (loop & v & layer & uv & row & x & t & E1 & E2 & E3 & E4 & E5 & E6 & E7 & E8).
    destruct (Vat _ _ _ _ _ E2 E5 E6) as (vert & Hvert & Hmake).
    rewrite drop_0 in Hvert.
    rewrite (Nfst _ _ _ _ E5 E6) in E8. cbn [Nat.add] in E8. rewrite E8 in Hvert.
    rewrite Hvert. split; [eauto|].
    unfold make_vert in Hmake. unfold item in Hmake. rewrite E3 in Hmake.
    cbn [rbind] in Hmake. rewrite E7, E4 in Hmake. cbn [rbind] in Hmake.
    injection Hmake as <-.
    unfold corner_vertex. rewrite E1. cbn [mbind option_bind].
    rewrite E2. cbn [mbind option_bind]. rewrite E3. cbn [mbind option_bind].
    now rewrite E4.
  - intros q1 p1 j1 q2 p2 j2 k l1 l2 Hq1 Hq2 Hk1 Hk2 Hl1 Hl2.
    destruct (written_index_inv _ _ _ _ _ _ _ Hp Hq1 Hk1) as [_ Hc1].
    destruct (written_index_inv _ _ _ _ _ _ _ Hp Hq2 Hk2) as [_ Hc2].
    apply corner_index_inv in Hc1
      as (loop1 & _ & _ & _ & row1 & x1 & t1 & A1 & _ & _ & _ & A5 & A6 & A7 & A8).
    apply corner_index_inv in Hc2
      as (loop2 & _ & _ & _ & row2 & x2 & t2 & B1 & _ & _ & _ & B5 & B6 & B7 & B8).
    assert (loop1 = l1) as -> by congruence.
    assert (loop2 = l2) as -> by congruence.
    pose proof (concat_lookup _ _ _ _ _ A5 A6) as C1.
    pose proof (concat_lookup _ _ _ _ _ B5 B6) as C2.
    rewrite (Nfst _ _ _ _ A5 A6) in A8. rewrite (Nfst _ _ _ _ B5 B6) in B8.
    cbn [Nat.add] in A8, B8. rewrite A8 in C1. rewrite B8 in C2.
    assert (x1 = x2) as -> by congruence. congruence.
Qed.

End CreatePrimitive.

(** C2, as the code has it.  [create_primitive] triangulates the mesh
    first, and then gives every face corner of the triangulated mesh an
    output vertex of its own: there are as many output vertices as face
    corners (three for every triangle), the index written for a corner
    points at the vertex that carries the scaled position and the normal of
    the corner's source vertex and the corner's own UV, and two corners
    whose loops differ never get the same index.  A cube of six quads is
    twelve triangles when it is split, and exports 36 vertices. *)
Theorem split_vertex_per_face_corner :
  (forall (world_mesh : ExportMap.Object -> res ExportMap.Mesh)
          (quads_convert_to_tris : ExportMap.Mesh -> ExportMap.Mesh)
          (obj : ExportMap.Object) (ix : nat) (temp : ExportMap.Mesh)
          (P : ExportMap.Primitive),
      world_mesh obj = Val temp ->
      ExportMap.create_primitive world_mesh quads_convert_to_tris obj ix = Val P ->
      let mesh := quads_convert_to_tris temp in
      length (ExportMap.verts P) = length (face_corners mesh)
      /\ ((forall p, p ∈ ExportMap.polygons mesh -> ExportMap.loop_total p = 3) ->
          length (ExportMap.verts P) = 3 * length (ExportMap.polygons mesh))
      /\ (forall q p, ExportMap.polygons mesh !! q = Some p ->
                      exists poly, ExportMap.polys P !! q = Some poly
                                   /\ length (ExportMap.indices poly)
                                      = ExportMap.loop_total p)
      /\ (forall q p j k,
             ExportMap.polygons mesh !! q = Some p -> written_index P q j k ->
             is_Some (ExportMap.verts P !! k)
             /\ ExportMap.verts P !! k
                = corner_vertex mesh (ExportMap.loop_start p + j))
      /\ (forall q1 p1 j1 q2 p2 j2 k l1 l2,
             ExportMap.polygons mesh !! q1 = Some p1 ->
             ExportMap.polygons mesh !! q2 = Some p2 ->
             written_index P q1 j1 k -> written_index P q2 j2 k ->
             ExportMap.loops mesh !! (ExportMap.loop_start p1 + j1) = Some l1 ->
             ExportMap.loops mesh !! (ExportMap.loop_start p2 + j2) = Some l2 ->
             ExportMap.index l1 = ExportMap.index l2))
  /\ exists P,
      ExportMap.create_primitive (fun _ => Val cube_mesh) ExportMap.fan_triangulate cube 0
      = Val P
      /\ length (ExportMap.polygons (ExportMap.fan_triangulate cube_mesh)) = 12
      /\ length (ExportMap.verts P) = 36.
Proof.
  split.
  - intros world_mesh tris obj ix temp P Hw H mesh.
    destruct (create_primitive_split world_mesh tris obj ix temp P Hw H)
      as (H1 & H2 & H3 & H4).
    split; [exact H1|]. split; [|split; [exact H2 | split; [exact H3 | exact H4]]].
    intros Htri. fold mesh in H1. rewrite H1. now apply face_corners_count.
  - eexists. split; [vm_compute; reflexivity|]. split; reflexivity.
Qed.

(** The theorem on a single triangle with its three corners. *)
Lemma split_vertex_per_face_corner_witness :
  let tri := {| ExportMap.vertices := firstn 4 (ExportMap.vertices cube_mesh);
                ExportMap.loops := firstn 3 (ExportMap.loops cube_mesh);
                ExportMap.polygons :=
                  [{| ExportMap.material_index := 0;
                      ExportMap.loop_start := 0;
                      ExportMap.loop_total := 3 |}];
                ExportMap.uv_layers := ExportMap.uv_layers cube_mesh;
                ExportMap.materials := ExportMap.materials cube_mesh |} in
  exists P,
    ExportMap.create_primitive (fun _ => Val tri) (fun m => m) cube 0 = Val P
    /\ length (ExportMap.verts P) = length (face_corners tri).
Proof.
  intros tri. eexists. split; [vm_compute; reflexivity|].
  refine (proj1 (proj1 split_vertex_per_face_corner
                       (fun _ => Val tri) (fun m => m) cube 0 tri _ eq_refl _)).
  vm_compute; reflexivity.
Defined.

(** C2, as stated, fails: the cube of six quads, each corner with a UV of
    its own, has 8 vertices and 24 face corners, and its export holds 36
    vertices, not 24. *)
Lemma triangulated_cube_has_36_vertices :
  length (ExportMap.vertices cube_mesh) = 8
  /\ map ExportMap.loop_total (ExportMap.polygons cube_mesh) = [4; 4; 4; 4; 4; 4]
  /\ exists P,
      ExportMap.create_primitive (fun _ => Val cube_mesh) ExportMap.fan_triangulate cube 0
      = Val P
      /\ length (ExportMap.verts P) = 36
      /\ length (ExportMap.verts P) <> 24.
Proof.
  split; [reflexivity|]. split; [reflexivity|].
  eexists. split; [vm_compute; reflexivity|]. split; [reflexivity | discriminate].
Qed.

(** ** Entities of the document *)

Section LightFlags.
Import ExportMap.
Variable degrees : float -> float.
Variable euler_to_matrix : vec3 -> vec3 * vec3 * vec3.

Lemma value_of_set_key_eq (d : dict) (key : string) (v : value) :
  value_of key d = None -> value_of key (set_key d key v) = Some v.
Proof.
  unfold value_of, set_key. induction d as [|[k x] d IH]; cbn [List.find app fst].
  - now rewrite String.eqb_refl.
  - destruct (String.eqb k key); [discriminate | exact IH].
Qed.

Lemma value_of_set_key_ne (d : dict) (key key' : string) (v : value) :
  key' <> key -> value_of key (set_key d key' v) = value_of key d.
Proof.
  intros Hne. unfold value_of, set_key.
  induction d as [|[k x] d IH]; cbn [List.find app fst].
  - apply String.eqb_neq in Hne. now rewrite Hne.
  - destruct (String.eqb k key); [reflexivity | exact IH].
Qed.

(** The two flags of a lamp, as they are written. *)
Lemma light_flags (obj : Object) (lamp : Lamp) (entity_index : nat) :
  type obj = "LAMP" ->
  bfg_type (bfg obj) <> "ENTITY" ->
  bfg_type (bfg obj) <> "STATIC_MODEL" ->
  data obj = Some lamp ->
  exists ent,
    export_entity degrees euler_to_matrix obj entity_index = Val ent
    /\ value_of "nospecular" ent = Some (if use_specular lamp then VStr "0" else VInt 1)
    /\ value_of "nodiffuse" ent = Some (if use_diffuse lamp then VStr "0" else VInt 1).
Proof.
  intros Ht He Hs Hd. unfold export_entity, kind_fields.
  apply String.eqb_neq in He, Hs. rewrite He, Hs, Ht, Hd.
  cbn [String.eqb Ascii.eqb Bool.eqb].
  destruct (color lamp) as [[r g] b].
  destruct (negb (String.eqb (light_material (bfg obj)) "default"));
    eexists; (split; [reflexivity|]); split;
    rewrite ?(value_of_set_key_ne _ _ "texture") by discriminate;
    rewrite ?(value_of_set_key_ne _ _ "nodiffuse") by discriminate;
    now rewrite value_of_set_key_eq.
Qed.

End LightFlags.

(** C1 fails on the code.  A lamp whose specular term is switched off is
    exported with [nospecular] the integer 1, not the string ["1"]: the
    conditional expression takes the formatted ["0"] or the bare number 1.
    [nodiffuse], with the diffuse term on, is the string ["0"]. *)
Theorem lamp_flag_is_an_integer :
  forall (degrees : float -> float)
         (euler_to_matrix : ExportMap.vec3 -> ExportMap.vec3 * ExportMap.vec3 * ExportMap.vec3),
    ExportMap.export_entity degrees euler_to_matrix lamp_without_specular 1
    = Val [("entity", ExportMap.VInt 1);
           ("classname", ExportMap.VStr "light");
           ("name", ExportMap.VStr "Lamp");
           ("origin", ExportMap.VStr "64 128 32");
           ("light_center", ExportMap.VStr "0 0 0");
           ("light_radius", ExportMap.VStr "128 128 128");
           ("_color", ExportMap.VStr "1 0.5 0.25");
           ("nospecular", ExportMap.VInt 1);
           ("nodiffuse", ExportMap.VStr "0")]
    /\ ExportMap.VInt 1 <> ExportMap.VStr "1".
Proof. intros. split; [vm_compute; reflexivity | discriminate]. Qed.

(** C7.  Without a group named [worldspawn], [execute] reports an error
    and writes nothing; whenever it writes the document there is such a
    group. *)
Theorem no_worldspawn_writes_nothing :
  forall (world_mesh : ExportMap.Object -> res ExportMap.Mesh)
         (quads_convert_to_tris : ExportMap.Mesh -> ExportMap.Mesh)
         (degrees : float -> float)
         (euler_to_matrix : ExportMap.vec3 -> ExportMap.vec3 * ExportMap.vec3 * ExportMap.vec3)
         (indent : bool) (b : ExportMap.Blend),
    ((forall g, g ∈ ExportMap.groups b -> fst g <> "worldspawn") ->
     ExportMap.execute world_mesh quads_convert_to_tris degrees euler_to_matrix indent b
     = Val {| ExportMap.reports := [("ERROR", ExportMap.no_worldspawn_message)];
              ExportMap.written := None |})
    /\ (forall eff doc,
           ExportMap.execute world_mesh quads_convert_to_tris degrees euler_to_matrix indent b
           = Val eff ->
           ExportMap.written eff = Some doc ->
           exists g, g ∈ ExportMap.groups b /\ fst g = "worldspawn").
Proof.
  intros wm tris deg eul indent b. split.
  - intros Hno. unfold ExportMap.execute, ExportMap.worldspawn_group.
    destruct (List.find _ (ExportMap.groups b)) as [g|] eqn:E; [|reflexivity].
    apply find_some in E as [Hin Hg]. apply String.eqb_eq in Hg.
    apply list_elem_of_In in Hin. now destruct (Hno g Hin).
  - intros eff doc H Hw. unfold ExportMap.execute, ExportMap.worldspawn_group in H.
    destruct (List.find _ (ExportMap.groups b)) as [g|] eqn:E.
    + apply find_some in E as [Hin Hg]. apply String.eqb_eq in Hg.
      exists g. split; [now apply list_elem_of_In | exact Hg].
    + cbn [fmap option_fmap option_map] in H. injection H as <-. discriminate Hw.
Qed.

Lemma no_worldspawn_writes_nothing_witness :
  ExportMap.execute (fun _ => Val cube_mesh) ExportMap.fan_triangulate (fun x => x)
    (fun _ => ((1, 0, 0), (0, 1, 0), (0, 0, 1))%float) false
    {| ExportMap.groups := [("props", [cube])];
       ExportMap.scene_objects := [cube; lamp_without_specular] |}
  = Val {| ExportMap.reports := [("ERROR", ExportMap.no_worldspawn_message)];
           ExportMap.written := None |}.
Proof.
  refine (proj1 (no_worldspawn_writes_nothing _ _ _ _ _ _) _).
  intros g Hg. apply list_elem_of_singleton in Hg. subst g. discriminate.
Defined.

(** ** Words and punctuation *)

Section Words.
Import Lexer.

Lemma append_empty_r (s : string) : s ++ "" = s.
Proof. induction s as [|c s IH]; [reflexivity|]. now rewrite append_cons, IH. Qed.




End Words.



(** X2.  A punctuation character that is no token character, met where a
    token starts, is a token by itself. *)
Theorem parse_token_punctuation :
  forall (lex : Lexer.t) (pre : string) (c : ascii) (rest : string),
    Lexer.data (Lexer.skip_whitespace lex) = pre ++ String c rest ->
    Lexer.pos (Lexer.skip_whitespace lex) = String.length pre ->
    char_in c Lexer.valid_single_tokens = true ->
    char_in c Lexer.valid_token_chars = false ->
    Lexer.parse_token lex
    = (Val (Some (String c "")), Lexer.advance 1 (Lexer.skip_whitespace lex)).
Proof.
  intros lex pre c rest Hd Hp Hs Hv. rewrite (parse_token_at lex _ _ _ Hd Hp).
  cbn [Lexer.token_loop]. rewrite cur_at, next_at.
  rewrite (not_quote c Lexer.valid_single_tokens Hs eq_refl).
  assert (Hsl : Ascii.eqb c slash = false).
  { destruct (Ascii.eqb c slash) eqn:E; [|reflexivity].
    apply Ascii.eqb_eq in E. subst c. discriminate Hv. }
  rewrite Hsl, Hv, Hs. cbn [andb orb negb Lexer.pos]. rewrite Nat.eqb_refl.
  destruct (Lexer.skip_whitespace lex) as [d ln ps]. cbn [Lexer.data Lexer.pos Lexer.line] in *.
  subst d ps. unfold Lexer.finish, Lexer.advance. cbn [Lexer.data Lexer.pos Lexer.line].
  f_equal. do 2 f_equal.
  change (String c rest) with (String c "" ++ rest).
  rewrite <- (Nat.add_0_r (String.length pre)) at 1.
  change 1 with (String.length (String c "")).
  pose proof (slice_middle pre (String c "") rest) as H.
  rewrite Nat.add_0_r. exact H.
Qed.

Lemma parse_token_punctuation_witness :
  Lexer.parse_token (Lexer.mk "a{b" 1 1) = (Val (Some "{"), Lexer.mk "a{b" 1 2).
Proof.
  exact (parse_token_punctuation (Lexer.mk "a{b" 1 1) "a" "{" "b"
                                 eq_refl eq_refl eq_refl eq_refl).
Defined.

(** ** The lexer never goes back *)

Section Monotone.
Import Lexer.

Lemma ahead_refl (a : t) : ahead a a.
Proof. unfold ahead. auto. Qed.

Lemma ahead_trans (a b c : t) : ahead a b -> ahead b c -> ahead a c.
Proof. unfold ahead. intros (H1 & H2 & H3) (H4 & H5 & H6). repeat split; [congruence | lia | lia]. Qed.

Lemma ahead_advance (k : nat) (a : t) : ahead (advance k a) a.
Proof. unfold ahead, advance. cbn. repeat split; lia. Qed.

Lemma ahead_count_line (a : t) : ahead (count_line a) a.
Proof. unfold ahead, count_line. cbn. repeat split; lia. Qed.

Lemma skip_line_comment_ahead (n : nat) (lex : t) : ahead (skip_line_comment n lex) lex.
Proof.
  revert lex. induction n as [|n IH]; intros lex; cbn [skip_line_comment];
    [apply ahead_refl|].
  destruct (cur lex) as [c|]; [|apply ahead_refl].
  destruct (Ascii.eqb c newline); [apply ahead_refl|].
  eapply ahead_trans; [apply IH | apply ahead_advance].
Qed.

Lemma skip_block_comment_ahead (n : nat) (lex : t) : ahead (skip_block_comment n lex) lex.
Proof.
  revert lex. induction n as [|n IH]; intros lex; cbn [skip_block_comment];
    [apply ahead_refl|].
  destruct (cur lex) as [c|]; [|apply ahead_refl].
  destruct (Ascii.eqb c star && char_is slash (next lex)); [apply ahead_advance|].
  eapply ahead_trans; [apply IH | apply ahead_advance].
Qed.

Lemma skip_whitespace_loop_ahead (n : nat) (lex : t) : ahead (skip_whitespace_loop n lex) lex.
Proof.
  revert lex. induction n as [|n IH]; intros lex; cbn [skip_whitespace_loop];
    [apply ahead_refl|].
  destruct (cur lex) as [c|]; [|apply ahead_refl].
  destruct (Ascii.eqb c newline).
  { eapply ahead_trans; [apply IH|].
    eapply ahead_trans; [apply ahead_advance | apply ahead_count_line]. }
  destruct (nat_of_ascii c <=? nat_of_ascii " ").
  { eapply ahead_trans; [apply IH | apply ahead_advance]. }
  destruct (Ascii.eqb c slash && char_is slash (next lex)).
  { eapply ahead_trans; [apply IH | apply skip_line_comment_ahead]. }
  destruct (Ascii.eqb c slash && char_is star (next lex)); [|apply ahead_refl].
  eapply ahead_trans; [apply IH | apply skip_block_comment_ahead].
Qed.

Lemma quoted_loop_ahead (n start : nat) (lex : t) : ahead (snd (quoted_loop n start lex)) lex.
Proof.
  revert lex. induction n as [|n IH]; intros lex; cbn [quoted_loop];
    [apply ahead_refl|].
  destruct (cur lex) as [c|]; [|apply ahead_refl]. cbn zeta.
  destruct (Ascii.eqb c quote); [apply ahead_advance|].
  eapply ahead_trans; [apply IH | apply ahead_advance].
Qed.

Lemma token_loop_ahead (n start : nat) (lex : t) : ahead (snd (token_loop n start lex)) lex.
Proof.
  revert lex. induction n as [|n IH]; intros lex; cbn [token_loop];
    [apply ahead_refl|].
  destruct (cur lex) as [c|]; [|apply ahead_refl].
  destruct (Ascii.eqb c quote).
  { destruct (negb (start =? pos lex)); [apply ahead_refl|].
    eapply ahead_trans; [apply quoted_loop_ahead | apply ahead_advance]. }
  destruct (_ || _); [apply ahead_refl|].
  destruct (negb (char_in c valid_token_chars)).
  { destruct (char_in c valid_single_tokens); [|apply ahead_refl].
    destruct (pos lex =? start); [apply ahead_advance | apply ahead_refl]. }
  eapply ahead_trans; [apply IH | apply ahead_advance].
Qed.

Lemma skip_whitespace_at_end (lex : t) : cur lex = None -> skip_whitespace lex = lex.
Proof.
  intros H. unfold skip_whitespace.
  destruct (remaining lex); cbn [skip_whitespace_loop]; now rewrite ?H.
Qed.

Lemma eof_cur (lex : t) : eof lex = true <-> cur lex = None.
Proof.
  unfold eof. rewrite Nat.leb_le. unfold cur. now rewrite get_none.
Qed.

Lemma quoted_loop_some (n start : nat) (lex : t) :
  fst (quoted_loop n start lex) <> Val None.
Proof.
  revert lex. induction n as [|n IH]; intros lex; cbn [quoted_loop]; [discriminate|].
  destruct (cur lex) as [c|]; [|discriminate]. cbn zeta.
  destruct (Ascii.eqb c quote); [discriminate | apply IH].
Qed.

Lemma token_loop_some (n start : nat) (lex : t) :
  fst (token_loop n start lex) <> Val None.
Proof.
  revert lex. induction n as [|n IH]; intros lex; cbn [token_loop]; [discriminate|].
  destruct (cur lex) as [c|]; [|discriminate].
  destruct (Ascii.eqb c quote).
  { destruct (negb (start =? pos lex)); [discriminate | apply quoted_loop_some]. }
  destruct (_ || _); [discriminate|].
  destruct (negb (char_in c valid_token_chars)); [|apply IH].
  destruct (char_in c valid_single_tokens); [|discriminate].
  destruct (pos lex =? start); discriminate.
Qed.

(** [None] comes from the end of the input only. *)
Lemma parse_token_none (lex lex' : t) :
  parse_token lex = (Val None, lex') ->
  lex' = skip_whitespace lex /\ eof lex' = true.
Proof.
  unfold parse_token. cbn zeta. intros H.
  destruct (eof (skip_whitespace lex)) eqn:E.
  - injection H as <-. now split.
  - exfalso. eapply token_loop_some. now rewrite H.
Qed.

End Monotone.

(** X3.  [parse_token] leaves the text as it is and never moves back: the
    position and the line count it leaves are at least the ones it found,
    whether it returns a token, returns [None] or raises.  [None] is
    returned at the end of the input only, and is then returned again by
    every later call, the lexer staying where it is. *)
Theorem parse_token_never_goes_back :
  forall (lex : Lexer.t),
    Lexer.data (snd (Lexer.parse_token lex)) = Lexer.data lex
    /\ Lexer.pos lex <= Lexer.pos (snd (Lexer.parse_token lex))
    /\ Lexer.line lex <= Lexer.line (snd (Lexer.parse_token lex))
    /\ (forall lex', Lexer.parse_token lex = (Val None, lex') ->
                     String.length (Lexer.data lex') <= Lexer.pos lex'
                     /\ Lexer.parse_token lex' = (Val None, lex')).
Proof.
  intros lex.
  assert (A : ahead (snd (Lexer.parse_token lex)) lex).
  { unfold Lexer.parse_token. cbn zeta.
    destruct (Lexer.eof (Lexer.skip_whitespace lex)).
    - apply skip_whitespace_loop_ahead.
    - eapply ahead_trans; [apply token_loop_ahead | apply skip_whitespace_loop_ahead]. }
  destruct A as (A1 & A2 & A3).
  split; [exact A1|]. split; [exact A2|]. split; [exact A3|].
  intros lex' H. apply parse_token_none in H as [-> E]. split.
  - unfold Lexer.eof in E. now apply Nat.leb_le in E.
  - unfold Lexer.parse_token. cbn zeta.
    rewrite (skip_whitespace_at_end _ (proj1 (eof_cur _) E)). now rewrite E.
Qed.

Lemma parse_token_never_goes_back_witness :
  String.length (Lexer.data (Lexer.mk "a // b" 1 1)) <= Lexer.pos (Lexer.mk "a // b" 1 6)
  /\ Lexer.parse_token (Lexer.mk "a // b" 1 6) = (Val None, Lexer.mk "a // b" 1 6).
Proof.
  exact (proj2 (proj2 (proj2 (parse_token_never_goes_back (Lexer.mk "a // b" 1 1))))
               (Lexer.mk "a // b" 1 6) eq_refl).
Defined.

(** ** Stray characters *)

Section Stray.
Import Lexer.

Lemma substring_zero (s : string) (n : nat) : substring n 0 s = "".
Proof.
  revert n. induction s as [|c s IH]; intros [|n]; cbn [substring]; try reflexivity.
  apply IH.
Qed.

Lemma stray_facts (c : ascii) :
  stray c = true ->
  (nat_of_ascii c <=? nat_of_ascii " ") = false
  /\ char_in c valid_token_chars = false
  /\ char_in c valid_single_tokens = false
  /\ Ascii.eqb c quote = false
  /\ Ascii.eqb c slash = false
  /\ Ascii.eqb c newline = false.
Proof.
  unfold stray. intros H.
  apply andb_true_iff in H as [H H4]. apply andb_true_iff in H as [H H3].
  apply andb_true_iff in H as [H1 H2]. apply negb_true_iff in H1, H2, H3, H4.
  repeat split; try assumption.
  - destruct (Ascii.eqb c slash) eqn:E; [|reflexivity].
    apply Ascii.eqb_eq in E. subst c. discriminate H2.
  - destruct (Ascii.eqb c newline) eqn:E; [|reflexivity].
    apply Ascii.eqb_eq in E. subst c. discriminate H1.
Qed.

(** At a stray character the token is empty and the lexer stays. *)
Lemma parse_token_stray (lex : t) (c : ascii) :
  cur lex = Some c -> stray c = true -> parse_token lex = (Val (Some ""), lex).
Proof.
  intros Hc Hs. destruct (stray_facts c Hs) as (H1 & H2 & H3 & H4 & H5 & H6).
  assert (Hw : skip_whitespace lex = lex).
  { unfold skip_whitespace. destruct (remaining lex); [reflexivity|].
    cbn [skip_whitespace_loop]. now rewrite Hc, H6, H1, H5. }
  unfold parse_token. cbn zeta. rewrite Hw.
  assert (He : eof lex = false).
  { destruct (eof lex) eqn:E; [|reflexivity]. apply eof_cur in E. congruence. }
  rewrite He.
  assert (Hr : remaining lex <> 0) by (rewrite <- cur_none; congruence).
  destruct (remaining lex) as [|n]; [congruence|].
  cbn [token_loop]. rewrite Hc, H4, H5, H2, H3. cbn [andb orb negb].
  unfold finish, slice. now rewrite Nat.sub_diag, substring_zero.
Qed.

Lemma skip_loop_stray (lex : t) (c : ascii) (opening closing : string) :
  cur lex = Some c -> stray c = true ->
  opening <> "" -> closing <> "" ->
  forall (fuel : nat) (n : Z), skip_loop fuel opening closing n lex = None.
Proof.
  intros Hc Hs Ho Hcl fuel. induction fuel as [|fuel IH]; intros n; [reflexivity|].
  cbn [skip_loop]. rewrite (parse_token_stray lex c Hc Hs). cbn [token_is].
  apply String.eqb_neq in Ho, Hcl. rewrite Ho, Hcl. apply IH.
Qed.

Lemma entity_body_loop_stray (none_as_string : res string) (lex : t) (c : ascii)
      (d : list Entities.EntityPropGroup) :
  cur lex = Some c -> stray c = true ->
  forall (fuel entity : nat) (depth : Z),
    Entities.body_loop none_as_string fuel entity depth (mkst lex d) = None.
Proof.
  intros Hc Hs fuel. induction fuel as [|fuel IH]; intros entity depth; [reflexivity|].
  cbn [Entities.body_loop]. unfold bind at 1. unfold Entities.body_step.
  unfold bind at 1. rewrite (on_lex_at _ _ _ _ _ (parse_token_stray lex c Hc Hs)).
  cbn [String.eqb]. unfold ret. apply IH.
Qed.

Lemma material_body_loop_stray (float_of_string : string -> res float)
      (none_as_string : res string) (lex : t) (c : ascii)
      (d : list Materials.MaterialDeclPropGroup) :
  cur lex = Some c -> stray c = true ->
  forall (fuel decl : nat) (v : Materials.locals),
    Materials.body_loop float_of_string none_as_string fuel decl v (mkst lex d) = None.
Proof.
  intros Hc Hs fuel. induction fuel as [|fuel IH]; intros decl v; [reflexivity|].
  cbn [Materials.body_loop]. unfold bind at 1. unfold Materials.body_step.
  unfold bind at 1. rewrite (on_lex_at _ _ _ _ _ (parse_token_stray lex c Hc Hs)).
  unfold Materials.braces. cbn [String.eqb]. unfold bind at 1. unfold ret at 1.
  destruct (Materials.in_stage v).
  - unfold Materials.stage_keys. cbn [lower String.eqb]. unfold bind, ret. apply IH.
  - unfold Materials.decl_keys. cbn [lower String.eqb]. unfold bind, ret. apply IH.
Qed.

End Stray.

(** X4.  A character that is neither blank, nor a token character, nor
    punctuation, nor a quote (a [#], say) where a token starts gives the
    empty token and leaves the lexer where it is, call after call.  So
    [expect_token] raises there, and the loops that only compare tokens
    never return: the section skip and the body scans of both parsers run
    out of every amount of fuel. *)
Theorem stray_character_hangs :
  forall (lex : Lexer.t) (c : ascii),
    Lexer.cur lex = Some c -> stray c = true ->
    Lexer.parse_token lex = (Val (Some ""), lex)
    /\ (forall token, token <> "" ->
          Lexer.expect_token token lex
          = (Exn (ExpectedToken token (Some "") (Lexer.line lex)), lex))
    /\ (forall opening closing fuel n, opening <> "" -> closing <> "" ->
          Lexer.skip_loop fuel opening closing n lex = None)
    /\ (forall none_as_string fuel entity depth d,
          Entities.body_loop none_as_string fuel entity depth (mkst lex d) = None)
    /\ (forall float_of_string none_as_string fuel decl v d,
          Materials.body_loop float_of_string none_as_string fuel decl v (mkst lex d)
          = None).
Proof.
  intros lex c Hc Hs. split; [now apply parse_token_stray with (c := c)|].
  split; [|split; [|split]].
  - intros token Hne. unfold Lexer.expect_token.
    rewrite (parse_token_stray lex c Hc Hs). cbn [Lexer.token_is].
    apply String.eqb_neq in Hne. now rewrite Hne.
  - intros. now apply skip_loop_stray with (c := c).
  - intros. now apply entity_body_loop_stray with (c := c).
  - intros. now apply material_body_loop_stray with (c := c).
Qed.

Lemma stray_character_hangs_witness :
  Lexer.parse_token (Lexer.mk "foo { # }" 1 6) = (Val (Some ""), Lexer.mk "foo { # }" 1 6)
  /\ Entities.body_loop (Exn TypeError) 1000 0 1
       (mkst (Lexer.mk "foo { # }" 1 6) [Entities.new_item]) = None.
Proof.
  pose proof (stray_character_hangs (Lexer.mk "foo { # }" 1 6) "#" eq_refl eq_refl)
    as (H1 & _ & _ & H4 & _).
  split; [exact H1 | apply H4].
Defined.

(** ** Blanks and the line count *)

Section Blanks.
Import Lexer.

Lemma skip_whitespace_loop_blanks (ws : string) :
  forall (p rest : string) (ln n : nat),
    blank ws = true ->
    match rest with
    | EmptyString => True
    | String c r => starts_token c r = true
    end ->
    String.length ws <= n ->
    skip_whitespace_loop n (mk (p ++ ws ++ rest) ln (String.length p))
    = mk (p ++ ws ++ rest) (ln + newlines ws) (String.length p + String.length ws).
Proof.
  induction ws as [|c ws IH]; intros p rest ln n Hb Hr Hn.
  - rewrite append_empty. cbn [newlines String.length]. rewrite !Nat.add_0_r.
    destruct n as [|n]; [reflexivity|]. cbn [skip_whitespace_loop].
    destruct rest as [|d r].
    + now rewrite append_empty_r, cur_at_end.
    + rewrite cur_at, next_at. unfold starts_token in Hr.
      apply andb_true_iff in Hr as [H1 H2]. apply negb_true_iff in H1, H2.
      assert (Hnl : Ascii.eqb d newline = false).
      { destruct (Ascii.eqb d newline) eqn:E; [|reflexivity].
        apply Ascii.eqb_eq in E. subst d. discriminate H1. }
      rewrite Hnl, H1.
      destruct (Ascii.eqb d slash); [|reflexivity]. cbn [andb] in *.
      apply orb_false_iff in H2 as [-> ->]. reflexivity.
  - destruct n as [|n]; [simpl in Hn; lia|].
    cbn [blank] in Hb. apply andb_true_iff in Hb as [Hc Hb].
    rewrite append_cons. cbn [skip_whitespace_loop]. rewrite cur_at.
    cbn [newlines String.length].
    destruct (Ascii.eqb c newline).
    + replace (advance 1 (count_line (mk (p ++ String c (ws ++ rest)) ln (String.length p))))
        with (mk ((p ++ String c "") ++ ws ++ rest) (ln + 1) (String.length (p ++ String c "")))
        by (unfold advance, count_line; cbn [data line pos];
            now rewrite append_snoc, length_snoc).
      rewrite IH; [| exact Hb | exact Hr | simpl in Hn; lia].
      rewrite append_snoc, length_snoc. f_equal; lia.
    + rewrite Hc, advance_at.
      rewrite IH; [| exact Hb | exact Hr | simpl in Hn; lia].
      rewrite append_snoc, length_snoc. f_equal; lia.
Qed.

Lemma skip_line_comment_line (n : nat) (lex : t) : line (skip_line_comment n lex) = line lex.
Proof.
  revert lex. induction n as [|n IH]; intros lex; cbn [skip_line_comment]; [reflexivity|].
  destruct (cur lex) as [c|]; [|reflexivity].
  destruct (Ascii.eqb c newline); [reflexivity|]. now rewrite IH.
Qed.

Lemma skip_block_comment_line (n : nat) (lex : t) : line (skip_block_comment n lex) = line lex.
Proof.
  revert lex. induction n as [|n IH]; intros lex; cbn [skip_block_comment]; [reflexivity|].
  destruct (cur lex) as [c|]; [|reflexivity].
  destruct (Ascii.eqb c star && char_is slash (next lex)); [reflexivity|]. now rewrite IH.
Qed.

Lemma quoted_loop_line (n start : nat) (lex : t) :
  line (snd (quoted_loop n start lex)) = line lex.
Proof.
  revert lex. induction n as [|n IH]; intros lex; cbn [quoted_loop]; [reflexivity|].
  destruct (cur lex) as [c|]; [|reflexivity]. cbn zeta.
  destruct (Ascii.eqb c quote); [reflexivity|]. now rewrite IH.
Qed.

Lemma token_loop_line (n start : nat) (lex : t) :
  line (snd (token_loop n start lex)) = line lex.
Proof.
  revert lex. induction n as [|n IH]; intros lex; cbn [token_loop]; [reflexivity|].
  destruct (cur lex) as [c|]; [|reflexivity].
  destruct (Ascii.eqb c quote).
  { destruct (negb (start =? pos lex)); [reflexivity|]. now rewrite quoted_loop_line. }
  destruct (_ || _); [reflexivity|].
  destruct (negb (char_in c valid_token_chars)); [|now rewrite IH].
  destruct (char_in c valid_single_tokens); [|reflexivity].
  destruct (pos lex =? start); reflexivity.
Qed.

End Blanks.

(** X5.  The line count follows the newlines of the blanks between tokens
    and nothing else: a run of blank characters before a token (or before
    the end of the input) is skipped whole and adds its newlines to the
    count; the comment loops and the token loops, quoted tokens included,
    leave the count as it is, whatever newlines they pass. *)
Theorem line_counts_blank_newlines :
  (forall (pre ws rest : string) (ln : nat),
      blank ws = true ->
      match rest with
      | EmptyString => True
      | String c r => starts_token c r = true
      end ->
      Lexer.skip_whitespace (Lexer.mk (pre ++ ws ++ rest) ln (String.length pre))
      = Lexer.mk (pre ++ ws ++ rest) (ln + newlines ws)
                 (String.length pre + String.length ws))
  /\ (forall n lex, Lexer.line (Lexer.skip_line_comment n lex) = Lexer.line lex)
  /\ (forall n lex, Lexer.line (Lexer.skip_block_comment n lex) = Lexer.line lex)
  /\ (forall lex, Lexer.line (snd (Lexer.parse_token lex))
                  = Lexer.line (Lexer.skip_whitespace lex)).
Proof.
  split; [|split; [|split]].
  - intros pre ws rest ln Hb Hr. unfold Lexer.skip_whitespace.
    apply skip_whitespace_loop_blanks; [exact Hb | exact Hr |].
    rewrite remaining_at, length_append. lia.
  - exact skip_line_comment_line.
  - exact skip_block_comment_line.
  - intros lex. unfold Lexer.parse_token. cbn zeta.
    destruct (Lexer.eof (Lexer.skip_whitespace lex)); [reflexivity|].
    apply token_loop_line.
Qed.

Lemma line_counts_blank_newlines_witness :
  Lexer.skip_whitespace
    (Lexer.mk ("a" ++ String newline (" " ++ String newline "b")) 1 1)
  = Lexer.mk ("a" ++ String newline (" " ++ String newline "b")) 3 4.
Proof.
  exact (proj1 line_counts_blank_newlines "a"
               (String newline (" " ++ String newline "")) "b" 1 eq_refl eq_refl).
Defined.

(** ** Balanced sections *)

Section Balanced.

Lemma skip_loop_balanced (opening closing : string) (lex lex' : Lexer.t)
      (ts : list string) :
  token_run lex ts lex' ->
  forall (n : Z) (fuel : nat),
    closes_at_end opening closing n ts = true ->
    length ts <= fuel ->
    Lexer.skip_loop fuel opening closing n lex = Some (Val tt, lex').
Proof.
  induction 1 as [lex | lex lex1 lex' t ts H Hts IH]; intros n fuel Hc Hf;
    [discriminate|].
  destruct fuel as [|fuel]; [simpl in Hf; lia|]. simpl in Hf.
  cbn [Lexer.skip_loop]. rewrite H. cbn [Lexer.token_is]. cbn [closes_at_end] in Hc.
  destruct (String.eqb opening t); [apply IH; [exact Hc | lia]|].
  destruct (String.eqb closing t); [|apply IH; [exact Hc | lia]].
  destruct (n - 1 =? 0)%Z.
  - destruct ts; [|discriminate]. now inversion Hts.
  - apply IH; [exact Hc | lia].
Qed.

End Balanced.

(** X6.  [skip_bracket_delimiter_section] on a balanced section: when the
    next token is the opening one and the tokens after it bring the count,
    started at 1, back to 0 at their last token and not before, the
    section is skipped with no error and the lexer is left right after
    that last token, whatever follows. *)
Theorem skip_section_balanced :
  forall (opening closing : string) (lex lex1 lex' : Lexer.t)
         (ts : list string) (fuel : nat),
    Lexer.parse_token lex = (Val (Some opening), lex1) ->
    token_run lex1 ts lex' ->
    closes_at_end opening closing 1 ts = true ->
    length ts <= fuel ->
    Lexer.skip_bracket_delimiter_section fuel opening closing lex = Some (Val tt, lex').
Proof.
  intros opening closing lex lex1 lex' ts fuel H Hts Hc Hf.
  unfold Lexer.skip_bracket_delimiter_section.
  rewrite (expect_token_run _ _ _ H). now apply skip_loop_balanced with (ts := ts).
Qed.

Lemma skip_section_balanced_witness :
  Lexer.skip_bracket_delimiter_section 6 "{" "}" (Lexer.init "{ { 1, 2 } } next")
  = Some (Val tt, Lexer.mk "{ { 1, 2 } } next" 1 12).
Proof.
  refine (skip_section_balanced "{" "}" (Lexer.init "{ { 1, 2 } } next")
            (Lexer.mk "{ { 1, 2 } } next" 1 1) _ ["{"; "1"; ","; "2"; "}"; "}"] 6
            eq_refl _ eq_refl _); [|cbn; lia].
  repeat (eapply run_cons; [vm_compute; reflexivity|]). apply run_nil.
Defined.

(** ** Tables under the parsers *)

Section Keeps.
Context {T : Type} (name : T -> string).

Lemma keeps_ret {A} (a : A) : keeps_names name (@ret T A a).
Proof. intros s r s' [= <- <-]. reflexivity. Qed.

Lemma keeps_raise {A} (e : exn) : keeps_names name (@raise T A e).
Proof. intros s r s' [= <- <-]. reflexivity. Qed.

Lemma keeps_of_res {A} (x : res A) : keeps_names name (@of_res T A x).
Proof. destruct x; [apply keeps_ret | apply keeps_raise]. Qed.

Lemma keeps_bind {A B} (m : M T A) (k : A -> M T B) :
  keeps_names name m -> (forall a, keeps_names name (k a)) -> keeps_names name (bind m k).
Proof.
  intros Hm Hk s r s' H. unfold bind in H.
  destruct (m s) as [[[a|e] s1]|] eqn:E; [| |discriminate].
  - rewrite (Hk a _ _ _ H). apply (Hm _ _ _ E).
  - injection H as <- <-. apply (Hm _ _ _ E).
Qed.

Lemma keeps_on_lex {A} (f : Lexer.t -> res A * Lexer.t) : keeps_names name (@on_lex T A f).
Proof.
  intros s r s' H. unfold on_lex in H. destruct (f (lex s)). now injection H as <- <-.
Qed.

Lemma keeps_on_lex_fuel {A} (f : Lexer.t -> option (res A * Lexer.t)) :
  keeps_names name (@on_lex_fuel T A f).
Proof.
  intros s r s' H. unfold on_lex_fuel in H.
  destruct (f (lex s)) as [[x l]|]; [|discriminate]. now injection H as <- <-.
Qed.

Lemma keeps_update (i : nat) (f : T -> T) :
  (forall x, name (f x) = name x) -> keeps_names name (update i f).
Proof.
  intros Hf s r s' [= <- <-]. cbn [decls].
  apply list_eq. intros j. rewrite !list_lookup_fmap.
  destruct (decide (i = j)) as [->|Hne].
  - rewrite list_lookup_alter_eq. destruct (decls s !! j); cbn; [now rewrite Hf | reflexivity].
  - now rewrite list_lookup_alter_ne.
Qed.

Lemma keeps_out_of_fuel {A} : keeps_names name (@out_of_fuel T A).
Proof. intros s r s' H. discriminate H. Qed.

End Keeps.

Section Frame.
Context {T : Type} (e : nat).

Lemma only_ret {A} (a : A) : writes_only_at e (@ret T A a).
Proof. intros s r s' i [= <- <-] _. reflexivity. Qed.

Lemma only_raise {A} (x : exn) : writes_only_at e (@raise T A x).
Proof. intros s r s' i [= <- <-] _. reflexivity. Qed.

Lemma only_of_res {A} (x : res A) : writes_only_at e (@of_res T A x).
Proof. destruct x; [apply only_ret | apply only_raise]. Qed.

Lemma only_out_of_fuel {A} : writes_only_at e (@out_of_fuel T A).
Proof. intros s r s' i H. discriminate H. Qed.

Lemma only_bind {A B} (m : M T A) (k : A -> M T B) :
  writes_only_at e m -> (forall a, writes_only_at e (k a)) -> writes_only_at e (bind m k).
Proof.
  intros Hm Hk s r s' i H Hi. unfold bind in H.
  destruct (m s) as [[[a|x] s1]|] eqn:E; [| |discriminate].
  - rewrite (Hk a _ _ _ i H Hi). apply (Hm _ _ _ i E Hi).
  - injection H as <- <-. apply (Hm _ _ _ i E Hi).
Qed.

Lemma only_on_lex {A} (f : Lexer.t -> res A * Lexer.t) : writes_only_at e (@on_lex T A f).
Proof.
  intros s r s' i H _. unfold on_lex in H. destruct (f (lex s)). now injection H as <- <-.
Qed.

Lemma only_on_lex_fuel {A} (f : Lexer.t -> option (res A * Lexer.t)) :
  writes_only_at e (@on_lex_fuel T A f).
Proof.
  intros s r s' i H _. unfold on_lex_fuel in H.
  destruct (f (lex s)) as [[x l]|]; [|discriminate]. now injection H as <- <-.
Qed.

Lemma only_update (f : T -> T) : writes_only_at e (update e f).
Proof.
  intros s r s' i [= <- <-] Hi. cbn [decls]. now rewrite list_lookup_alter_ne.
Qed.

Lemma alike_ret {A} (a : A) : alike_at e (@ret T A a).
Proof. intros s1 s2 Hl He. cbn. auto. Qed.

Lemma alike_raise {A} (x : exn) : alike_at e (@raise T A x).
Proof. intros s1 s2 Hl He. cbn. auto. Qed.

Lemma alike_of_res {A} (x : res A) : alike_at e (@of_res T A x).
Proof. destruct x; [apply alike_ret | apply alike_raise]. Qed.

Lemma alike_out_of_fuel {A} : alike_at e (@out_of_fuel T A).
Proof. intros s1 s2 Hl He. exact I. Qed.

Lemma alike_bind {A B} (m : M T A) (k : A -> M T B) :
  alike_at e m -> (forall a, alike_at e (k a)) -> alike_at e (bind m k).
Proof.
  intros Hm Hk s1 s2 Hl He. specialize (Hm s1 s2 Hl He). unfold bind.
  destruct (m s1) as [[[a1|e1] s1']|], (m s2) as [[[a2|e2] s2']|];
    try contradiction; try (destruct Hm; discriminate); try exact I.
  - destruct Hm as ([= ->] & Hl' & He'). now apply Hk.
  - destruct Hm as ([= ->] & Hl' & He'). auto.
Qed.

Lemma alike_on_lex {A} (f : Lexer.t -> res A * Lexer.t) : alike_at e (@on_lex T A f).
Proof.
  intros s1 s2 Hl He. unfold on_lex. rewrite Hl. destruct (f (lex s2)). cbn. auto.
Qed.

Lemma alike_on_lex_fuel {A} (f : Lexer.t -> option (res A * Lexer.t)) :
  alike_at e (@on_lex_fuel T A f).
Proof.
  intros s1 s2 Hl He. unfold on_lex_fuel. rewrite Hl.
  destruct (f (lex s2)) as [[x l]|]; cbn; auto.
Qed.

Lemma alike_update (f : T -> T) : alike_at e (update e f).
Proof.
  intros s1 s2 Hl He. cbn. rewrite !list_lookup_alter_eq, He. auto.
Qed.

End Frame.

(** ** The index of a name in a table *)

Section NameIndex.
Context {T : Type} (name : T -> string).

#[local] Abbreviation index_of n l := (fst <$> list_find (fun x : T => name x = n) l).

Lemma index_none (n : string) (l : list T) : index_of n l = None <-> n ∉ map name l.
Proof.
  rewrite fmap_None, list_find_None, Forall_forall. split.
  - intros H Hin. apply list_elem_of_fmap in Hin as (e & -> & He). now apply (H e).
  - intros H e He Hn. apply H. apply list_elem_of_fmap. exists e. now split.
Qed.

Lemma index_lookup (n : string) (l : list T) (i : nat) :
  index_of n l = Some i -> exists x, l !! i = Some x /\ name x = n.
Proof.
  intros H. apply fmap_Some in H as [[j x] [H ->]].
  apply list_find_Some in H as (Hl & Hn & _). now exists x.
Qed.

Lemma index_cons (n : string) (x : T) (l : list T) :
  index_of n (x :: l) = if decide (name x = n) then Some 0 else S <$> index_of n l.
Proof.
  cbn. destruct (decide (name x = n)); [reflexivity|].
  destruct (list_find _ l) as [[j e]|]; reflexivity.
Qed.

Lemma index_prefix (n : string) (l1 l2 : list T) (rest : list string) (i : nat) :
  map name l2 = (map name l1 ++ rest)%list -> index_of n l1 = Some i -> index_of n l2 = Some i.
Proof.
  revert l2 i. induction l1 as [|x l1 IH]; intros l2 i Hn H; [discriminate H|].
  destruct l2 as [|y l2]; [discriminate Hn|]. cbn [map app] in Hn. injection Hn as Hxy Hn.
  rewrite index_cons in *. rewrite Hxy. destruct (decide (name x = n)); [exact H|].
  destruct (index_of n l1) as [j|] eqn:E; [|discriminate H].
  now rewrite (IH l2 j Hn eq_refl).
Qed.

Lemma index_names (n : string) (l1 l2 : list T) :
  map name l1 = map name l2 -> index_of n l1 = index_of n l2.
Proof.
  intros H. destruct (index_of n l1) as [i|] eqn:E.
  - symmetry. apply (index_prefix n l1 l2 []); [now rewrite app_nil_r|exact E].
  - symmetry. apply index_none. rewrite <- H. now apply index_none.
Qed.

Lemma index_new (n : string) (l : list T) (x : T) :
  n ∉ map name l -> name x = n -> index_of n (l ++ [x]) = Some (length l).
Proof.
  intros Hn Hx. induction l as [|y l IH]; cbn [app length]; rewrite index_cons.
  - now destruct (decide (name x = n)).
  - destruct (decide (name y = n)) as [Hy|Hy].
    + exfalso. apply Hn. cbn. rewrite Hy. apply list_elem_of_here.
    + rewrite IH; [reflexivity|]. intros Hin. apply Hn. cbn. now apply list_elem_of_further.
Qed.

End NameIndex.

(** ** The entity table *)

Section EntityTableInvariants.
Import Entities.
Variable none_as_string : res string.

Lemma assign_keeps (entity : nat) (set : string -> EntityPropGroup -> EntityPropGroup)
      (value : option string) :
  (forall v x, name (set v x) = name x) ->
  keeps_names name (assign none_as_string entity set value).
Proof.
  intros Hs. unfold assign. destruct value as [v|].
  - now apply keeps_update.
  - apply keeps_bind; [apply keeps_of_res | intros v; now apply keeps_update].
Qed.

Lemma body_step_keeps (entity : nat) (depth : Z) :
  keeps_names name (body_step none_as_string entity depth).
Proof.
  unfold body_step. apply keeps_bind; [apply keeps_on_lex|]. intros [token|];
    [|apply keeps_ret].
  repeat match goal with
         | |- keeps_names _ (if ?b then _ else _) => destruct b
         | |- keeps_names _ (bind _ _) => apply keeps_bind; [|intros ?]
         | |- keeps_names _ (ret _) => apply keeps_ret
         | |- keeps_names _ (on_lex _) => apply keeps_on_lex
         | |- keeps_names _ (assign _ _ _ _) => apply assign_keeps; reflexivity
         end.
Qed.

Lemma body_loop_keeps (fuel entity : nat) (depth : Z) :
  keeps_names name (body_loop none_as_string fuel entity depth).
Proof.
  revert depth. induction fuel as [|fuel IH]; intros depth; cbn [body_loop];
    [apply keeps_out_of_fuel|].
  apply keeps_bind; [apply body_step_keeps|]. intros [n|]; [apply IH | apply keeps_ret].
Qed.

Lemma find_none (n : string) (l : list EntityPropGroup) :
  find n l = None <-> n ∉ map name l.
Proof. exact (index_none name n l). Qed.

Lemma find_some_lt (n : string) (l : list EntityPropGroup) (i : nat) :
  find n l = Some i -> i < length l /\ n ∈ map name l.
Proof.
  intros H. destruct (find_lookup n l i H) as (e & He & Hn). split.
  - now apply lookup_lt_Some in He.
  - apply list_elem_of_fmap. exists e. split; [now symmetry|].
    now apply list_elem_of_lookup_2 in He.
Qed.

Lemma names_alter (f : EntityPropGroup -> EntityPropGroup) (i : nat)
      (l : list EntityPropGroup) :
  (forall x, name (f x) = name x) -> map name (alter f i l) = map name l.
Proof.
  intros Hf. apply (keeps_update name i f Hf (mkst (Lexer.init "") l) (Val tt) _ eq_refl).
Qed.

(** What the lookup does to the table and to the counters. *)
Lemma lookup_or_add_spec (n : option string) (created updated : nat)
      (s : pstate EntityPropGroup) r s' :
  lookup_or_add n created updated s = Some (r, s') ->
  lex s' = lex s
  /\ match n, r with
     | Some n, Val (entity, created', updated') =>
         entity < length (decls s') /\ (n ∈ map name (decls s'))
         /\ (((n ∈ map name (decls s)) /\ map name (decls s') = map name (decls s)
              /\ created' = created /\ updated' = updated + 1)
             \/ ((n ∉ map name (decls s))
                 /\ map name (decls s') = (map name (decls s) ++ [n])%list
                 /\ created' = created + 1 /\ updated' = updated))
     | None, Exn e => e = TypeError /\ decls s' = decls s
     | _, _ => False
     end.
Proof.
  unfold lookup_or_add. destruct n as [n|]; [|intros [= <- <-]; auto].
  cbv [bind table ret update add]. cbn [lex decls].
  destruct (find n (decls s)) as [entity|] eqn:E; intros [= <- <-]; cbn [lex decls];
    (split; [reflexivity|]).
  - destruct (find_some_lt _ _ _ E) as [Hlt Hin].
    rewrite !length_alter. rewrite !names_alter by reflexivity.
    split; [exact Hlt|]. split; [exact Hin|]. left. auto.
  - apply find_none in E. rewrite !length_alter, length_app. cbn [length].
    rewrite !names_alter by reflexivity.
    assert (Hn : map name (alter (set_name n) (length (decls s)) (decls s ++ [new_item])%list)
                 = (map name (decls s) ++ [n])%list).
    { replace (length (decls s)) with (length (decls s) + 0) at 1 by lia.
      rewrite alter_app_r. cbn. now rewrite map_app. }
    rewrite Hn. split; [lia|]. split; [apply elem_of_app; right; apply list_elem_of_here|].
    right. auto.
Qed.


Lemma find_cons (n : string) (x : EntityPropGroup) (l : list EntityPropGroup) :
  find n (x :: l) = if decide (name x = n) then Some 0 else S <$> find n l.
Proof. exact (index_cons name n x l). Qed.

Lemma find_prefix (n : string) (l1 l2 : list EntityPropGroup) (rest : list string) (i : nat) :
  map name l2 = (map name l1 ++ rest)%list -> find n l1 = Some i -> find n l2 = Some i.
Proof. exact (index_prefix name n l1 l2 rest i). Qed.

Lemma find_names (n : string) (l1 l2 : list EntityPropGroup) :
  map name l1 = map name l2 -> find n l1 = find n l2.
Proof. exact (index_names name n l1 l2). Qed.

Lemma find_new (n : string) (l : list EntityPropGroup) (x : EntityPropGroup) :
  n ∉ map name l -> name x = n -> find n (l ++ [x]) = Some (length l).
Proof. exact (index_new name n l x). Qed.

(** The lookup, in full: the index it returns is where the name is found
    afterwards, the item there is the fresh one of that name, and no other
    item changes. *)
Lemma lookup_or_add_item (n : string) (created updated : nat)
      (s : pstate EntityPropGroup) r s' :
  lookup_or_add (Some n) created updated s = Some (r, s') ->
  exists entity created' updated',
    r = Val (entity, created', updated')
    /\ find n (decls s') = Some entity
    /\ decls s' !! entity = Some (mk n "0 0 1" "" "" "")
    /\ (forall i, i <> entity -> decls s' !! i = decls s !! i).
Proof.
  unfold lookup_or_add. cbv [bind table ret update add]. cbn [lex decls].
  destruct (find n (decls s)) as [entity|] eqn:E; intros [= <- <-]; cbn [lex decls];
    rewrite alter_reset.
  - exists entity, created, (updated + 1). split; [reflexivity|].
    destruct (find_lookup _ _ _ E) as (e & He & Hn).
    split; [|split].
    + rewrite <- E. apply find_names, names_alter. reflexivity.
    + rewrite list_lookup_alter_eq, He. cbn. destruct e; cbn in *. now subst.
    + intros i Hi. now rewrite list_lookup_alter_ne.
  - apply find_none in E.
    exists (length (decls s)), (created + 1), updated. split; [reflexivity|].
    assert (Ha : alter (set_name n) (length (decls s)) (decls s ++ [new_item])%list
                 = (decls s ++ [set_name n new_item])%list).
    { replace (length (decls s)) with (length (decls s) + 0) at 1 by lia.
      now rewrite alter_app_r. }
    rewrite Ha. split; [|split].
    + rewrite (find_names n _ (decls s ++ [set_name n new_item])%list)
        by (apply names_alter; reflexivity).
      now apply find_new.
    + rewrite list_lookup_alter_eq, lookup_app_r by lia.
      now replace (length (decls s) - length (decls s)) with 0 by lia.
    + intros i Hi. rewrite list_lookup_alter_ne by auto.
      destruct (decide (i < length (decls s))) as [Hlt|Hge].
      * now rewrite lookup_app_l.
      * rewrite !lookup_ge_None_2; [reflexivity|lia|rewrite length_app; cbn; lia].
Qed.

Lemma assign_only (entity : nat) (set : string -> EntityPropGroup -> EntityPropGroup)
      (value : option string) :
  writes_only_at entity (assign none_as_string entity set value).
Proof.
  unfold assign. destruct value as [v|]; [apply only_update|].
  apply only_bind; [apply only_of_res | intros v; apply only_update].
Qed.

Lemma assign_alike (entity : nat) (set : string -> EntityPropGroup -> EntityPropGroup)
      (value : option string) :
  alike_at entity (assign none_as_string entity set value).
Proof.
  unfold assign. destruct value as [v|]; [apply alike_update|].
  apply alike_bind; [apply alike_of_res | intros v; apply alike_update].
Qed.

Lemma body_step_only (entity : nat) (depth : Z) :
  writes_only_at entity (body_step none_as_string entity depth).
Proof.
  unfold body_step. apply only_bind; [apply only_on_lex|]. intros [token|];
    [|apply only_ret].
  repeat match goal with
         | |- writes_only_at _ (if ?b then _ else _) => destruct b
         | |- writes_only_at _ (bind _ _) => apply only_bind; [|intros ?]
         | |- writes_only_at _ (ret _) => apply only_ret
         | |- writes_only_at _ (on_lex _) => apply only_on_lex
         | |- writes_only_at _ (assign _ _ _ _) => apply assign_only
         end.
Qed.

Lemma body_loop_only (fuel entity : nat) (depth : Z) :
  writes_only_at entity (body_loop none_as_string fuel entity depth).
Proof.
  revert depth. induction fuel as [|fuel IH]; intros depth; cbn [body_loop];
    [apply only_out_of_fuel|].
  apply only_bind; [apply body_step_only|]. intros [n|]; [apply IH | apply only_ret].
Qed.

Lemma body_step_alike (entity : nat) (depth : Z) :
  alike_at entity (body_step none_as_string entity depth).
Proof.
  unfold body_step. apply alike_bind; [apply alike_on_lex|]. intros [token|];
    [|apply alike_ret].
  repeat match goal with
         | |- alike_at _ (if ?b then _ else _) => destruct b
         | |- alike_at _ (bind _ _) => apply alike_bind; [|intros ?]
         | |- alike_at _ (ret _) => apply alike_ret
         | |- alike_at _ (on_lex _) => apply alike_on_lex
         | |- alike_at _ (assign _ _ _ _) => apply assign_alike
         end.
Qed.

Lemma body_loop_alike (fuel entity : nat) (depth : Z) :
  alike_at entity (body_loop none_as_string fuel entity depth).
Proof.
  revert depth. induction fuel as [|fuel IH]; intros depth; cbn [body_loop];
    [apply alike_out_of_fuel|].
  apply alike_bind; [apply body_step_alike|]. intros [n|]; [apply IH | apply alike_ret].
Qed.

Lemma bind_inv {T A B} (m : M T A) (k : A -> M T B) (s : pstate T) r s' :
  bind m k s = Some (r, s') ->
  (exists a s1, m s = Some (Val a, s1) /\ k a s1 = Some (r, s'))
  \/ (exists e, m s = Some (Exn e, s') /\ r = Exn e).
Proof.
  unfold bind. destruct (m s) as [[[a|e] s1]|]; [| |discriminate].
  - intros H. left. now exists a, s1.
  - intros [= <- <-]. right. now exists e.
Qed.

(** The table after the outer loop is the table before it with the new
    names at its end. *)
Lemma file_loop_grows (fuel : nat) :
  forall created updated (s : pstate EntityPropGroup) r s',
    file_loop none_as_string fuel created updated s = Some (r, s') ->
    exists added,
      map name (decls s') = (map name (decls s) ++ added)%list
      /\ NoDup added
      /\ (forall n, n ∈ added -> n ∉ map name (decls s))
      /\ match r with
         | Val (created', _) => created' = created + length added
         | Exn _ => True
         end.
Proof.
  assert (Hsame : forall created (s : pstate EntityPropGroup) (r : res (nat * nat)) s',
             map name (decls s') = map name (decls s) ->
             match r with Val (c, _) => c = created | Exn _ => True end ->
             exists added,
               map name (decls s') = (map name (decls s) ++ added)%list
               /\ NoDup added
               /\ (forall n, n ∈ added -> n ∉ map name (decls s))
               /\ match r with
                  | Val (created', _) => created' = created + length added
                  | Exn _ => True
                  end).
  { intros c s r s' Hn Hr. exists []. rewrite app_nil_r. split; [exact Hn|].
    split; [constructor|]. split; [intros n Hin; inversion Hin|].
    destruct r as [[c' u']|]; [cbn; lia|exact I]. }
  assert (Hexn : forall (s : pstate EntityPropGroup) s',
             map name (decls s') = map name (decls s) ->
             exists added,
               map name (decls s') = (map name (decls s) ++ added)%list
               /\ NoDup added
               /\ (forall n, n ∈ added -> n ∉ map name (decls s))
               /\ True).
  { intros s s' Hn. apply (Hsame 0 s (Exn ValueError) s' Hn I). }
  induction fuel as [|fuel IH]; intros created updated s r s' H; [discriminate H|].
  cbn [file_loop] in H.
  apply bind_inv in H as [(token & s1 & H1 & H)|(e & H1 & ->)];
    [|apply Hexn; apply (keeps_on_lex name _ _ _ _ H1)].
  pose proof (keeps_on_lex name _ _ _ _ H1) as K1.
  destruct token as [token|];
    [|injection H as <- <-; apply (Hsame created s (Val (created, updated)) s1 K1 eq_refl)].
  destruct (negb (token =? "entityDef")%string).
  - apply bind_inv in H as [(t2 & s2 & H2 & H)|(e & H2 & ->)];
      [|apply Hexn; rewrite <- K1; apply (keeps_on_lex name _ _ _ _ H2)].
    pose proof (keeps_on_lex name _ _ _ _ H2) as K2.
    apply bind_inv in H as [(t3 & s3 & H3 & H)|(e & H3 & ->)];
      [|apply Hexn; rewrite <- K1, <- K2; apply (keeps_on_lex_fuel name _ _ _ _ H3)].
    pose proof (keeps_on_lex_fuel name _ _ _ _ H3) as K3.
    destruct (IH _ _ _ _ _ H) as (added & Ha & Hd & Hf & Hc).
    exists added. rewrite Ha, K3, K2, K1. repeat split; auto.
    intros n Hin. rewrite <- K1, <- K2, <- K3. now apply Hf.
  - apply bind_inv in H as [(n & s2 & H2 & H)|(e & H2 & ->)];
      [|apply Hexn; rewrite <- K1; apply (keeps_on_lex name _ _ _ _ H2)].
    pose proof (keeps_on_lex name _ _ _ _ H2) as K2.
    apply bind_inv in H as [([[entity c3] u3] & s3 & H3 & H)|(e & H3 & ->)].
    2:{ apply lookup_or_add_spec in H3 as [_ H3]. destruct n as [n|]; [contradiction|].
        apply Hexn. destruct H3 as [_ ->]. now rewrite K2. }
    apply lookup_or_add_spec in H3 as [_ H3]. destruct n as [n|]; [|contradiction].
    destruct H3 as (_ & _ & H3).
    assert (Hrest : exists added,
               map name (decls s') = (map name (decls s3) ++ added)%list
               /\ NoDup added
               /\ (forall n, n ∈ added -> n ∉ map name (decls s3))
               /\ match r with
                  | Val (created', _) => created' = c3 + length added
                  | Exn _ => True
                  end).
    { apply bind_inv in H as [(t4 & s4 & H4 & H)|(e & H4 & ->)];
        [|apply Hexn; apply (keeps_on_lex name _ _ _ _ H4)].
      pose proof (keeps_on_lex name _ _ _ _ H4) as K4.
      apply bind_inv in H as [(t5 & s5 & H5 & H)|(e & H5 & ->)];
        [|apply Hexn; rewrite <- K4; apply (body_loop_keeps _ _ _ _ _ _ H5)].
      pose proof (body_loop_keeps _ _ _ _ _ _ H5) as K5.
      destruct (IH _ _ _ _ _ H) as (added & Ha & Hd & Hf & Hc).
      exists added. rewrite Ha, K5, K4. repeat split; auto.
      intros x Hin. rewrite <- K4, <- K5. now apply Hf. }
    destruct Hrest as (added & Ha & Hd & Hf & Hc).
    destruct H3 as [(Hin & Hn & -> & ->)|(Hnin & Hn & -> & ->)].
    + exists added. rewrite Ha, Hn, K2, K1. repeat split; auto.
      intros x Hx. rewrite <- K1, <- K2, <- Hn. now apply Hf.
    + exists (n :: added). rewrite Ha, Hn, K2, K1, <- app_assoc. cbn [app].
      split; [reflexivity|]. split; [|split].
      * apply NoDup_cons. split; [|exact Hd]. intros Hx. apply (Hf n Hx).
        rewrite Hn. apply elem_of_app. right. apply list_elem_of_here.
      * intros x Hx. apply elem_of_cons in Hx as [->|Hx].
        -- now rewrite <- K1, <- K2.
        -- intros Hx'. apply (Hf x Hx). rewrite Hn, K2, K1. apply elem_of_app. now left.
      * destruct r as [[c' u']|]; [cbn [length]; lia|exact I].
Qed.

Lemma bind_val_inv {T A B} (m : M T A) (k : A -> M T B) (s : pstate T) (b : B) s' :
  bind m k s = Some (Val b, s') ->
  exists a s1, m s = Some (Val a, s1) /\ k a s1 = Some (Val b, s').
Proof.
  intros H. apply bind_inv in H as [H|(e & _ & H)]; [exact H|discriminate H].
Qed.

Lemma on_lex_transfer {T A} (f : Lexer.t -> res A * Lexer.t) (s1 s2 : pstate T) r s1' :
  on_lex f s1 = Some (r, s1') ->
  lex s2 = lex s1 ->
  exists s2', on_lex f s2 = Some (r, s2')
              /\ lex s2' = lex s1' /\ decls s2' = decls s2 /\ decls s1' = decls s1.
Proof.
  unfold on_lex. intros H ->. destruct (f (lex s1)) as [r' l]. injection H as <- <-.
  eexists. split; [reflexivity|]. auto.
Qed.

Lemma on_lex_fuel_transfer {T A} (f : Lexer.t -> option (res A * Lexer.t))
      (s1 s2 : pstate T) r s1' :
  on_lex_fuel f s1 = Some (r, s1') ->
  lex s2 = lex s1 ->
  exists s2', on_lex_fuel f s2 = Some (r, s2')
              /\ lex s2' = lex s1' /\ decls s2' = decls s2 /\ decls s1' = decls s1.
Proof.
  unfold on_lex_fuel. intros H ->. destruct (f (lex s1)) as [[r' l]|]; [|discriminate H].
  injection H as <- <-. eexists. split; [reflexivity|]. auto.
Qed.

(** The outer loop run again, on a table that already has every name the
    first run left: nothing is created, every declaration counts as an
    update, and the items the run writes come out as in the first run. *)
Lemma file_loop_again (fuel : nat) :
  forall c1 u1 c2 u2 (s1 s2 : pstate EntityPropGroup) c1' u1' s1',
    file_loop none_as_string fuel c1 u1 s1 = Some (Val (c1', u1'), s1') ->
    lex s2 = lex s1 ->
    map name (decls s2) = map name (decls s1') ->
    exists u2' s2' (D : list nat),
      file_loop none_as_string fuel c2 u2 s2 = Some (Val (c2, u2'), s2')
      /\ u2' + c1 + u1 = u2 + c1' + u1'
      /\ (forall i, i ∈ D -> decls s2' !! i = decls s1' !! i)
      /\ (forall i, i ∉ D -> decls s2' !! i = decls s2 !! i)
      /\ (forall i, i ∉ D -> decls s1' !! i = decls s1 !! i).
Proof.
  induction fuel as [|fuel IH]; intros c1 u1 c2 u2 s1 s2 c1' u1' s1' H Hl Hn;
    [discriminate H|].
  cbn [file_loop] in *.
  apply bind_val_inv in H as (token & s1a & H1 & H).
  destruct (on_lex_transfer _ _ s2 _ _ H1 Hl) as (s2a & R1 & Hla & Hda & Hda1).
  rewrite (bind_val _ _ _ _ _ R1).
  destruct token as [token|].
  2:{ injection H as <- <- <-. exists u2, s2a, []. split; [reflexivity|].
      split; [lia|]. split; [intros i Hi; inversion Hi|]. rewrite Hda, Hda1. auto. }
  destruct (negb (token =? "entityDef")%string).
  - apply bind_val_inv in H as (t2 & s1b & H2 & H).
    destruct (on_lex_transfer _ _ s2a _ _ H2 Hla) as (s2b & R2 & Hlb & Hdb & Hdb1).
    rewrite (bind_val _ _ _ _ _ R2).
    apply bind_val_inv in H as (t3 & s1c & H3 & H).
    destruct (on_lex_fuel_transfer _ _ s2b _ _ H3 Hlb) as (s2c & R3 & Hlc & Hdc & Hdc1).
    rewrite (bind_val _ _ _ _ _ R3).
    destruct (IH _ _ c2 u2 _ s2c _ _ _ H Hlc) as (u2' & s2' & D & R & Hu & Ha & Hb & Hc).
    { now rewrite Hdc, Hdb, Hda. }
    exists u2', s2', D. split; [exact R|]. split; [exact Hu|]. split; [exact Ha|].
    split; intros i Hi.
    + rewrite (Hb i Hi). now rewrite Hdc, Hdb, Hda.
    + rewrite (Hc i Hi). now rewrite Hdc1, Hdb1, Hda1.
  - apply bind_val_inv in H as (n & s1b & H2 & H).
    destruct (on_lex_transfer _ _ s2a _ _ H2 Hla) as (s2b & R2 & Hlb & Hdb & Hdb1).
    rewrite (bind_val _ _ _ _ _ R2).
    apply bind_val_inv in H as ([[entity c3] u3] & s1c & H3 & H).
    pose proof (lookup_or_add_spec _ _ _ _ _ _ H3) as [Hlc1 S3].
    destruct n as [n|]; [|contradiction].
    destruct S3 as (_ & _ & S3).
    assert (Hcount : c3 + u3 = c1 + u1 + 1) by (destruct S3 as [S3|S3]; lia).
    clear S3.
    destruct (lookup_or_add_item _ _ _ _ _ _ H3)
      as (e & c3' & u3' & [= <- <- <-] & Hfind & Hitem & Hframe).
    apply bind_val_inv in H as (t4 & s1d & H4 & H).
    pose proof (keeps_on_lex name _ _ _ _ H4) as K4.
    apply bind_val_inv in H as ([] & s1e & H5 & H).
    pose proof (body_loop_keeps _ _ _ _ _ _ H5) as K5.
    destruct (file_loop_grows _ _ _ _ _ _ H) as (added & Hadded & _).
    (* the second run finds the name at the same index *)
    assert (Hfind2 : find n (decls s2b) = Some entity).
    { apply (find_prefix n (decls s1c) _ added); [|exact Hfind].
      now rewrite Hdb, Hda, Hn, Hadded, K5, K4. }
    rewrite (bind_val _ _ _ _ _ (lookup_or_add_found n c2 u2 entity s2b Hfind2)).
    set (s2c := mkst (lex s2b) (alter reset entity (decls s2b))).
    assert (Hitem2 : decls s2c !! entity = decls s1c !! entity).
    { unfold s2c. cbn [decls]. rewrite list_lookup_alter_eq, Hitem.
      destruct (find_lookup _ _ _ Hfind2) as (x & -> & <-). reflexivity. }
    assert (Hlc : lex s2c = lex s1c) by (unfold s2c; cbn [lex]; congruence).
    destruct (on_lex_transfer _ _ s2c _ _ H4 Hlc) as (s2d & R4 & Hld & Hdd & Hdd1).
    rewrite (bind_val _ _ _ _ _ R4).
    pose proof (body_loop_alike fuel entity 1 s1d s2d) as B.
    rewrite H5 in B.
    destruct (body_loop none_as_string fuel entity 1 s2d) as [[r5 s2e]|] eqn:R5;
      [|exfalso; apply B; [now symmetry|now rewrite Hdd, Hdd1]].
    destruct B as (<- & Hle & Hie); [now symmetry|now rewrite Hdd, Hdd1|].
    rewrite (bind_val _ _ _ _ _ R5).
    destruct (IH _ _ c2 (u2 + 1) _ s2e _ _ _ H) as (u2' & s2' & D & R & Hu & Ha & Hb & Hc).
    { now symmetry. }
    { rewrite (body_loop_keeps _ _ _ _ _ _ R5), Hdd. unfold s2c. cbn [decls].
      rewrite names_alter by reflexivity. now rewrite Hdb, Hda. }
    exists u2', s2', (entity :: D). split; [exact R|]. split; [lia|].
    assert (Hframe1 : forall i, i <> entity -> decls s1e !! i = decls s1 !! i).
    { intros i Hi. rewrite (body_loop_only _ _ _ _ _ _ i H5 Hi), Hdd1.
      rewrite (Hframe i Hi). now rewrite Hdb1, Hda1. }
    assert (Hframe2 : forall i, i <> entity -> decls s2e !! i = decls s2 !! i).
    { intros i Hi. rewrite (body_loop_only _ _ _ _ _ _ i R5 Hi), Hdd.
      unfold s2c. cbn [decls]. rewrite list_lookup_alter_ne by auto.
      now rewrite Hdb, Hda. }
    split; [|split].
    + intros i Hi. destruct (decide (i ∈ D)) as [HD|HD]; [now apply Ha|].
      apply elem_of_cons in Hi as [->|Hi]; [|contradiction].
      now rewrite (Hb _ HD), (Hc _ HD).
    + intros i Hi. apply not_elem_of_cons in Hi as [Hi HD].
      rewrite (Hb _ HD). now apply Hframe2.
    + intros i Hi. apply not_elem_of_cons in Hi as [Hi HD].
      rewrite (Hc _ HD). now apply Hframe1.
Qed.

End EntityTableInvariants.

(** X7. [parse_def_file] only ever extends the entity table at its end:
    the names that were in the table keep their places, each new name is
    appended once and was not in the table before, and the first number
    returned is the number of names appended.  This holds as well when the
    parse ends in an exception: what was added before it stays. *)
Theorem parse_def_file_extends_table :
  forall (none_as_string : res string) (fuel : nat) (contents : string)
         (entities entities' : list Entities.EntityPropGroup) (r : res (nat * nat)),
    Entities.parse_def_file none_as_string fuel contents entities = Some (r, entities') ->
    exists added : list string,
      map Entities.name entities' = (map Entities.name entities ++ added)%list
      /\ NoDup added
      /\ (forall n, n ∈ added -> n ∉ map Entities.name entities)
      /\ match r with
         | Val (created, _) => created = length added
         | Exn _ => True
         end.
Proof.
  intros none_as_string fuel contents entities entities' r H.
  unfold Entities.parse_def_file in H.
  destruct (Entities.file_loop none_as_string fuel 0 0 (mkst (Lexer.init contents) entities))
    as [[r' s']|] eqn:E; [|discriminate H].
  injection H as <- <-.
  destruct (file_loop_grows _ _ _ _ _ _ _ E) as (added & Ha & Hd & Hf & Hc).
  exists added. cbn [decls] in *. repeat split; auto.
Qed.

(** Two new entities around one that is in the table, the first of them
    declared twice. *)
Lemma parse_def_file_extends_table_witness :
  Entities.parse_def_file (Exn TypeError) 12
    "entityDef a { } entityDef b { editor_usage x } entityDef c { } entityDef a { }"
    [Entities.mk "b" "1 1 1" "" "" ""]
  = Some (Val (2, 2), [Entities.mk "b" "0 0 1" "x" "" ""; Entities.mk "a" "0 0 1" "" "" "";
                       Entities.mk "c" "0 0 1" "" "" ""])
  /\ exists added : list string,
      map Entities.name [Entities.mk "b" "0 0 1" "x" "" ""; Entities.mk "a" "0 0 1" "" "" "";
                         Entities.mk "c" "0 0 1" "" "" ""]
      = (map Entities.name [Entities.mk "b" "1 1 1" "" "" ""] ++ added)%list
      /\ NoDup added
      /\ (forall n, n ∈ added -> n ∉ map Entities.name [Entities.mk "b" "1 1 1" "" "" ""])
      /\ 2 = length added.
Proof.
  split; [vm_compute; reflexivity|].
  apply (parse_def_file_extends_table (Exn TypeError) 12
           "entityDef a { } entityDef b { editor_usage x } entityDef c { } entityDef a { }"
           [Entities.mk "b" "1 1 1" "" "" ""] _ (Val (2, 2))).
  vm_compute. reflexivity.
Defined.

(** X8. Importing the same definition file a second time changes nothing
    and creates nothing: when [parse_def_file] returns [(created, updated)]
    and leaves the table [entities'], the same call on [entities'] returns
    [(0, created + updated)] and leaves [entities'] as it is. *)
Theorem parse_def_file_twice :
  forall (none_as_string : res string) (fuel : nat) (contents : string)
         (entities entities' : list Entities.EntityPropGroup) (created updated : nat),
    Entities.parse_def_file none_as_string fuel contents entities
    = Some (Val (created, updated), entities') ->
    Entities.parse_def_file none_as_string fuel contents entities'
    = Some (Val (0, created + updated), entities').
Proof.
  intros none_as_string fuel contents entities entities' created updated H.
  unfold Entities.parse_def_file in *.
  destruct (Entities.file_loop none_as_string fuel 0 0 (mkst (Lexer.init contents) entities))
    as [[r' s']|] eqn:E; [|discriminate H].
  injection H as -> <-.
  destruct (file_loop_again none_as_string fuel 0 0 0 0 _
              (mkst (Lexer.init contents) (decls s')) _ _ _ E eq_refl eq_refl)
    as (u2' & s2' & D & R & Hu & Ha & Hb & _).
  rewrite R. f_equal. f_equal; [do 2 f_equal; lia|].
  apply list_eq. intros i. destruct (decide (i ∈ D)) as [Hi|Hi].
  - now apply Ha.
  - now rewrite (Hb i Hi).
Qed.

(** The file of the example above, read into an empty table and read
    again. *)
Lemma parse_def_file_twice_witness :
  Entities.parse_def_file (Exn TypeError) 12
    "entityDef a { } entityDef b { editor_usage x } entityDef c { } entityDef a { }" []
  = Some (Val (3, 1), [Entities.mk "a" "0 0 1" "" "" ""; Entities.mk "b" "0 0 1" "x" "" "";
                       Entities.mk "c" "0 0 1" "" "" ""])
  /\ Entities.parse_def_file (Exn TypeError) 12
       "entityDef a { } entityDef b { editor_usage x } entityDef c { } entityDef a { }"
       [Entities.mk "a" "0 0 1" "" "" ""; Entities.mk "b" "0 0 1" "x" "" "";
        Entities.mk "c" "0 0 1" "" "" ""]
     = Some (Val (0, 3 + 1), [Entities.mk "a" "0 0 1" "" "" ""; Entities.mk "b" "0 0 1" "x" "" "";
                              Entities.mk "c" "0 0 1" "" "" ""]).
Proof.
  split; [vm_compute; reflexivity|].
  apply (parse_def_file_twice (Exn TypeError) 12
           "entityDef a { } entityDef b { editor_usage x } entityDef c { } entityDef a { }" []).
  vm_compute. reflexivity.
Defined.

(** ** Computations that act on one item *)

Section Acts.
Context {T : Type} (P : (T -> T) -> Prop) (e : nat).
Hypothesis P_id : P id.
Hypothesis P_compose : forall f g, P f -> P g -> P (f ∘ g).

Lemma acts_ret {A} (a : A) : acts_at P e (@ret T A a).
Proof.
  intros s r s' [= <- <-]. exists id. split; [exact P_id|]. intros s2 H.
  unfold ret. rewrite list_alter_id by reflexivity. rewrite <- H. now destruct s2.
Qed.

Lemma acts_raise {A} (x : exn) : acts_at P e (@raise T A x).
Proof.
  intros s r s' [= <- <-]. exists id. split; [exact P_id|]. intros s2 H.
  unfold raise. rewrite list_alter_id by reflexivity. rewrite <- H. now destruct s2.
Qed.

Lemma acts_of_res {A} (x : res A) : acts_at P e (@of_res T A x).
Proof. destruct x; [apply acts_ret | apply acts_raise]. Qed.

Lemma acts_out_of_fuel {A} : acts_at P e (@out_of_fuel T A).
Proof. intros s r s' H. discriminate H. Qed.

Lemma acts_on_lex {A} (f : Lexer.t -> res A * Lexer.t) : acts_at P e (@on_lex T A f).
Proof.
  intros s r s' H. exists id. split; [exact P_id|]. intros s2 H2.
  unfold on_lex in *. rewrite H2. destruct (f (lex s)) as [r' l]. injection H as <- <-.
  now rewrite list_alter_id by reflexivity.
Qed.

Lemma acts_on_lex_fuel {A} (f : Lexer.t -> option (res A * Lexer.t)) :
  acts_at P e (@on_lex_fuel T A f).
Proof.
  intros s r s' H. exists id. split; [exact P_id|]. intros s2 H2.
  unfold on_lex_fuel in *. rewrite H2. destruct (f (lex s)) as [[r' l]|]; [|discriminate H].
  injection H as <- <-. now rewrite list_alter_id by reflexivity.
Qed.

Lemma acts_update (f : T -> T) : P f -> acts_at P e (update e f).
Proof.
  intros Hf s r s' [= <- <-]. exists f. split; [exact Hf|]. intros s2 H2.
  unfold update. cbn [lex]. now rewrite H2.
Qed.

Lemma acts_bind {A B} (m : M T A) (k : A -> M T B) :
  acts_at P e m -> (forall a, acts_at P e (k a)) -> acts_at P e (bind m k).
Proof.
  intros Hm Hk s r s' H. unfold bind in H.
  destruct (m s) as [[[a|x] s1]|] eqn:E; [| |discriminate].
  - destruct (Hm _ _ _ E) as (w1 & P1 & R1).
    destruct (Hk a _ _ _ H) as (w2 & P2 & R2).
    exists (w2 ∘ w1). split; [now apply P_compose|]. intros s2 H2.
    unfold bind. rewrite (R1 s2 H2). rewrite (R2 (mkst (lex s1) _) eq_refl). cbn [lex decls].
    now rewrite list_alter_alter_eq.
  - injection H as <- <-. destruct (Hm _ _ _ E) as (w1 & P1 & R1).
    exists w1. split; [exact P1|]. intros s2 H2. unfold bind. now rewrite (R1 s2 H2).
Qed.

(** From the state [s] itself. *)
Lemma acts_here {A} (m : M T A) (s : pstate T) r s' :
  acts_at P e m -> m s = Some (r, s') ->
  exists w, P w /\ decls s' = alter w e (decls s)
            /\ forall s2, lex s2 = lex s ->
                          m s2 = Some (r, mkst (lex s') (alter w e (decls s2))).
Proof.
  intros Hm H. destruct (Hm _ _ _ H) as (w & Pw & R). exists w. split; [exact Pw|].
  split; [|exact R]. specialize (R s eq_refl). rewrite H in R. now injection R as ->.
Qed.

End Acts.

(** ** The material table *)

Section Settles.
Import Materials.

Lemma fixes_id {T V} (field : T -> V) : fixes field id.
Proof. left. reflexivity. Qed.

Lemma fixes_compose {T V} (field : T -> V) (f g : T -> T) :
  fixes field f -> fixes field g -> fixes field (f ∘ g).
Proof.
  intros [Hf|[v Hf]] Hg.
  - destruct Hg as [Hg|[v Hg]].
    + left. intros x. cbn. now rewrite Hf, Hg.
    + right. exists v. intros x. cbn. now rewrite Hf, Hg.
  - right. exists v. intros x. apply Hf.
Qed.

Lemma fixes_twice {T V} (field : T -> V) (w : T -> T) (x : T) :
  fixes field w -> field (w (w x)) = field (w x).
Proof. intros [H|[v H]]; [apply H | now rewrite !H]. Qed.

Lemma settles_id : settles id.
Proof. repeat split; apply fixes_id. Qed.

Lemma settles_compose (f g : MaterialDeclPropGroup -> MaterialDeclPropGroup) :
  settles f -> settles g -> settles (f ∘ g).
Proof.
  intros (F0 & F1 & F2 & F3 & F4 & F5 & F6) (G0 & G1 & G2 & G3 & G4 & G5 & G6).
  split; [intros x; cbn; now rewrite F0, G0|].
  repeat split; now apply fixes_compose.
Qed.

Lemma settles_twice (w : MaterialDeclPropGroup -> MaterialDeclPropGroup)
      (x : MaterialDeclPropGroup) :
  settles w -> w (w x) = w x.
Proof.
  intros (F0 & F1 & F2 & F3 & F4 & F5 & F6).
  pose proof (F0 (w x)) as E0.
  pose proof (fixes_twice _ w x F1) as E1. pose proof (fixes_twice _ w x F2) as E2.
  pose proof (fixes_twice _ w x F3) as E3. pose proof (fixes_twice _ w x F4) as E4.
  pose proof (fixes_twice _ w x F5) as E5. pose proof (fixes_twice _ w x F6) as E6.
  destruct (w (w x)), (w x). cbn in *. congruence.
Qed.

Lemma settles_string (set : string -> MaterialDeclPropGroup -> MaterialDeclPropGroup)
      (v : string) :
  set = set_diffuse_texture \/ set = set_editor_texture \/ set = set_normal_texture
  \/ set = set_specular_texture \/ set = set_texture ->
  settles (set v).
Proof.
  intros [-> | [-> | [-> | [-> | ->]]]];
    (split; [reflexivity|]);
    repeat split; first [left; reflexivity | right; exists v; reflexivity].
Qed.

Lemma settles_scale (v : float) : settles (set_heightmap_scale v).
Proof.
  split; [reflexivity|].
  repeat split; first [left; reflexivity | right; exists v; reflexivity].
Qed.

Lemma settles_names (w : MaterialDeclPropGroup -> MaterialDeclPropGroup) (e : nat)
      (l : list MaterialDeclPropGroup) :
  settles w -> map name (alter w e l) = map name l.
Proof.
  intros [H _]. apply (keeps_update name e w H (mkst (Lexer.init "") l) (Val tt) _ eq_refl).
Qed.

End Settles.

Section MaterialTable.
Import Materials.
Variable float_of_string : string -> res float.
Variable none_as_string : res string.

#[local] Abbreviation acts := (acts_at settles).

Ltac acts_step :=
  match goal with
  | |- acts_at _ _ (if ?b then _ else _) => destruct b
  | |- acts_at _ _ (bind _ _) => apply acts_bind; [exact settles_compose| |intros ?]
  | |- acts_at _ _ (ret _) => apply acts_ret; exact settles_id
  | |- acts_at _ _ (raise _) => apply acts_raise; exact settles_id
  | |- acts_at _ _ (of_res _) => apply acts_of_res; exact settles_id
  | |- acts_at _ _ (on_lex _) => apply acts_on_lex; exact settles_id
  | |- acts_at _ _ (update _ (set_heightmap_scale _)) => apply acts_update, settles_scale
  | |- acts_at _ _ (let (_, _) := ?p in _) => destruct p
  | |- acts_at _ _ (match ?p with (_, _) => _ end) => destruct p
  end.

Lemma assign_acts (decl : nat) (set : string -> MaterialDeclPropGroup -> MaterialDeclPropGroup)
      (value : option string) :
  set = set_diffuse_texture \/ set = set_editor_texture \/ set = set_normal_texture
  \/ set = set_specular_texture \/ set = set_texture ->
  acts decl (assign none_as_string decl set value).
Proof.
  intros Hs. unfold assign. destruct value as [v|].
  - apply acts_update. now apply settles_string.
  - repeat acts_step. apply acts_update. now apply settles_string.
Qed.

Ltac acts_assign := apply assign_acts; auto 6.

Lemma lower_of_acts (decl : nat) (t : option string) : acts decl (lower_of t).
Proof. unfold lower_of. destruct t; acts_step. Qed.

Lemma parse_heightmap_acts (decl : nat) : acts decl (parse_heightmap float_of_string).
Proof. unfold parse_heightmap. repeat acts_step. Qed.

Lemma close_stage_acts (decl : nat) (v : locals) :
  acts decl (close_stage none_as_string decl v).
Proof.
  unfold close_stage.
  repeat first [acts_step | acts_assign | apply lower_of_acts].
Qed.

Lemma braces_acts (decl : nat) (token : string) (v : locals) :
  acts decl (braces none_as_string decl token v).
Proof.
  unfold braces. repeat first [acts_step | apply close_stage_acts].
Qed.

Lemma stage_keys_acts (decl : nat) (token : string) (v : locals) :
  acts decl (stage_keys float_of_string token v).
Proof.
  unfold stage_keys.
  repeat first [acts_step | apply lower_of_acts | apply parse_heightmap_acts].
Qed.

Lemma decl_keys_acts (decl : nat) (token : string) :
  acts decl (decl_keys float_of_string none_as_string decl token).
Proof.
  unfold decl_keys.
  repeat first [acts_step | acts_assign | apply lower_of_acts | apply parse_heightmap_acts].
Qed.

Lemma body_step_acts (decl : nat) (v : locals) :
  acts decl (body_step float_of_string none_as_string decl v).
Proof.
  unfold body_step. acts_step; [acts_step|]. destruct a as [token|]; [|acts_step].
  acts_step; [apply braces_acts|]. destruct a as [v'|]; [|acts_step].
  repeat first [acts_step | apply stage_keys_acts | apply decl_keys_acts].
Qed.

Lemma body_loop_acts (fuel decl : nat) (v : locals) :
  acts decl (body_loop float_of_string none_as_string fuel decl v).
Proof.
  revert v. induction fuel as [|fuel IH]; intros v; cbn [body_loop];
    [apply acts_out_of_fuel|].
  acts_step; [apply body_step_acts|]. destruct a as [v'|]; [apply IH | acts_step].
Qed.

Lemma body_loop_keeps_names (fuel decl : nat) (v : locals) :
  keeps_names name (body_loop float_of_string none_as_string fuel decl v).
Proof.
  intros s r s' H.
  destruct (acts_here _ _ _ _ _ _ (body_loop_acts fuel decl v) H) as (w & Pw & -> & _).
  now apply settles_names.
Qed.

(** The lookup: where the name is afterwards, and what it did to the
    table and to the counters. *)
Lemma lookup_or_add_table (n : option string) (created updated : nat)
      (s : pstate MaterialDeclPropGroup) r s' :
  lookup_or_add n created updated s = Some (r, s') ->
  lex s' = lex s
  /\ match n, r with
     | Some n, Val (decl, created', updated') =>
         find n (decls s') = Some decl
         /\ (((n ∈ map name (decls s)) /\ decls s' = decls s
              /\ created' = created /\ updated' = updated + 1)
             \/ ((n ∉ map name (decls s))
                 /\ decls s' = (decls s ++ [set_name n new_item])%list
                 /\ created' = created + 1 /\ updated' = updated))
     | None, Exn e => e = TypeError /\ decls s' = decls s
     | _, _ => False
     end.
Proof.
  unfold lookup_or_add. destruct n as [n|]; [|intros [= <- <-]; auto].
  cbv [bind table ret update add]. cbn [lex decls].
  destruct (find n (decls s)) as [decl|] eqn:E; intros [= <- <-]; cbn [lex decls];
    (split; [reflexivity|]).
  - split; [exact E|]. left. repeat split; auto.
    destruct (index_lookup name _ _ _ E) as (x & Hx & <-).
    apply list_elem_of_fmap. exists x. split; [reflexivity|].
    now apply list_elem_of_lookup_2 in Hx.
  - apply (index_none name) in E.
    assert (Ha : alter (set_name n) (length (decls s)) (decls s ++ [new_item])%list
                 = (decls s ++ [set_name n new_item])%list).
    { replace (length (decls s)) with (length (decls s) + 0) at 1 by lia.
      now rewrite alter_app_r. }
    rewrite Ha. split; [now apply (index_new name)|]. right. auto.
Qed.

Lemma lookup_or_add_again (n : string) (created updated decl : nat)
      (s : pstate MaterialDeclPropGroup) :
  find n (decls s) = Some decl ->
  lookup_or_add (Some n) created updated s = Some (Val (decl, created, updated + 1), s).
Proof.
  intros H. unfold lookup_or_add. cbv [bind table ret]. now rewrite H.
Qed.

(** The table after the outer loop is the table before it with the new
    names at its end. *)
Lemma material_file_loop_grows (fuel : nat) :
  forall created updated (s : pstate MaterialDeclPropGroup) r s',
    file_loop float_of_string none_as_string fuel created updated s = Some (r, s') ->
    exists added,
      map name (decls s') = (map name (decls s) ++ added)%list
      /\ NoDup added
      /\ (forall n, n ∈ added -> n ∉ map name (decls s))
      /\ match r with
         | Val (created', _) => created' = created + length added
         | Exn _ => True
         end.
Proof.
  assert (Hsame : forall created (s : pstate MaterialDeclPropGroup) (r : res (nat * nat)) s',
             map name (decls s') = map name (decls s) ->
             match r with Val (c, _) => c = created | Exn _ => True end ->
             exists added,
               map name (decls s') = (map name (decls s) ++ added)%list
               /\ NoDup added
               /\ (forall n, n ∈ added -> n ∉ map name (decls s))
               /\ match r with
                  | Val (created', _) => created' = created + length added
                  | Exn _ => True
                  end).
  { intros c s r s' Hn Hr. exists []. rewrite app_nil_r. split; [exact Hn|].
    split; [constructor|]. split; [intros n Hin; inversion Hin|].
    destruct r as [[c' u']|]; [cbn; lia|exact I]. }
  assert (Hexn : forall (s : pstate MaterialDeclPropGroup) s',
             map name (decls s') = map name (decls s) ->
             exists added,
               map name (decls s') = (map name (decls s) ++ added)%list
               /\ NoDup added
               /\ (forall n, n ∈ added -> n ∉ map name (decls s))
               /\ True).
  { intros s s' Hn. apply (Hsame 0 s (Exn ValueError) s' Hn I). }
  induction fuel as [|fuel IH]; intros created updated s r s' H; [discriminate H|].
  cbn [file_loop] in H.
  apply bind_inv in H as [(token & s1 & H1 & H)|(e & H1 & ->)];
    [|apply Hexn; apply (keeps_on_lex name _ _ _ _ H1)].
  pose proof (keeps_on_lex name _ _ _ _ H1) as K1.
  destruct token as [token|];
    [|injection H as <- <-; apply (Hsame created s (Val (created, updated)) s1 K1 eq_refl)].
  destruct (is_skipped_kind token).
  - apply bind_inv in H as [(t2 & s2 & H2 & H)|(e & H2 & ->)];
      [|apply Hexn; rewrite <- K1; apply (keeps_on_lex name _ _ _ _ H2)].
    pose proof (keeps_on_lex name _ _ _ _ H2) as K2.
    apply bind_inv in H as [(t3 & s3 & H3 & H)|(e & H3 & ->)];
      [|apply Hexn; rewrite <- K1, <- K2; apply (keeps_on_lex_fuel name _ _ _ _ H3)].
    pose proof (keeps_on_lex_fuel name _ _ _ _ H3) as K3.
    destruct (IH _ _ _ _ _ H) as (added & Ha & Hd & Hf & Hc).
    exists added. rewrite Ha, K3, K2, K1. repeat split; auto.
    intros n Hin. rewrite <- K1, <- K2, <- K3. now apply Hf.
  - assert (Kn : keeps_names name
                   (if (token =? "material")%string
                    then on_lex Lexer.parse_token else @ret MaterialDeclPropGroup _ (Some token))).
    { destruct (token =? "material")%string; [apply keeps_on_lex | apply keeps_ret]. }
    apply bind_inv in H as [(n & s2 & H2 & H)|(e & H2 & ->)];
      [|apply Hexn; rewrite <- K1; apply (Kn _ _ _ H2)].
    pose proof (Kn _ _ _ H2) as K2.
    apply bind_inv in H as [([[decl c3] u3] & s3 & H3 & H)|(e & H3 & ->)].
    2:{ apply lookup_or_add_table in H3 as [_ H3]. destruct n as [n|]; [contradiction|].
        apply Hexn. destruct H3 as [_ ->]. now rewrite K2. }
    apply lookup_or_add_table in H3 as [_ H3]. destruct n as [n|]; [|contradiction].
    destruct H3 as (_ & H3).
    assert (Hrest : exists added,
               map name (decls s') = (map name (decls s3) ++ added)%list
               /\ NoDup added
               /\ (forall n, n ∈ added -> n ∉ map name (decls s3))
               /\ match r with
                  | Val (created', _) => created' = c3 + length added
                  | Exn _ => True
                  end).
    { apply bind_inv in H as [(t4 & s4 & H4 & H)|(e & H4 & ->)];
        [|apply Hexn; apply (keeps_on_lex name _ _ _ _ H4)].
      pose proof (keeps_on_lex name _ _ _ _ H4) as K4.
      apply bind_inv in H as [(t5 & s5 & H5 & H)|(e & H5 & ->)];
        [|apply Hexn; rewrite <- K4; apply (body_loop_keeps_names _ _ _ _ _ _ H5)].
      pose proof (body_loop_keeps_names _ _ _ _ _ _ H5) as K5.
      destruct (IH _ _ _ _ _ H) as (added & Ha & Hd & Hf & Hc).
      exists added. rewrite Ha, K5, K4. repeat split; auto.
      intros x Hin. rewrite <- K4, <- K5. now apply Hf. }
    destruct Hrest as (added & Ha & Hd & Hf & Hc).
    destruct H3 as [(Hin & Hn & -> & ->)|(Hnin & Hn & -> & ->)].
    + exists added. rewrite Ha, Hn, K2, K1. repeat split; auto.
      intros x Hx. rewrite <- K1, <- K2, <- Hn. now apply Hf.
    + exists (n :: added). rewrite Ha, Hn, map_app, K2, K1, <- app_assoc. cbn [app map name set_name].
      split; [reflexivity|]. split; [|split].
      * apply NoDup_cons. split; [|exact Hd]. intros Hx. apply (Hf n Hx).
        rewrite Hn, map_app. apply elem_of_app. right. apply list_elem_of_here.
      * intros x Hx. apply elem_of_cons in Hx as [->|Hx].
        -- now rewrite <- K1, <- K2.
        -- intros Hx'. apply (Hf x Hx). rewrite Hn, map_app, K2, K1. apply elem_of_app. now left.
      * destruct r as [[c' u']|]; [cbn [length]; lia|exact I].
Qed.

Lemma alter_lookup_at {T} (w : T -> T) (e i : nat) (l : list T) :
  alter w e l !! i = (if decide (i = e) then w else id) <$> l !! i.
Proof.
  destruct (decide (i = e)) as [->|Hi].
  - apply list_lookup_alter_eq.
  - rewrite list_lookup_alter_ne by auto. now destruct (l !! i).
Qed.

(** The outer loop in one piece: what it appends, the change it makes to
    each item, and that a second run on a table with the names of the
    result makes the same changes and appends nothing. *)
Lemma material_file_loop_summary (fuel : nat) :
  forall c u (s : pstate MaterialDeclPropGroup) c' u' s',
    file_loop float_of_string none_as_string fuel c u s = Some (Val (c', u'), s') ->
    exists (added : list string) (W : nat -> MaterialDeclPropGroup -> MaterialDeclPropGroup),
      (forall i, settles (W i))
      /\ (forall i, decls s' !! i
                    = W i <$> (decls s ++ map (fun n => set_name n new_item) added)%list !! i)
      /\ forall c2 u2 (s2 : pstate MaterialDeclPropGroup),
          lex s2 = lex s ->
          map name (decls s2) = map name (decls s') ->
          exists u2' s2',
            file_loop float_of_string none_as_string fuel c2 u2 s2
            = Some (Val (c2, u2'), s2')
            /\ u2' + c + u = u2 + c' + u'
            /\ forall i, decls s2' !! i = W i <$> decls s2 !! i.
Proof.
  induction fuel as [|fuel IH]; intros c u s c' u' s' H; [discriminate H|].
  cbn [file_loop] in H.
  apply bind_val_inv in H as (token & s1a & H1 & H).
  destruct token as [token|].
  2:{ injection H as <- <- <-. exists [], (fun _ => id).
      split; [intros i; exact settles_id|].
      destruct (on_lex_transfer _ _ s _ _ H1 eq_refl) as (q0 & _ & _ & _ & Hd).
      split; [intros i; cbn [map]; rewrite app_nil_r, Hd; now destruct (decls s !! i)|].
      intros c2 u2 s2 Hl Hn.
      destruct (on_lex_transfer _ _ s2 _ _ H1 Hl) as (s2a & R1 & Hla & Hda & _).
      exists u2, s2a. cbn [file_loop]. rewrite (bind_val _ _ _ _ _ R1).
      split; [reflexivity|]. split; [lia|]. intros i. rewrite Hda.
      now destruct (decls s2 !! i). }
  destruct (is_skipped_kind token) eqn:Hskip.
  - apply bind_val_inv in H as (t2 & s1b & H2 & H).
    apply bind_val_inv in H as (t3 & s1c & H3 & H).
    destruct (IH _ _ _ _ _ _ H) as (added & W & HW & Hlk & Hagain).
    destruct (on_lex_transfer _ _ s _ _ H1 eq_refl) as (q1 & _ & _ & _ & Hd1).
    destruct (on_lex_transfer _ _ s1a _ _ H2 eq_refl) as (q2 & _ & _ & _ & Hd2).
    destruct (on_lex_fuel_transfer _ _ s1b _ _ H3 eq_refl) as (q3 & _ & _ & _ & Hd3).
    exists added, W. split; [exact HW|].
    split; [intros i; rewrite Hlk; now rewrite Hd3, Hd2, Hd1|].
    intros c2 u2 s2 Hl Hn.
    destruct (on_lex_transfer _ _ s2 _ _ H1 Hl) as (s2a & R1 & Hla & Hda & _).
    destruct (on_lex_transfer _ _ s2a _ _ H2 Hla) as (s2b & R2 & Hlb & Hdb & _).
    destruct (on_lex_fuel_transfer _ _ s2b _ _ H3 Hlb) as (s2c & R3 & Hlc & Hdc & _).
    destruct (Hagain c2 u2 s2c Hlc) as (u2' & s2' & R & Hu & Hlk2).
    { now rewrite Hdc, Hdb, Hda. }
    exists u2', s2'. cbn [file_loop]. rewrite (bind_val _ _ _ _ _ R1), Hskip.
    rewrite (bind_val _ _ _ _ _ R2), (bind_val _ _ _ _ _ R3).
    split; [exact R|]. split; [exact Hu|]. intros i. rewrite Hlk2.
    now rewrite Hdc, Hdb, Hda.
  - apply bind_val_inv in H as (n & s1b & H2 & H).
    assert (Hn_tr : decls s1b = decls s1a
                    /\ forall s2a : pstate MaterialDeclPropGroup,
                        lex s2a = lex s1a ->
                        exists s2b,
                          (if (token =? "material")%string
                           then on_lex Lexer.parse_token else ret (Some token)) s2a
                          = Some (Val n, s2b)
                          /\ lex s2b = lex s1b /\ decls s2b = decls s2a).
    { destruct (token =? "material")%string.
      - split; [now destruct (on_lex_transfer _ _ s1a _ _ H2 eq_refl) as (q2 & _ & _ & _ & Hq)|].
        intros s2a Hla. destruct (on_lex_transfer _ _ s2a _ _ H2 Hla) as (s2b & R2 & Hq1 & Hq2 & _).
        now exists s2b.
      - injection H2 as <- <-. split; [reflexivity|]. intros s2a Hla. now exists s2a. }
    destruct Hn_tr as [Hd2 Hn_tr]. clear H2.
    apply bind_val_inv in H as ([[decl c3] u3] & s1c & H3 & H).
    pose proof (lookup_or_add_table _ _ _ _ _ _ H3) as [Hlc1 S3].
    destruct n as [n|]; [|contradiction].
    destruct S3 as (Hfind & S3).
    apply bind_val_inv in H as (t4 & s1d & H4 & H).
    apply bind_val_inv in H as ([] & s1e & H5 & H).
    destruct (acts_here _ _ _ _ _ _ (body_loop_acts fuel decl body_entry) H5)
      as (w & Pw & Hd5 & R5).
    destruct (on_lex_transfer _ _ s _ _ H1 eq_refl) as (q1 & _ & _ & _ & Hd1).
    destruct (on_lex_transfer _ _ s1c _ _ H4 eq_refl) as (q4 & _ & _ & _ & Hd4).
    destruct (material_file_loop_grows _ _ _ _ _ _ H) as (grown & Hgrown & _).
    destruct (IH _ _ _ _ _ _ H) as (added' & W' & HW' & Hlk & Hagain).
    assert (Hlt : decl < length (decls s1c)).
    { destruct (index_lookup name _ _ _ Hfind) as (y & Hx & _).
      now apply lookup_lt_Some in Hx. }
    set (named := fun n => set_name n new_item) in *.
    assert (Hcount : c3 + u3 = c + u + 1) by (destruct S3 as [S3|S3]; lia).
    exists (if decide (n ∈ map name (decls s)) then added' else n :: added'),
           (fun i => W' i ∘ (if decide (i = decl) then w else id)).
    split; [|split].
    + intros i. apply settles_compose; [apply HW'|].
      destruct (decide (i = decl)); [exact Pw|exact settles_id].
    + intros i. rewrite Hlk, Hd5, Hd4.
      rewrite <- alter_app_l by exact Hlt. rewrite alter_lookup_at.
      rewrite <- option_fmap_compose. f_equal. f_equal.
      destruct S3 as [(Hin & -> & _)|(Hnin & -> & _)].
      * rewrite decide_True by (now rewrite <- Hd1, <- Hd2).
        now rewrite Hd2, Hd1.
      * rewrite decide_False by (now rewrite <- Hd1, <- Hd2).
        rewrite Hd2, Hd1, <- app_assoc. reflexivity.
    + intros c2 u2 s2 Hl Hn.
      destruct (on_lex_transfer _ _ s2 _ _ H1 Hl) as (s2a & R1 & Hla & Hda & _).
      destruct (Hn_tr s2a Hla) as (s2b & R2 & Hlb & Hdb).
      assert (Hfind2 : find n (decls s2b) = Some decl).
      { apply (index_prefix name n (decls s1c) _ grown); [|exact Hfind].
        rewrite Hdb, Hda, Hn, Hgrown, Hd5, Hd4. now rewrite settles_names. }
      assert (Hlc : lex s2b = lex s1c) by congruence.
      destruct (on_lex_transfer _ _ s2b _ _ H4 Hlc) as (s2d & R4 & Hld & Hdd & _).
      destruct (Hagain c2 (u2 + 1) (mkst (lex s1e) (alter w decl (decls s2d))) eq_refl)
        as (u2' & s2' & R & Hu & Hlk2).
      { cbn [decls]. rewrite settles_names by exact Pw. now rewrite Hdd, Hdb, Hda. }
      exists u2', s2'. cbn [file_loop]. rewrite (bind_val _ _ _ _ _ R1), Hskip.
      rewrite (bind_val _ _ _ _ _ R2).
      rewrite (bind_val _ _ _ _ _ (lookup_or_add_again n c2 u2 decl s2b Hfind2)).
      rewrite (bind_val _ _ _ _ _ R4).
      rewrite (bind_val _ _ _ _ _ (R5 s2d Hld)).
      split; [exact R|]. split; [lia|].
      intros i. rewrite Hlk2. cbn [decls]. rewrite alter_lookup_at.
      rewrite <- option_fmap_compose. now rewrite Hdd, Hdb, Hda.
Qed.

End MaterialTable.

(** X9. [parse_material_file] only ever extends the table of material
    declarations at its end: the names that were in the table keep their
    places, each new name is appended once and was not in the table
    before, and the first number returned is the number of names
    appended.  This holds as well when the parse ends in an exception:
    what was added before it stays. *)
Theorem parse_material_file_extends_table :
  forall (float_of_string : string -> res float) (none_as_string : res string)
         (fuel : nat) (contents : string)
         (material_decls material_decls' : list Materials.MaterialDeclPropGroup)
         (r : res (nat * nat)),
    Materials.parse_material_file float_of_string none_as_string fuel contents material_decls
    = Some (r, material_decls') ->
    exists added : list string,
      map Materials.name material_decls' = (map Materials.name material_decls ++ added)%list
      /\ NoDup added
      /\ (forall n, n ∈ added -> n ∉ map Materials.name material_decls)
      /\ match r with
         | Val (created, _) => created = length added
         | Exn _ => True
         end.
Proof.
  intros float_of_string none_as_string fuel contents material_decls material_decls' r H.
  unfold Materials.parse_material_file in H.
  destruct (Materials.file_loop float_of_string none_as_string fuel 0 0
              (mkst (Lexer.init contents) material_decls)) as [[r' s']|] eqn:E;
    [|discriminate H].
  injection H as <- <-.
  destruct (material_file_loop_grows _ _ _ _ _ _ _ _ E) as (added & Ha & Hd & Hf & Hc).
  exists added. cbn [decls] in *. repeat split; auto.
Qed.

(** A file that declares [a] twice and [b] once, with a table between
    them, read into a table that holds [b]. *)
Lemma parse_material_file_extends_table_witness :
  Materials.parse_material_file float_of_short_decimal (Exn TypeError) 40
    ("material a { qer_editorimage e.tga { blend diffusemap map d.tga } } "
     ++ "b { bumpmap heightmap ( h.tga , 4 ) } table t { 1 , 2 } a { specularmap s.tga }")
    [Materials.mk "b" "x" "y" 2 "z" "u" "v"]
  = Some (Val (1, 2),
          [Materials.mk "b" "x" "y" 4 "h.tga" "u" "v";
           Materials.mk "a" "d.tga" "e.tga" 0 "" "s.tga" "d.tga"])
  /\ exists added : list string,
      map Materials.name
          [Materials.mk "b" "x" "y" 4 "h.tga" "u" "v";
           Materials.mk "a" "d.tga" "e.tga" 0 "" "s.tga" "d.tga"]
      = (map Materials.name [Materials.mk "b" "x" "y" 2 "z" "u" "v"] ++ added)%list
      /\ NoDup added
      /\ (forall n, n ∈ added -> n ∉ map Materials.name [Materials.mk "b" "x" "y" 2 "z" "u" "v"])
      /\ 1 = length added.
Proof.
  split; [vm_compute; reflexivity|].
  apply (parse_material_file_extends_table float_of_short_decimal (Exn TypeError) 40
           ("material a { qer_editorimage e.tga { blend diffusemap map d.tga } } "
            ++ "b { bumpmap heightmap ( h.tga , 4 ) } table t { 1 , 2 } a { specularmap s.tga }")
           [Materials.mk "b" "x" "y" 2 "z" "u" "v"] _ (Val (1, 2))).
  vm_compute. reflexivity.
Defined.

(** X10. Importing the same material file a second time changes nothing
    and creates nothing: when [parse_material_file] returns
    [(created, updated)] and leaves the table [material_decls'], the same
    call on [material_decls'] returns [(0, created + updated)] and leaves
    [material_decls'] as it is. *)
Theorem parse_material_file_twice :
  forall (float_of_string : string -> res float) (none_as_string : res string)
         (fuel : nat) (contents : string)
         (material_decls material_decls' : list Materials.MaterialDeclPropGroup)
         (created updated : nat),
    Materials.parse_material_file float_of_string none_as_string fuel contents material_decls
    = Some (Val (created, updated), material_decls') ->
    Materials.parse_material_file float_of_string none_as_string fuel contents material_decls'
    = Some (Val (0, created + updated), material_decls').
Proof.
  intros float_of_string none_as_string fuel contents material_decls material_decls'
         created updated H.
  unfold Materials.parse_material_file in *.
  destruct (Materials.file_loop float_of_string none_as_string fuel 0 0
              (mkst (Lexer.init contents) material_decls)) as [[r' s']|] eqn:E;
    [|discriminate H].
  injection H as -> <-.
  destruct (material_file_loop_summary _ _ _ _ _ _ _ _ _ E) as (added & W & HW & Hlk & Hagain).
  destruct (Hagain 0 0 (mkst (Lexer.init contents) (decls s')) eq_refl eq_refl)
    as (u2' & s2' & R & Hu & Hlk2).
  rewrite R. f_equal. f_equal; [do 2 f_equal; lia|].
  apply list_eq. intros i. rewrite Hlk2. cbn [decls]. rewrite Hlk.
  destruct (_ !! i) as [x|]; [|reflexivity]. cbn. f_equal. apply settles_twice, HW.
Qed.

(** The file of the example above, read into a table that holds [b] and
    read again. *)
Lemma parse_material_file_twice_witness :
  Materials.parse_material_file float_of_short_decimal (Exn TypeError) 40
    ("material a { qer_editorimage e.tga { blend diffusemap map d.tga } } "
     ++ "b { bumpmap heightmap ( h.tga , 4 ) } table t { 1 , 2 } a { specularmap s.tga }")
    [Materials.mk "b" "x" "y" 2 "z" "u" "v"]
  = Some (Val (1, 2),
          [Materials.mk "b" "x" "y" 4 "h.tga" "u" "v";
           Materials.mk "a" "d.tga" "e.tga" 0 "" "s.tga" "d.tga"])
  /\ Materials.parse_material_file float_of_short_decimal (Exn TypeError) 40
       ("material a { qer_editorimage e.tga { blend diffusemap map d.tga } } "
        ++ "b { bumpmap heightmap ( h.tga , 4 ) } table t { 1 , 2 } a { specularmap s.tga }")
       [Materials.mk "b" "x" "y" 4 "h.tga" "u" "v";
        Materials.mk "a" "d.tga" "e.tga" 0 "" "s.tga" "d.tga"]
     = Some (Val (0, 1 + 2),
             [Materials.mk "b" "x" "y" 4 "h.tga" "u" "v";
              Materials.mk "a" "d.tga" "e.tga" 0 "" "s.tga" "d.tga"]).
Proof.
  split; [vm_compute; reflexivity|].
  apply (parse_material_file_twice float_of_short_decimal (Exn TypeError) 40
           ("material a { qer_editorimage e.tga { blend diffusemap map d.tga } } "
            ++ "b { bumpmap heightmap ( h.tga , 4 ) } table t { 1 , 2 } a { specularmap s.tga }")
           [Materials.mk "b" "x" "y" 2 "z" "u" "v"]).
  vm_compute. reflexivity.
Defined.

(** ** Declarations the parsers pass over, and declarations they cannot open *)

Section Skipped.

Lemma skip_section_run (lex lex1 lex' : Lexer.t) (ts : list string) (fuel : nat) :
  Lexer.parse_token lex = (Val (Some "{"), lex1) ->
  token_run lex1 ts lex' ->
  closes_at_end "{" "}" 1 ts = true ->
  length ts <= fuel ->
  Lexer.skip_bracket_delimiter_section fuel "{" "}" lex = Some (Val tt, lex').
Proof.
  intros H Hts Hc Hf. unfold Lexer.skip_bracket_delimiter_section.
  rewrite (expect_token_run _ _ _ H). now apply skip_loop_balanced with (ts := ts).
Qed.

Lemma on_lex_fuel_at {T A} (f : Lexer.t -> option (res A * Lexer.t)) (l l' : Lexer.t)
      (d : list T) (r : res A) :
  f l = Some (r, l') -> on_lex_fuel f (mkst l d) = Some (r, mkst l' d).
Proof. intros H. unfold on_lex_fuel. cbn [lex decls]. now rewrite H. Qed.

Lemma expect_token_fails (token : string) (t : option string) (l l' : Lexer.t) :
  Lexer.parse_token l = (Val t, l') ->
  t <> Some token ->
  Lexer.expect_token token l = (Exn (ExpectedToken token t (Lexer.line l')), l').
Proof.
  intros H Ht. unfold Lexer.expect_token. rewrite H.
  destruct t as [x|]; cbn [Lexer.token_is negb]; [|reflexivity].
  destruct (String.eqb_spec token x) as [->|_]; [now contradiction Ht|reflexivity].
Qed.

End Skipped.

(** X11.  A top-level declaration of a kind a parser does not read (any
    kind but [entityDef] in a definition file; [particle], [skin] and
    [table] in a material file) is passed over whole when its braces
    balance: the loop goes on right after its closing brace with the table
    and both counters as they were, whatever stands between the braces. *)
Theorem skipped_declaration_changes_nothing :
  (forall (none_as_string : res string) (fuel created updated : nat)
          (s : pstate Entities.EntityPropGroup) (kind : string) (name : option string)
          (lex1 lex2 lex3 lex' : Lexer.t) (ts : list string),
      Lexer.parse_token (lex s) = (Val (Some kind), lex1) ->
      kind <> "entityDef" ->
      Lexer.parse_token lex1 = (Val name, lex2) ->
      Lexer.parse_token lex2 = (Val (Some "{"), lex3) ->
      token_run lex3 ts lex' ->
      closes_at_end "{" "}" 1 ts = true ->
      length ts <= fuel ->
      Entities.file_loop none_as_string (S fuel) created updated s
      = Entities.file_loop none_as_string fuel created updated (mkst lex' (decls s)))
  /\ (forall (float_of_string : string -> res float) (none_as_string : res string)
             (fuel created updated : nat)
             (s : pstate Materials.MaterialDeclPropGroup) (kind : string)
             (name : option string) (lex1 lex2 lex3 lex' : Lexer.t) (ts : list string),
         Lexer.parse_token (lex s) = (Val (Some kind), lex1) ->
         kind = "particle" \/ kind = "skin" \/ kind = "table" ->
         Lexer.parse_token lex1 = (Val name, lex2) ->
         Lexer.parse_token lex2 = (Val (Some "{"), lex3) ->
         token_run lex3 ts lex' ->
         closes_at_end "{" "}" 1 ts = true ->
         length ts <= fuel ->
         Materials.file_loop float_of_string none_as_string (S fuel) created updated s
         = Materials.file_loop float_of_string none_as_string fuel created updated
                               (mkst lex' (decls s))).
Proof.
  split.
  - intros nas fuel created updated s kind name lex1 lex2 lex3 lex' ts H1 Hk H2 H3 Hts Hc Hf.
    cbn [Entities.file_loop]. rewrite (bind_val _ _ _ _ _ (on_lex_run _ _ _ _ H1)).
    destruct (String.eqb_spec kind "entityDef") as [->|_]; [now contradiction Hk|].
    cbn [negb]. rewrite (bind_val _ _ _ _ _ (on_lex_at _ _ _ _ _ H2)).
    now rewrite (bind_val _ _ _ _ _
                   (on_lex_fuel_at _ _ _ _ _ (skip_section_run _ _ _ _ _ H3 Hts Hc Hf))).
  - intros fos nas fuel created updated s kind name lex1 lex2 lex3 lex' ts
           H1 Hk H2 H3 Hts Hc Hf.
    cbn [Materials.file_loop]. rewrite (bind_val _ _ _ _ _ (on_lex_run _ _ _ _ H1)).
    assert (Hs : Materials.is_skipped_kind kind = true)
      by (destruct Hk as [-> | [-> | ->]]; reflexivity).
    rewrite Hs. rewrite (bind_val _ _ _ _ _ (on_lex_at _ _ _ _ _ H2)).
    now rewrite (bind_val _ _ _ _ _
                   (on_lex_fuel_at _ _ _ _ _ (skip_section_run _ _ _ _ _ H3 Hts Hc Hf))).
Qed.

(** A model declaration with an [entityDef] inside it, before a real one. *)
Lemma skipped_declaration_changes_nothing_witness :
  Entities.file_loop (Exn TypeError) 9 0 0
    (mkst (Lexer.init "model foo { entityDef bar { } } entityDef baz { }") [])
  = Entities.file_loop (Exn TypeError) 8 0 0
      (mkst (Lexer.mk "model foo { entityDef bar { } } entityDef baz { }" 1 31) [])
  /\ Entities.parse_def_file (Exn TypeError) 9
       "model foo { entityDef bar { } } entityDef baz { }" []
     = Some (Val (1, 0), [Entities.mk "baz" "0 0 1" "" "" ""]).
Proof.
  split; [|vm_compute; reflexivity].
  eapply (proj1 skipped_declaration_changes_nothing (Exn TypeError) 8 0 0
            (mkst (Lexer.init "model foo { entityDef bar { } } entityDef baz { }") [])
            "model" (Some "foo") _ _ _ _ ["entityDef"; "bar"; "{"; "}"; "}"]).
  - vm_compute. reflexivity.
  - discriminate.
  - vm_compute. reflexivity.
  - vm_compute. reflexivity.
  - repeat (eapply run_cons; [vm_compute; reflexivity|]). apply run_nil.
  - reflexivity.
  - cbn. lia.
Defined.

Section Unopened.

Lemma alter_last {T} (f : T -> T) (l : list T) (x : T) :
  alter f (length l) (l ++ [x])%list = (l ++ [f x])%list.
Proof.
  replace (length l) with (length l + 0) at 1 by lia. now rewrite alter_app_r.
Qed.

Lemma entity_lookup_or_add_new (n : string) (created updated : nat)
      (s : pstate Entities.EntityPropGroup) :
  Entities.find n (decls s) = None ->
  Entities.lookup_or_add (Some n) created updated s
  = Some (Val (length (decls s), created + 1, updated),
          mkst (lex s) (decls s ++ [Entities.mk n "0 0 1" "" "" ""])%list).
Proof.
  intros H. unfold Entities.lookup_or_add. cbv [bind table ret update].
  cbn [lex decls]. rewrite H. cbv [add]. cbn [lex decls].
  now rewrite !alter_last.
Qed.

Lemma material_lookup_or_add_new (n : string) (created updated : nat)
      (s : pstate Materials.MaterialDeclPropGroup) :
  Materials.find n (decls s) = None ->
  Materials.lookup_or_add (Some n) created updated s
  = Some (Val (length (decls s), created + 1, updated),
          mkst (lex s) (decls s ++ [Materials.set_name n Materials.new_item])%list).
Proof.
  intros H. unfold Materials.lookup_or_add. cbv [bind table ret update].
  cbn [lex decls]. rewrite H. cbv [add]. cbn [lex decls].
  now rewrite alter_last.
Qed.

End Unopened.

(** X12.  A declaration whose name is not followed by [{] is entered in
    the table before the error is raised.  In a definition file
    [entityDef name] followed by anything else (or by the end of the
    input) raises the expected-token error, and [name] is left in the
    table with its attributes reset, appended if it was not there.  In a
    material file the same holds for any word that is no keyword, since it
    is taken as the name of a material: a stray word or brace at the top
    level leaves a declaration of that name behind. *)
Theorem unopened_declaration_stays :
  (forall (none_as_string : res string) (fuel created updated : nat)
          (s : pstate Entities.EntityPropGroup) (n : string) (t : option string)
          (lex1 lex2 lex3 : Lexer.t),
      Lexer.parse_token (lex s) = (Val (Some "entityDef"), lex1) ->
      Lexer.parse_token lex1 = (Val (Some n), lex2) ->
      Lexer.parse_token lex2 = (Val t, lex3) ->
      t <> Some "{" ->
      Entities.file_loop none_as_string (S fuel) created updated s
      = Some (Exn (ExpectedToken "{" t (Lexer.line lex3)),
              mkst lex3
                   match Entities.find n (decls s) with
                   | Some entity => alter Entities.reset entity (decls s)
                   | None => (decls s ++ [Entities.mk n "0 0 1" "" "" ""])%list
                   end))
  /\ (forall (float_of_string : string -> res float) (none_as_string : res string)
             (fuel created updated : nat)
             (s : pstate Materials.MaterialDeclPropGroup) (w : string) (t : option string)
             (lex1 lex2 : Lexer.t),
         Lexer.parse_token (lex s) = (Val (Some w), lex1) ->
         Materials.is_skipped_kind w = false ->
         w <> "material" ->
         Lexer.parse_token lex1 = (Val t, lex2) ->
         t <> Some "{" ->
         Materials.file_loop float_of_string none_as_string (S fuel) created updated s
         = Some (Exn (ExpectedToken "{" t (Lexer.line lex2)),
                 mkst lex2
                      match Materials.find w (decls s) with
                      | Some _ => decls s
                      | None => (decls s ++ [Materials.set_name w Materials.new_item])%list
                      end)).
Proof.
  split.
  - intros nas fuel created updated s n t lex1 lex2 lex3 H1 H2 H3 Ht.
    cbn [Entities.file_loop]. rewrite (bind_val _ _ _ _ _ (on_lex_run _ _ _ _ H1)).
    cbn [String.eqb Ascii.eqb Bool.eqb negb].
    rewrite (bind_val _ _ _ _ _ (on_lex_at _ _ _ _ _ H2)).
    destruct (Entities.find n (decls s)) as [entity|] eqn:E.
    + rewrite (bind_val _ _ _ _ _
                 (lookup_or_add_found n created updated entity (mkst lex2 (decls s)) E)).
      cbn [lex decls].
      now rewrite (bind_exn _ _ _ _ _ (on_lex_at _ _ _ _ _ (expect_token_fails _ _ _ _ H3 Ht))).
    + rewrite (bind_val _ _ _ _ _
                 (entity_lookup_or_add_new n created updated (mkst lex2 (decls s)) E)).
      cbn [lex decls].
      now rewrite (bind_exn _ _ _ _ _ (on_lex_at _ _ _ _ _ (expect_token_fails _ _ _ _ H3 Ht))).
  - intros fos nas fuel created updated s w t lex1 lex2 H1 Hs Hw H2 Ht.
    cbn [Materials.file_loop]. rewrite (bind_val _ _ _ _ _ (on_lex_run _ _ _ _ H1)).
    rewrite Hs. destruct (String.eqb_spec w "material") as [->|_]; [now contradiction Hw|].
    unfold ret at 1. unfold bind at 1.
    destruct (Materials.find w (decls s)) as [decl|] eqn:E.
    + rewrite (bind_val _ _ _ _ _
                 (lookup_or_add_again w created updated decl (mkst lex1 (decls s)) E)).
      now rewrite (bind_exn _ _ _ _ _ (on_lex_at _ _ _ _ _ (expect_token_fails _ _ _ _ H2 Ht))).
    + rewrite (bind_val _ _ _ _ _
                 (material_lookup_or_add_new w created updated (mkst lex1 (decls s)) E)).
      cbn [lex decls].
      now rewrite (bind_exn _ _ _ _ _ (on_lex_at _ _ _ _ _ (expect_token_fails _ _ _ _ H2 Ht))).
Qed.

(** A material file with one brace too many at its end. *)
Lemma unopened_declaration_stays_witness :
  Materials.parse_material_file float_of_short_decimal (Exn TypeError) 9 "a { } }" []
  = Some (Exn (ExpectedToken "{" None 1),
          [Materials.mk "a" "" "" 0 "" "" ""; Materials.mk "}" "" "" 0 "" "" ""])
  /\ Materials.file_loop float_of_short_decimal (Exn TypeError) 1 1 0
       (mkst (Lexer.mk "a { } }" 1 5) [Materials.mk "a" "" "" 0 "" "" ""])
     = Some (Exn (ExpectedToken "{" None 1),
             mkst (Lexer.mk "a { } }" 1 7)
                  [Materials.mk "a" "" "" 0 "" "" ""; Materials.mk "}" "" "" 0 "" "" ""]).
Proof.
  split; [vm_compute; reflexivity|].
  refine (proj2 unopened_declaration_stays float_of_short_decimal (Exn TypeError) 0 1 0
            (mkst (Lexer.mk "a { } }" 1 5) [Materials.mk "a" "" "" 0 "" "" ""])
            "}" None (Lexer.mk "a { } }" 1 7) (Lexer.mk "a { } }" 1 7) _ _ _ _ _).
  - vm_compute. reflexivity.
  - reflexivity.
  - discriminate.
  - vm_compute. reflexivity.
  - discriminate.
Defined.

Section Heightmap.
Import Materials.
Variable float_of_string : string -> res float.
Variable none_as_string : res string.





End Heightmap.



(** ** Comments *)

Section Comments.
Import Lexer.

Lemma skip_line_comment_run (body : string) :
  forall (p rest : string) (ln n : nat),
    no_newline body = true ->
    match rest with
    | EmptyString => True
    | String c _ => c = newline
    end ->
    String.length body <= n ->
    skip_line_comment n (mk (p ++ body ++ rest) ln (String.length p))
    = mk (p ++ body ++ rest) ln (String.length p + String.length body).
Proof.
  induction body as [|c body IH]; intros p rest ln n Hb Hr Hn.
  - rewrite append_empty. cbn [String.length]. rewrite Nat.add_0_r.
    destruct n as [|n]; [reflexivity|]. cbn [skip_line_comment].
    destruct rest as [|d r].
    + now rewrite append_empty_r, cur_at_end.
    + rewrite cur_at. subst d. now rewrite Ascii.eqb_refl.
  - destruct n as [|n]; [simpl in Hn; lia|].
    cbn [no_newline] in Hb. apply andb_true_iff in Hb as [Hc Hb].
    apply negb_true_iff in Hc.
    rewrite append_cons. cbn [skip_line_comment]. rewrite cur_at, Hc, advance_at.
    rewrite IH; [| exact Hb | exact Hr | simpl in Hn; lia].
    rewrite append_snoc, length_snoc. cbn [String.length]. f_equal; lia.
Qed.

Lemma skip_block_comment_open (body : string) :
  forall (p : string) (ln n : nat),
    has_close body = false ->
    String.length body <= n ->
    skip_block_comment n (mk (p ++ body) ln (String.length p))
    = mk (p ++ body) ln (String.length p + String.length body).
Proof.
  induction body as [|c body IH]; intros p ln n Hb Hn.
  - rewrite append_empty_r. cbn [String.length]. rewrite Nat.add_0_r.
    destruct n as [|n]; [reflexivity|]. cbn [skip_block_comment].
    now rewrite cur_at_end.
  - destruct n as [|n]; [simpl in Hn; lia|].
    cbn [has_close] in Hb. apply orb_false_iff in Hb as [Hc Hb].
    cbn [skip_block_comment]. rewrite cur_at, next_at, Hc, advance_at.
    rewrite IH; [| exact Hb | simpl in Hn; lia].
    rewrite append_snoc, length_snoc. cbn [String.length]. f_equal; lia.
Qed.

Lemma skip_block_comment_run (body : string) :
  forall (p rest : string) (ln n : nat),
    has_close body = false ->
    String.length body < n ->
    skip_block_comment n (mk (p ++ body ++ "*/" ++ rest) ln (String.length p))
    = mk (p ++ body ++ "*/" ++ rest) ln (String.length p + String.length body + 2).
Proof.
  induction body as [|c body IH]; intros p rest ln n Hb Hn.
  - rewrite append_empty. cbn [String.length]. rewrite Nat.add_0_r.
    destruct n as [|n]; [lia|]. cbn [skip_block_comment].
    rewrite !append_cons, append_empty, cur_at, next_at. reflexivity.
  - destruct n as [|n]; [lia|].
    cbn [has_close] in Hb. apply orb_false_iff in Hb as [Hc Hb].
    rewrite append_cons. cbn [skip_block_comment]. rewrite cur_at, next_at.
    assert (Hc' : Ascii.eqb c star && char_is slash (get 0 (body ++ "*/" ++ rest)) = false).
    { destruct body as [|d body]; [|exact Hc].
      rewrite append_empty. cbn. now rewrite andb_false_r. }
    rewrite Hc', advance_at.
    rewrite IH; [| exact Hb | simpl in Hn; lia].
    rewrite append_snoc, length_snoc. cbn [String.length]. f_equal; lia.
Qed.

Lemma skip_whitespace_loop_slashes (n : nat) (lex : t) :
  cur lex = Some slash -> next lex = Some slash ->
  skip_whitespace_loop (S n) lex
  = skip_whitespace_loop n (skip_line_comment (remaining lex) lex).
Proof. intros Hc Hn. cbn [skip_whitespace_loop]. rewrite Hc, Hn. reflexivity. Qed.

Lemma skip_whitespace_loop_slash_star (n : nat) (lex : t) :
  cur lex = Some slash -> next lex = Some star ->
  skip_whitespace_loop (S n) lex
  = skip_whitespace_loop n (skip_block_comment (remaining lex) lex).
Proof. intros Hc Hn. cbn [skip_whitespace_loop]. rewrite Hc, Hn. reflexivity. Qed.

Lemma skip_whitespace_loop_end (n : nat) (lex : t) :
  cur lex = None -> skip_whitespace_loop n lex = lex.
Proof. intros H. destruct n; cbn [skip_whitespace_loop]; now rewrite ?H. Qed.

Lemma skip_whitespace_from (lex' : t) (n : nat) :
  remaining lex' <= n -> skip_whitespace_loop n lex' = skip_whitespace lex'.
Proof.
  intros H. unfold skip_whitespace. apply skip_whitespace_loop_bound; [exact H|lia].
Qed.

Lemma skip_whitespace_line_comment (p body rest : string) (ln : nat) :
  no_newline body = true ->
  match rest with
  | EmptyString => True
  | String c _ => c = newline
  end ->
  skip_whitespace (mk (p ++ "//" ++ body ++ rest) ln (String.length p))
  = skip_whitespace (mk (p ++ "//" ++ body ++ rest) ln (String.length p + 2 + String.length body)).
Proof.
  intros Hb Hr.
  assert (E : "//" ++ body ++ rest = String slash (String slash (body ++ rest)))
    by now rewrite !append_cons, append_empty.
  unfold skip_whitespace at 1. rewrite remaining_at, E.
  cbn [String.length].
  rewrite skip_whitespace_loop_slashes by (rewrite ?cur_at, ?next_at; reflexivity).
  pose proof (skip_line_comment_run (String slash (String slash body)) p rest ln
                (remaining (mk (p ++ String slash (String slash (body ++ rest))) ln
                               (String.length p)))) as R.
  rewrite !append_cons in R. rewrite R; [| exact Hb | exact Hr |].
  2:{ rewrite remaining_at. cbn [String.length]. rewrite length_append. lia. }
  cbn [String.length]. rewrite <- E.
  replace (String.length p + S (S (String.length body)))
    with (String.length p + 2 + String.length body) by lia.
  apply skip_whitespace_from.
  unfold remaining. cbn [data pos]. rewrite E, !length_append. cbn [String.length].
  rewrite length_append. lia.
Qed.

Lemma skip_whitespace_block_comment (p body rest : string) (ln : nat) :
  has_close ("*" ++ body) = false ->
  skip_whitespace (mk (p ++ "/*" ++ body ++ "*/" ++ rest) ln (String.length p))
  = skip_whitespace (mk (p ++ "/*" ++ body ++ "*/" ++ rest) ln
                        (String.length p + String.length body + 4)).
Proof.
  intros Hb. rewrite append_cons, append_empty in Hb.
  assert (E : "/*" ++ body ++ "*/" ++ rest = String slash (String star (body ++ "*/" ++ rest)))
    by now rewrite !append_cons, append_empty.
  unfold skip_whitespace at 1. rewrite remaining_at, E.
  cbn [String.length].
  rewrite skip_whitespace_loop_slash_star by (rewrite ?cur_at, ?next_at; reflexivity).
  pose proof (skip_block_comment_run (String slash (String star body)) p rest ln
                (remaining (mk (p ++ String slash (String star (body ++ "*/" ++ rest))) ln
                               (String.length p)))) as R.
  assert (E2 : String slash (String star body) ++ "*/" ++ rest
               = String slash (String star (body ++ "*/" ++ rest))) by reflexivity.
  rewrite E2 in R. rewrite R.
  2:{ cbn [has_close]. change (Ascii.eqb slash star) with false. exact Hb. }
  2:{ rewrite remaining_at. cbn [String.length]. rewrite !length_append.
      cbn [String.length]. lia. }
  cbn [String.length]. rewrite <- E.
  replace (String.length p + S (S (String.length body)) + 2)
    with (String.length p + String.length body + 4) by lia.
  apply skip_whitespace_from.
  unfold remaining. cbn [data pos]. rewrite E, !length_append. cbn [String.length].
  rewrite !length_append. cbn [String.length]. lia.
Qed.

Lemma parse_token_open_comment (p body : string) (ln : nat) :
  has_close ("*" ++ body) = false ->
  parse_token (mk (p ++ "/*" ++ body) ln (String.length p))
  = (Val None, mk (p ++ "/*" ++ body) ln (String.length p + String.length body + 2)).
Proof.
  intros Hb. rewrite append_cons, append_empty in Hb.
  assert (E : "/*" ++ body = String slash (String star body))
    by now rewrite !append_cons, append_empty.
  assert (Hsk : skip_whitespace (mk (p ++ "/*" ++ body) ln (String.length p))
              = mk (p ++ "/*" ++ body) ln (String.length p + String.length body + 2)).
  { unfold skip_whitespace at 1. rewrite remaining_at, E.
    cbn [String.length].
    rewrite skip_whitespace_loop_slash_star by (rewrite ?cur_at, ?next_at; reflexivity).
    rewrite skip_block_comment_open.
    2:{ cbn [has_close]. change (Ascii.eqb slash star) with false. exact Hb. }
    2:{ rewrite remaining_at. cbn [String.length]. lia. }
    cbn [String.length].
    replace (String.length p + S (S (String.length body)))
      with (String.length (p ++ String slash (String star body))).
    2:{ rewrite length_append. cbn [String.length]. lia. }
    rewrite skip_whitespace_loop_end by apply cur_at_end.
    rewrite length_append. cbn [String.length]. f_equal. lia. }
  unfold parse_token. rewrite Hsk. cbn zeta. unfold eof. cbn [data pos].
  rewrite E, length_append. cbn [String.length].
  replace (String.length p + S (S (String.length body)) <=? String.length p + String.length body + 2)
    with true by (symmetry; apply Nat.leb_le; lia).
  reflexivity.
Qed.

Lemma skip_whitespace_slash_star_slash (p rest : string) (ln : nat) :
  skip_whitespace (mk (p ++ "/*/" ++ rest) ln (String.length p))
  = skip_whitespace (mk (p ++ "/*/" ++ rest) ln (String.length p + 3)).
Proof.
  assert (E : "/*/" ++ rest = String slash (String star (String slash rest))) by reflexivity.
  unfold skip_whitespace at 1. rewrite remaining_at, E.
  cbn [String.length].
  rewrite skip_whitespace_loop_slash_star by (rewrite ?cur_at, ?next_at; reflexivity).
  rewrite remaining_at. cbn [String.length skip_block_comment].
  rewrite cur_at, next_at. cbn [get char_is]. change (Ascii.eqb slash star) with false.
  cbn [andb]. rewrite advance_at, cur_at, next_at. cbn [get char_is].
  change (Ascii.eqb star star) with true. change (Ascii.eqb slash slash) with true.
  cbn [andb]. unfold advance. cbn [data line pos]. rewrite append_snoc, length_snoc.
  replace (String.length p + 1 + 2) with (String.length p + 3) by lia.
  apply skip_whitespace_from.
  unfold remaining. cbn [data pos]. rewrite length_append. cbn [String.length]. lia.
Qed.

End Comments.

(** X14.  Comments are passed over as blanks are.  A line comment runs up
    to the next newline or to the end of the input; a block comment runs
    up to and over the first [*/] after its [/*], and its newlines are
    not counted; the [*] of [/*] can be the [*] of that [*/], so [/*/] is
    a whole comment; a block comment that is never closed takes the rest
    of the input without an error, and [parse_token] returns [None]. *)
Theorem comments_are_skipped :
  (forall (pre body rest : string) (ln : nat),
      no_newline body = true ->
      match rest with
      | EmptyString => True
      | String c _ => c = newline
      end ->
      Lexer.skip_whitespace (Lexer.mk (pre ++ "//" ++ body ++ rest) ln (String.length pre))
      = Lexer.skip_whitespace
          (Lexer.mk (pre ++ "//" ++ body ++ rest) ln
                    (String.length pre + 2 + String.length body)))
  /\ (forall (pre body rest : string) (ln : nat),
         has_close ("*" ++ body) = false ->
         Lexer.skip_whitespace
           (Lexer.mk (pre ++ "/*" ++ body ++ "*/" ++ rest) ln (String.length pre))
         = Lexer.skip_whitespace
             (Lexer.mk (pre ++ "/*" ++ body ++ "*/" ++ rest) ln
                       (String.length pre + String.length body + 4)))
  /\ (forall (pre rest : string) (ln : nat),
         Lexer.skip_whitespace (Lexer.mk (pre ++ "/*/" ++ rest) ln (String.length pre))
         = Lexer.skip_whitespace
             (Lexer.mk (pre ++ "/*/" ++ rest) ln (String.length pre + 3)))
  /\ (forall (pre body : string) (ln : nat),
         has_close ("*" ++ body) = false ->
         Lexer.parse_token (Lexer.mk (pre ++ "/*" ++ body) ln (String.length pre))
         = (Val None,
            Lexer.mk (pre ++ "/*" ++ body) ln (String.length pre + String.length body + 2))).
Proof.
  split; [|split; [|split]].
  - exact skip_whitespace_line_comment.
  - exact skip_whitespace_block_comment.
  - exact skip_whitespace_slash_star_slash.
  - exact parse_token_open_comment.
Qed.

(** A block comment of two lines between two words, and one that is not
    closed. *)
Lemma comments_are_skipped_witness :
  Lexer.skip_whitespace
    (Lexer.mk ("a" ++ "/*" ++ String "x" (String newline "y") ++ "*/" ++ " b") 1 1)
  = Lexer.skip_whitespace
      (Lexer.mk ("a" ++ "/*" ++ String "x" (String newline "y") ++ "*/" ++ " b") 1 (1 + 3 + 4))
  /\ Lexer.parse_token
       (Lexer.mk ("a" ++ "/*" ++ String "x" (String newline "y") ++ "*/" ++ " b") 1 1)
     = (Val (Some "b"),
        Lexer.mk ("a" ++ "/*" ++ String "x" (String newline "y") ++ "*/" ++ " b") 1 10)
  /\ Lexer.parse_token (Lexer.mk ("a" ++ "/*" ++ " never closed") 1 1)
     = (Val None, Lexer.mk ("a" ++ "/*" ++ " never closed") 1 (1 + 13 + 2)).
Proof.
  split; [|split].
  - exact (proj1 (proj2 comments_are_skipped) "a" (String "x" (String newline "y")) " b" 1
                 eq_refl).
  - vm_compute. reflexivity.
  - exact (proj2 (proj2 (proj2 comments_are_skipped)) "a" " never closed" 1 eq_refl).
Defined.

(** ** The exported document *)

Section Document.
Import ExportMap.
Variable world_mesh : Object -> res Mesh.
Variable quads_convert_to_tris : Mesh -> Mesh.
Variable degrees : float -> float.
Variable euler_to_matrix : vec3 -> vec3 * vec3 * vec3.







End Document.



(** ** What a mesh needs to be exported *)

Section Needs.
Import ExportMap.
Variable world_mesh : Object -> res Mesh.
Variable quads_convert_to_tris : Mesh -> Mesh.

Lemma item_raises {A} (l : list A) (i : nat) (e : exn) : item l i = Exn e -> e = IndexError.
Proof. unfold item. destruct (l !! i); [discriminate | now intros [= <-]]. Qed.

Lemma collect_loops_raises (mesh : Mesh) (vm : list (list entry)) (e : exn) :
  collect_loops mesh vm = Exn e -> e = IndexError.
Proof.
  unfold collect_loops. revert vm.
  induction (polygons mesh) as [|p ps IH]; intros vm H; cbn [for_fold] in H; [discriminate|].
  destruct (for_fold _ (loop_indices p) vm) as [vm1|e1] eqn:E; cbn [rbind] in H.
  - now apply IH in H.
  - injection H as <-. clear IH. revert vm E.
    induction (loop_indices p) as [|i cs IHc]; intros vm E; cbn [for_fold] in E;
      [discriminate|].
    destruct (item (loops mesh) i) as [loop|e2] eqn:E2; cbn [rbind] in E.
    + unfold append_loop in E at 1.
      destruct (item vm (vertex_index loop)) as [row|e3] eqn:E3; cbn [rbind] in E.
      * now apply IHc in E.
      * injection E as <-. now apply item_raises in E3.
    + injection E as <-. now apply item_raises in E2.
Qed.

Lemma make_vert_raises (mesh : Mesh) (v : MeshVertex) (x : entry) (e : exn) :
  make_vert mesh v x = Exn e -> e = IndexError.
Proof.
  unfold make_vert. destruct (item (uv_layers mesh) 0) as [layer|e1] eqn:E1; cbn [rbind].
  - destruct (item layer (snd x)) as [uv|e2] eqn:E2; cbn [rbind]; [discriminate|].
    intros [= <-]. now apply item_raises in E2.
  - intros [= <-]. now apply item_raises in E1.
Qed.

Lemma for_each_raises {A B} (f : A -> res B) (l : list A) (e : exn) :
  (forall a e, f a = Exn e -> e = IndexError) ->
  for_each f l = Exn e -> e = IndexError.
Proof.
  intros Hf. induction l as [|a l IH]; cbn [for_each]; [discriminate|].
  destruct (f a) as [b|e1] eqn:E1; cbn [rbind].
  - destruct (for_each f l) as [bs|e2]; cbn [rbind]; [discriminate|].
    intros [= <-]. now apply IH.
  - intros [= <-]. now apply Hf in E1.
Qed.

Lemma make_verts_raises (mesh : Mesh) (vs : list MeshVertex) :
  forall (i : nat) (vm : list (list entry)) (e : exn),
    make_verts mesh i vs vm = Exn e -> e = IndexError.
Proof.
  induction vs as [|v vs IH]; intros i vm e; cbn [make_verts]; [discriminate|].
  destruct (item vm i) as [row|e1] eqn:E1; cbn [rbind];
    [|intros [= <-]; now apply item_raises in E1].
  destruct (for_each (make_vert mesh v) row) as [here|e2] eqn:E2; cbn [rbind].
  - destruct (make_verts mesh (i + 1) vs vm) as [rest|e3] eqn:E3; cbn [rbind]; [discriminate|].
    intros [= <-]. now apply IH in E3.
  - intros [= <-]. apply for_each_raises in E2; [exact E2|]. apply make_vert_raises.
Qed.

(** The loop of index [i] is filed in [vm]: the row of its vertex has an
    entry for it. *)
#[local] Abbreviation filed vm loop :=
  (exists row, vm !! vertex_index loop = Some row /\ index loop ∈ map snd row).

Lemma append_loop_files (vm vm' : list (list entry)) (loop : MeshLoop) :
  append_loop vm loop = Val vm' ->
  filed vm' loop /\ forall l, filed vm l -> filed vm' l.
Proof.
  unfold append_loop. destruct (item vm (vertex_index loop)) as [row|] eqn:E; [|discriminate].
  cbn [rbind]. intros [= <-]. apply item_val in E.
  pose proof (lookup_lt_Some _ _ _ E) as Hlt. split.
  - exists (row ++ [(0, index loop)])%list. split; [now apply list_lookup_insert_eq|].
    rewrite map_app. apply elem_of_app. right. apply list_elem_of_here.
  - intros l (r & Hr & Hin). destruct (decide (vertex_index l = vertex_index loop)) as [Heq|Hne].
    + exists (row ++ [(0, index loop)])%list. rewrite Heq.
      split; [now apply list_lookup_insert_eq|].
      rewrite Heq in Hr. assert (Hrr : Some r = Some row) by exact (eq_trans (eq_sym Hr) E).
      injection Hrr as ->. rewrite map_app. apply elem_of_app. now left.
    + exists r. split; [|exact Hin]. now rewrite list_lookup_insert_ne by auto.
Qed.

Lemma corners_filed (mesh : Mesh) (cs : list nat) :
  forall vm vm' : list (list entry),
    for_fold (fun vm i => do* loop := item (loops mesh) i in append_loop vm loop) cs vm
    = Val vm' ->
    (forall i loop, i ∈ cs -> loops mesh !! i = Some loop -> filed vm' loop)
    /\ forall l, filed vm l -> filed vm' l.
Proof.
  induction cs as [|i cs IH]; intros vm vm' H; cbn [for_fold] in H.
  - injection H as <-. split; [intros i loop Hi; inversion Hi | auto].
  - destruct (item (loops mesh) i) as [loop|] eqn:E; [|discriminate]. cbn [rbind] in H.
    destruct (append_loop vm loop) as [vm1|] eqn:E1; [|discriminate]. cbn [rbind] in H.
    apply item_val in E. apply append_loop_files in E1 as [F1 F2].
    destruct (IH _ _ H) as [G1 G2]. split.
    + intros j l Hj Hl. apply elem_of_cons in Hj as [->|Hj].
      * assert (l = loop) as -> by congruence. now apply G2.
      * now apply (G1 j).
    + intros l Hl. now apply G2, F2.
Qed.

Lemma collect_loops_filed (mesh : Mesh) (vm vm' : list (list entry)) :
  collect_loops mesh vm = Val vm' ->
  forall i loop, i ∈ face_corners mesh -> loops mesh !! i = Some loop -> filed vm' loop.
Proof.
  unfold collect_loops, face_corners. revert vm.
  induction (polygons mesh) as [|p ps IH]; intros vm H i loop Hi Hl; [inversion Hi|].
  cbn [for_fold] in H.
  destruct (for_fold _ (loop_indices p) vm) as [vm1|] eqn:E; [|discriminate].
  cbn [rbind] in H. cbn [flat_map] in Hi. apply elem_of_app in Hi as [Hi|Hi].
  - destruct (corners_filed _ _ _ _ E) as [G1 _]. specialize (G1 i loop Hi Hl).
    clear E IH Hi. revert vm1 H G1.
    induction ps as [|q ps IHq]; intros vm1 H G1; cbn [for_fold] in H.
    + now injection H as <-.
    + destruct (for_fold _ (loop_indices q) vm1) as [vm2|] eqn:E2; [|discriminate].
      cbn [rbind] in H. apply (IHq vm2 H). now apply (corners_filed _ _ _ _ E2).
  - now apply (IH vm1 H i loop).
Qed.

Lemma number_row_snd (row : list entry) :
  forall n, map snd (fst (number_row n row)) = map snd row.
Proof.
  induction row as [|[a l] row IH]; intros n; cbn [number_row]; [reflexivity|].
  specialize (IH (n + 1)). destruct (number_row (n + 1) row) as [r m].
  cbn [fst map snd] in *. now rewrite IH.
Qed.

Lemma number_rows_filed (vm : list (list entry)) (loop : MeshLoop) :
  forall n, filed vm loop -> filed (fst (number_rows n vm)) loop.
Proof.
  generalize (vertex_index loop) as r. induction vm as [|row vm IH]; intros r n (x & Hx & Hin).
  - discriminate Hx.
  - cbn [number_rows]. pose proof (number_row_snd row n) as S1.
    destruct (number_row n row) as [row' m]. cbn [fst] in S1.
    specialize (IH (pred r) m). destruct (number_rows m vm) as [rs m']. cbn [fst] in *.
    destruct r as [|r].
    + injection Hx as <-. exists row'. split; [reflexivity|]. now rewrite S1.
    + cbn in Hx. destruct IH as (y & Hy & Hyin); [now exists x|]. now exists y.
Qed.

Lemma next_entry_filed (row : list entry) (loop_index : nat) :
  loop_index ∈ map snd row -> exists x, next_entry row loop_index = Val x.
Proof.
  intros H. unfold next_entry.
  destruct (List.find (fun x => snd x =? loop_index) row) as [x|] eqn:E; [now exists x|].
  exfalso. apply list_elem_of_fmap in H as (x & -> & Hx).
  apply list_elem_of_In in Hx. apply (List.find_none _ _ E) in Hx.
  now rewrite Nat.eqb_refl in Hx.
Qed.

Lemma corner_index_raises (mesh : Mesh) (vm : list (list entry)) (i : nat) (e : exn) :
  (forall loop, loops mesh !! i = Some loop -> filed vm loop) ->
  corner_index mesh vm i = Exn e -> e = IndexError.
Proof.
  intros Hf. unfold corner_index.
  destruct (item (loops mesh) i) as [loop|e1] eqn:E1; cbn [rbind];
    [|intros [= <-]; now apply item_raises in E1].
  destruct (item (vertices mesh) (vertex_index loop)) as [v|e2] eqn:E2; cbn [rbind];
    [|intros [= <-]; now apply item_raises in E2].
  destruct (item (uv_layers mesh) 0) as [layer|e3] eqn:E3; cbn [rbind];
    [|intros [= <-]; now apply item_raises in E3].
  destruct (item layer (index loop)) as [uv|e4] eqn:E4; cbn [rbind];
    [|intros [= <-]; now apply item_raises in E4].
  destruct (item vm (vertex_index loop)) as [row|e5] eqn:E5; cbn [rbind];
    [|intros [= <-]; now apply item_raises in E5].
  apply item_val in E1, E5. destruct (Hf loop E1) as (row' & Hr & Hin).
  assert (Hrr : Some row' = Some row) by exact (eq_trans (eq_sym Hr) E5).
  injection Hrr as ->.
  destruct (next_entry_filed row (index loop) Hin) as [x ->]. discriminate.
Qed.

Lemma make_poly_raises (mesh : Mesh) (vm : list (list entry)) (p : MeshPolygon) (e : exn) :
  (forall i loop, i ∈ loop_indices p -> loops mesh !! i = Some loop -> filed vm loop) ->
  make_poly mesh vm p = Exn e -> e = IndexError.
Proof.
  intros Hf. unfold make_poly.
  destruct (item (materials mesh) (material_index p)) as [slot|e1] eqn:E1; cbn [rbind];
    [|intros [= <-]; now apply item_raises in E1].
  destruct (for_each (corner_index mesh vm) (loop_indices p)) as [ixs|e2] eqn:E2; cbn [rbind];
    [discriminate|].
  intros [= <-]. clear E1. revert E2 Hf.
  induction (loop_indices p) as [|i cs IH]; cbn [for_each]; [discriminate|]. intros E2 Hf.
  destruct (corner_index mesh vm i) as [k|e3] eqn:E3; cbn [rbind] in E2.
  - destruct (for_each (corner_index mesh vm) cs) as [ks|e4] eqn:E4; cbn [rbind] in E2;
      [discriminate|].
    injection E2 as <-. apply IH; [reflexivity|].
    intros j loop Hj. apply Hf. now apply list_elem_of_further.
  - injection E2 as <-. apply corner_index_raises in E3; [exact E3|].
    intros loop. apply Hf. apply list_elem_of_here.
Qed.

Lemma polys_raise (mesh : Mesh) (vm : list (list entry)) (e : exn) :
  (forall i loop, i ∈ face_corners mesh -> loops mesh !! i = Some loop -> filed vm loop) ->
  for_each (make_poly mesh vm) (polygons mesh) = Exn e -> e = IndexError.
Proof.
  unfold face_corners. induction (polygons mesh) as [|p ps IH]; intros Hf; cbn [for_each];
    [discriminate|].
  destruct (make_poly mesh vm p) as [poly|e1] eqn:E1; cbn [rbind].
  - destruct (for_each (make_poly mesh vm) ps) as [out|e2] eqn:E2; cbn [rbind]; [discriminate|].
    intros [= <-]. apply IH; [|reflexivity].
    intros i loop Hi. apply Hf. cbn [flat_map]. apply elem_of_app. now right.
  - intros [= <-]. apply make_poly_raises in E1; [exact E1|].
    intros i loop Hi. apply Hf. cbn [flat_map]. apply elem_of_app. now left.
Qed.

Lemma create_primitive_raises (obj : Object) (index : nat) (temp : Mesh) (e : exn) :
  world_mesh obj = Val temp ->
  create_primitive world_mesh quads_convert_to_tris obj index = Exn e -> e = IndexError.
Proof.
  intros Hw. unfold create_primitive. rewrite Hw. cbn [rbind].
  set (mesh := quads_convert_to_tris temp).
  destruct (collect_loops mesh _) as [vm0|e0] eqn:E0; cbn [rbind];
    [|intros [= <-]; now apply collect_loops_raises in E0].
  pose proof (fun n i loop Hi Hl =>
                number_rows_filed vm0 loop n (collect_loops_filed _ _ _ E0 i loop Hi Hl)) as F.
  specialize (F 0). destruct (number_rows 0 vm0) as [vm n]. cbn [fst] in F.
  destruct (make_verts mesh 0 (vertices mesh) vm) as [vs|e1] eqn:E1; cbn [rbind];
    [|intros [= <-]; now apply make_verts_raises in E1].
  destruct (for_each (make_poly mesh vm) (polygons mesh)) as [ps|e2] eqn:E2; cbn [rbind];
    [discriminate|].
  intros [= <-]. now apply polys_raise in E2.
Qed.

Lemma concat_nonempty {A} (l : list (list A)) :
  concat l <> [] -> exists r row x, l !! r = Some row /\ row !! 0 = Some x.
Proof.
  induction l as [|row l IH]; intros H; [now contradiction H|].
  destruct row as [|x row].
  - destruct (IH H) as (r & row' & x & Hr & Hx). now exists (S r), row', x.
  - now exists 0, (x :: row), x.
Qed.

End Needs.

(** X16.  [create_primitive] on a mesh the host hands over raises nothing
    but [IndexError]: the search of [vert_map] for the entry of a face
    corner always finds one, every corner having been filed there by the
    first pass.  And it does raise [IndexError] on a mesh that has a face
    corner and no UV layer, and on a mesh that has a polygon and no
    material. *)
Theorem create_primitive_raises_only_index_error :
  forall (world_mesh : ExportMap.Object -> res ExportMap.Mesh)
         (quads_convert_to_tris : ExportMap.Mesh -> ExportMap.Mesh)
         (obj : ExportMap.Object) (index : nat) (temp : ExportMap.Mesh),
    world_mesh obj = Val temp ->
    (forall e, ExportMap.create_primitive world_mesh quads_convert_to_tris obj index = Exn e ->
               e = IndexError)
    /\ (ExportMap.uv_layers (quads_convert_to_tris temp) = [] ->
        face_corners (quads_convert_to_tris temp) <> [] ->
        ExportMap.create_primitive world_mesh quads_convert_to_tris obj index
        = Exn IndexError)
    /\ (ExportMap.materials (quads_convert_to_tris temp) = [] ->
        ExportMap.polygons (quads_convert_to_tris temp) <> [] ->
        ExportMap.create_primitive world_mesh quads_convert_to_tris obj index
        = Exn IndexError).
Proof.
  intros wm tris obj index temp Hw.
  assert (H1 : forall e, ExportMap.create_primitive wm tris obj index = Exn e ->
                         e = IndexError)
    by (intros e; now apply create_primitive_raises with (temp := temp)).
  split; [exact H1|]. split.
  - intros Huv Hc.
    destruct (ExportMap.create_primitive wm tris obj index) as [P|e] eqn:E;
      [|now rewrite (H1 e eq_refl)].
    exfalso.
    destruct (create_primitive_passes wm tris obj index temp P Hw E) as (vm0 & C & V & _).
    cbn zeta in *. set (mesh := tris temp) in *.
    destruct (collect_loops_shape mesh vm0 C) as [L1 L2].
    destruct (number_rows_spec vm0 0) as (_ & N1 & N2 & _).
    destruct (concat_nonempty (fst (ExportMap.number_rows 0 vm0))) as (r & row & x & Hr & Hx).
    { intros Hnil. rewrite Hnil in N2. cbn [length] in N2.
      apply Hc. apply length_zero_iff_nil. lia. }
    pose proof (lookup_lt_Some _ _ _ Hr) as Hlt. rewrite N1, L1 in Hlt.
    destruct (lookup_lt_is_Some_2 _ _ Hlt) as [v Hv].
    destruct (make_verts_spec mesh _ _ _ _ V) as [_ M].
    destruct (M r v row 0 x Hv Hr Hx) as (vert & _ & Hm).
    unfold ExportMap.make_vert, item in Hm. rewrite Huv in Hm. discriminate Hm.
  - intros Hm Hp.
    destruct (ExportMap.create_primitive wm tris obj index) as [P|e] eqn:E;
      [|now rewrite (H1 e eq_refl)].
    exfalso.
    destruct (create_primitive_passes wm tris obj index temp P Hw E) as (vm0 & _ & _ & F & _).
    cbn zeta in *. set (mesh := tris temp) in *.
    destruct (ExportMap.polygons mesh) as [|p ps]; [now contradiction Hp|].
    cbn [for_each] in F. unfold ExportMap.make_poly at 1, item in F. rewrite Hm in F.
    discriminate F.
Qed.

(** A cube that has lost its materials. *)
Lemma create_primitive_raises_only_index_error_witness :
  ExportMap.create_primitive (fun _ => Val cube_without_materials)
    ExportMap.fan_triangulate cube 0
  = Exn IndexError.
Proof.
  refine (proj2 (proj2 (create_primitive_raises_only_index_error
                          (fun _ => Val cube_without_materials) ExportMap.fan_triangulate
                          cube 0 cube_without_materials eq_refl)) eq_refl _).
  vm_compute. discriminate.
Defined.

(** ** Numbers that print without decimals *)

Section WholeNumbers.

Lemma round_half_even_exact (k den : Z) :
  (0 < den)%Z -> round_half_even (k * den) den = k.
Proof.
  intros Hd. unfold round_half_even.
  rewrite Z.div_mul by lia. rewrite Z.mod_mul by lia.
  destruct (Z.compare_spec (2 * 0) den) as [H|H|H]; lia.
Qed.

Lemma round_half_even_small (num den : Z) :
  (0 <= num)%Z -> (2 * num < den)%Z -> round_half_even num den = 0%Z.
Proof.
  intros Hn Hd. unfold round_half_even.
  rewrite Z.div_small by lia. rewrite Z.mod_small by lia.
  destruct (Z.compare_spec (2 * num) den) as [H|H|H]; lia.
Qed.

Lemma ftos_whole (a : float) (s : bool) (m : positive) (e : Z) (k : Z) :
  Prim2SF a = S754_finite s m e ->
  micro_units m e = (k * 1000000)%Z ->
  ftos a = sign s ++ decimal k.
Proof.
  intros H Hn. destruct (ftos_finite a s m e H) as (_ & _ & Hf). cbn zeta in Hf.
  rewrite Hn in Hf. rewrite Z.div_mul, Z.mod_mul in Hf by lia. exact Hf.
Qed.

End WholeNumbers.

(** X17.  What [ftos] makes of the numbers that have no decimals to show.
    A value of magnitude below 0.0000005 is written [0], and [-0] when it
    is negative, as the near-zero entries of a rotation matrix are; a
    whole number is written by its digits alone, with no point. *)
Theorem ftos_without_decimals :
  (forall (a : float) (s : bool) (m : positive) (e : Z),
      Prim2SF a = S754_finite s m e ->
      (e < 0)%Z ->
      (2 * (Z.pos m * 1000000) < 2 ^ (- e))%Z ->
      ftos a = sign s ++ "0")
  /\ (forall (a : float) (s : bool) (m : positive) (e : Z) (k : Z),
         Prim2SF a = S754_finite s m e ->
         (0 <= e /\ k = Z.pos m * 2 ^ e)%Z \/ (e < 0 /\ Z.pos m = k * 2 ^ (- e))%Z ->
         ftos a = sign s ++ decimal k).
Proof.
  split.
  - intros a s m e H He Hs. apply (ftos_whole a s m e 0 H).
    unfold micro_units. destruct (Z.leb_spec 0 e) as [Hle|_]; [lia|].
    now apply round_half_even_small.
  - intros a s m e k H Hk. apply (ftos_whole a s m e k H). unfold micro_units.
    destruct Hk as [[He ->]|[He Hm]].
    + destruct (Z.leb_spec 0 e) as [_|Hlt]; [reflexivity|lia].
    + destruct (Z.leb_spec 0 e) as [Hle|_]; [lia|]. rewrite Hm.
      replace (k * 2 ^ (- e) * 1000000)%Z with (k * 1000000 * 2 ^ (- e))%Z by ring.
      apply round_half_even_exact. apply Z.pow_pos_nonneg; lia.
Qed.

(** Two to the power -24 below zero, and three. *)
Lemma ftos_without_decimals_witness :
  ftos (-0x1p-24)%float = "-0" /\ ftos 3%float = "3".
Proof.
  split.
  - change "-0" with (sign true ++ "0").
    eapply (proj1 ftos_without_decimals (-0x1p-24)%float true);
      vm_compute; reflexivity.
  - change "3" with (sign false ++ decimal 3).
    eapply (proj2 ftos_without_decimals 3%float false _ _ 3%Z);
      [vm_compute; reflexivity | right; split; vm_compute; reflexivity].
Defined.

(** ** The files an importer reads *)

Section Unseen.
Variable basename : string -> string.

#[local] Abbreviation base c := (basename (snd c)).





Lemma unseen_app (l1 l2 : list (string * string)) :
  forall touched : list string,
    unseen basename (l1 ++ l2) touched
    = (unseen basename l1 touched
       ++ unseen basename l2 (touched ++ map (fun c => base c) (unseen basename l1 touched)))%list.
Proof.
  induction l1 as [|c l1 IH]; intros touched; cbn [app unseen map].
  - now rewrite app_nil_r.
  - destruct (negb _); [|apply IH].
    cbn [app map]. rewrite IH. now rewrite <- app_assoc.
Qed.

End Unseen.

Section ForEachFile.
Variable resolve : string -> string.
Variable join : string -> string -> string.
Variable path_exists : string -> bool.
Variable glob : string -> list string.
Variable basename : string -> string.
Context {S : Type}.
Variable callback : string -> string -> W S unit.

#[local] Abbreviation base c := (basename (snd c)).

Lemma run_all_app (l1 l2 : list (string * string)) (st : S) :
  run_all callback (l1 ++ l2) st
  = wbind (run_all callback l1) (fun _ => run_all callback l2) st.
Proof.
  revert st. induction l1 as [|c l1 IH]; intros st; cbn [app run_all]; [reflexivity|].
  unfold wbind in *. cbv beta.
  destruct (callback (fst c) (snd c) st) as [[[[]|e] st1]|]; [|reflexivity|reflexivity].
  apply IH.
Qed.

Lemma files_loop_runs (full_path : string) (files : list string) :
  forall (touched : list string) (st : S),
    FileSystem.files_loop basename callback full_path files touched st
    = wbind (run_all callback (unseen basename (map (pair full_path) files) touched))
            (fun _ st' =>
               Some (Val (touched
                          ++ map (fun c => base c)
                                 (unseen basename (map (pair full_path) files) touched))%list,
                     st'))
            st.
Proof.
  induction files as [|f files IH]; intros touched st;
    cbn [FileSystem.files_loop map unseen snd].
  - unfold wbind. cbn [run_all]. now rewrite app_nil_r.
  - destruct (negb (existsb (String.eqb (basename f)) touched)); [|apply IH].
    cbn [run_all fst snd map]. unfold wbind in *. cbv beta.
    destruct (callback full_path f st) as [[[[]|e] st1]|]; [|reflexivity|reflexivity].
    rewrite IH.
    destruct (run_all callback _ st1) as [[[[]|e] st2]|]; [|reflexivity|reflexivity].
    now rewrite <- app_assoc.
Qed.

Lemma dirs_loop_runs (game_path pattern : string) (dirs : list string) :
  forall (touched : list string) (st : S),
    FileSystem.dirs_loop resolve join path_exists glob basename callback
                         game_path pattern dirs touched st
    = run_all callback
              (unseen basename
                      (candidates resolve join path_exists glob (FileSystem.mk dirs)
                                  game_path pattern) touched) st.
Proof.
  unfold candidates. cbn [FileSystem.search_dirs].
  induction dirs as [|d dirs IH]; intros touched st;
    cbn [FileSystem.dirs_loop flat_map]; [reflexivity|].
  destruct (path_exists (join (resolve game_path) d)).
  - rewrite unseen_app, run_all_app. unfold wbind at 1. rewrite files_loop_runs.
    unfold wbind. cbv beta.
    destruct (run_all callback _ st) as [[[[]|e] st1]|]; [|reflexivity|reflexivity].
    apply IH.
  - cbn [app]. apply IH.
Qed.

End ForEachFile.


(** ** The entity importer *)

Section ImportEntitiesFacts.
Import ImportEntities.
Variable read_file : string -> string.
Variable none_as_string : res string.
Variable table : list Entities.EntityPropGroup.

(** The table has grown from [table] by new names, and [created] counts
    them: all of them when [exact], no more than them otherwise. *)
#[local] Abbreviation grown st exact :=
  (exists added : list string,
      map Entities.name (entities st) = (map Entities.name table ++ added)%list
      /\ NoDup added
      /\ (forall n, n ∈ added -> n ∉ map Entities.name table)
      /\ if exact : bool then num_entities_created st = length added
         else num_entities_created st <= length added).

Lemma grown_weaken (st : state) : grown st true -> grown st false.
Proof.
  intros (added & H1 & H2 & H3 & H4). exists added. repeat split; auto. lia.
Qed.

Lemma pdf_grows (fuel : nat) (search_path filename : string) (st st' : state) (r : res unit) :
  pdf read_file none_as_string fuel search_path filename st = Some (r, st') ->
  (grown st false -> grown st' false)
  /\ (grown st true -> grown st' (match r with Val _ => true | Exn _ => false end)).
Proof.
  unfold pdf, Entities.parse_def_file.
  destruct (Entities.file_loop none_as_string fuel 0 0 _) as [[r' s']|] eqn:E; [|discriminate].
  destruct (file_loop_grows none_as_string _ _ _ _ _ _ E) as (new & N1 & N2 & N3 & N4).
  cbn [decls] in N1, N3.
  assert (G : forall added,
             map Entities.name (entities st) = (map Entities.name table ++ added)%list ->
             NoDup added ->
             (forall n, n ∈ added -> n ∉ map Entities.name table) ->
             map Entities.name (decls s') = (map Entities.name table ++ (added ++ new))%list
             /\ NoDup (added ++ new)
             /\ (forall n, n ∈ (added ++ new)%list -> n ∉ map Entities.name table)).
  { intros added H1 H2 H3. rewrite N1, H1, <- app_assoc. split; [reflexivity|]. split.
    - apply NoDup_app. split; [exact H2|]. split; [|exact N2].
      intros x Hx Hx'. apply (N3 x Hx'). rewrite H1. apply elem_of_app. now right.
    - intros n Hn. apply elem_of_app in Hn as [Hn|Hn]; [now apply H3|].
      intros Hn'. apply (N3 n Hn). rewrite H1. apply elem_of_app. now left. }
  destruct r' as [[c u]|e]; intros [= <- <-]; cbn [entities num_entities_created]; split;
    intros (added & H1 & H2 & H3 & H4); destruct (G added H1 H2 H3) as (G1 & G2 & G3);
    exists (added ++ new)%list; (split; [exact G1|]); (split; [exact G2|]);
    (split; [exact G3|]); rewrite length_app; lia.
Qed.

Lemma run_all_grows (fuel : nat) (l : list (string * string)) :
  forall (st st' : state) (r : res unit),
    run_all (pdf read_file none_as_string fuel) l st = Some (r, st') ->
    grown st true ->
    grown st' (match r with Val _ => true | Exn _ => false end).
Proof.
  induction l as [|c l IH]; intros st st' r H G; cbn [run_all] in H.
  - injection H as <- <-. exact G.
  - unfold wbind in H.
    destruct (pdf read_file none_as_string fuel (fst c) (snd c) st) as [[[[]|e] st1]|] eqn:E;
      [| |discriminate].
    + apply (IH _ _ _ H). now apply (pdf_grows _ _ _ _ _ _ E).
    + injection H as <- <-. now apply (pdf_grows _ _ _ _ _ _ E).
Qed.

End ImportEntitiesFacts.

(** X19.  What [ImportEntities.execute] reports is what it did to the
    table.  Without a game path it reports the error and touches
    nothing.  With one, the table comes out as it was with new names at
    its end, each once; when no file raises, the report is
    [Imported c entities, updated u] with [c] the number of those names;
    when a file raises, the names entered so far stay and the counter is
    at most their number. *)
Theorem import_entities_reports_what_it_adds :
  forall (resolve : string -> string) (join : string -> string -> string)
         (path_exists : string -> bool) (glob : string -> list string)
         (basename : string -> string) (read_file : string -> string)
         (none_as_string : res string)
         (fuel : nat) (game_path mod_dir : string)
         (table table' : list Entities.EntityPropGroup)
         (r : res (list (string * string))) (counters : option (nat * nat)),
    ImportEntities.execute resolve join path_exists glob basename read_file none_as_string
                           fuel game_path mod_dir table
    = Some (r, table', counters) ->
    (game_path = ""
     /\ r = Val [("ERROR", "RBDOOM-3-BFG path not set")]
     /\ table' = table /\ counters = None)
    \/ (game_path <> ""
        /\ exists (created updated : nat) (added : list string),
            counters = Some (created, updated)
            /\ map Entities.name table' = (map Entities.name table ++ added)%list
            /\ NoDup added
            /\ (forall n, n ∈ added -> n ∉ map Entities.name table)
            /\ match r with
               | Val reports =>
                   created = length added
                   /\ reports = [("INFO", ImportEntities.imported_message created updated)]
               | Exn _ => created <= length added
               end).
Proof.
  intros resolve join path_exists glob basename read_file nas fuel game_path mod_dir
         table table' r counters H.
  unfold ImportEntities.execute in H. destruct game_path as [|c g]; cbn [truthy] in H.
  - left. now injection H as <- <- <-.
  - right. split; [discriminate|].
    unfold FileSystem.for_each_file in H. rewrite dirs_loop_runs in H.
    set (visited := unseen basename _ []) in H.
    destruct (run_all _ visited _) as [[r0 st]|] eqn:E; [|discriminate].
    assert (G0 : exists added : list string,
               map Entities.name table = (map Entities.name table ++ added)%list
               /\ NoDup added
               /\ (forall n, n ∈ added -> n ∉ map Entities.name table)
               /\ 0 = length added).
    { exists []. rewrite app_nil_r. repeat split; [constructor|]. intros n Hn. inversion Hn. }
    pose proof (run_all_grows read_file nas table fuel visited _ _ _ E G0) as G.
    destruct G as (added & G1 & G2 & G3 & G4).
    destruct r0 as [[]|e]; injection H as <- <- <-;
      exists (ImportEntities.num_entities_created st),
             (ImportEntities.num_entities_updated st), added; repeat split; auto.
Qed.

(** A game directory with one definition file in [base], which declares
    two entities. *)
Lemma import_entities_reports_what_it_adds_witness :
  ImportEntities.execute (fun p => p) (fun a b => a ++ "/" ++ b)
    (fun p => String.eqb p "game/base")
    (fun p => if String.eqb p "game/base/def\*.def" then ["game/base/def/a.def"] else [])
    (fun f => f) (fun _ => "entityDef a { } entityDef b { }") (Exn TypeError)
    9 "game" "" [Entities.mk "b" "1 1 1" "" "" ""]
  = Some (Val [("INFO", "Imported 1 entities, updated 1")],
          [Entities.mk "b" "0 0 1" "" "" ""; Entities.mk "a" "0 0 1" "" "" ""],
          Some (1, 1))
  /\ (("game" = ""
       /\ Val [("INFO", "Imported 1 entities, updated 1")]
          = Val [("ERROR", "RBDOOM-3-BFG path not set")]
       /\ [Entities.mk "b" "0 0 1" "" "" ""; Entities.mk "a" "0 0 1" "" "" ""]
          = [Entities.mk "b" "1 1 1" "" "" ""]
       /\ Some (1, 1) = None)
      \/ ("game" <> ""
          /\ exists (created updated : nat) (added : list string),
              Some (1, 1) = Some (created, updated)
              /\ map Entities.name
                     [Entities.mk "b" "0 0 1" "" "" ""; Entities.mk "a" "0 0 1" "" "" ""]
                 = (map Entities.name [Entities.mk "b" "1 1 1" "" "" ""] ++ added)%list
              /\ NoDup added
              /\ (forall n, n ∈ added ->
                            n ∉ map Entities.name [Entities.mk "b" "1 1 1" "" "" ""])
              /\ created = length added
              /\ [("INFO", "Imported 1 entities, updated 1")]
                 = [("INFO", ImportEntities.imported_message created updated)])).
Proof.
  split; [vm_compute; reflexivity|].
  apply (import_entities_reports_what_it_adds (fun p => p) (fun a b => a ++ "/" ++ b)
           (fun p => String.eqb p "game/base")
           (fun p => if String.eqb p "game/base/def\*.def" then ["game/base/def/a.def"] else [])
           (fun f => f) (fun _ => "entityDef a { } entityDef b { }") (Exn TypeError)
           9 "game" "" [Entities.mk "b" "1 1 1" "" "" ""] _
           (Val [("INFO", "Imported 1 entities, updated 1")]) (Some (1, 1))).
  vm_compute. reflexivity.
Defined.

(** ** The directories of the materials *)

Section MaterialPaths.
Import ImportMaterials.
Variable dirname : string -> string.

#[local] Abbreviation dir d := (dirname (Materials.name d)).


End MaterialPaths.


(** ** Stages and depth *)

Section Yields.
Context {T : Type}.

Lemma yields_ret {A} (Q : A -> Prop) (a : A) : Q a -> yields Q (@ret T A a).
Proof. intros H s x s' [= <- <-]. exact H. Qed.

Lemma yields_bind {A B} (Q1 : A -> Prop) (Q2 : B -> Prop) (m : M T A) (k : A -> M T B) :
  yields Q1 m -> (forall a, Q1 a -> yields Q2 (k a)) -> yields Q2 (bind m k).
Proof.
  intros Hm Hk s b s' H. apply bind_val_inv in H as (a & s1 & H1 & H2).
  exact (Hk a (Hm _ _ _ H1) _ _ _ H2).
Qed.

Lemma yields_any {A} (m : M T A) : yields (fun _ => True) m.
Proof. intros s a s' _. exact I. Qed.

End Yields.

Section Stage.
Import Materials.
Variable float_of_string : string -> res float.
Variable none_as_string : res string.

Lemma braces_depth (decl : nat) (token : string) (v : locals) :
  stage_at_depth v ->
  yields (fun b => forall v1, b = Some v1 -> stage_at_depth v1)
         (braces none_as_string decl token v).
Proof.
  intros [H1 H2]. unfold braces.
  destruct (String.eqb token "{").
  { destruct (Z.eqb_spec (num_required_closing v + 1) 2) as [E|E];
      apply yields_ret; intros v1 [= <-];
      (split; cbn [num_required_closing in_stage]; [lia | rewrite ?H2; lia]). }
  destruct (String.eqb token "}").
  { destruct (Z.eqb_spec (num_required_closing v - 1) 0) as [E0|E0];
      [apply yields_ret; discriminate|].
    destruct (Z.eqb_spec (num_required_closing v - 1) 1) as [E1|E1].
    - apply (yields_bind (fun _ => True)); [apply yields_any|]. intros _ _.
      apply yields_ret. intros v1 [= <-].
      split; cbn [num_required_closing in_stage]; lia.
    - apply yields_ret. intros v1 [= <-].
      split; cbn [num_required_closing in_stage]; [lia | rewrite H2; lia]. }
  apply yields_ret. intros v1 [= <-]. now split.
Qed.

Lemma stage_keys_depth (token : string) (v : locals) :
  stage_at_depth v -> yields stage_at_depth (stage_keys float_of_string token v).
Proof.
  intros Hv. unfold stage_keys.
  destruct (String.eqb (lower token) "blend").
  { apply (yields_bind (fun _ => True)); [apply yields_any|]. intros t _.
    apply yields_ret. exact Hv. }
  destruct (String.eqb (lower token) "map"); [|now apply yields_ret].
  apply (yields_bind (fun _ => True)); [apply yields_any|]. intros t _.
  apply (yields_bind (fun _ => True)); [apply yields_any|]. intros l _.
  destruct (String.eqb l "heightmap"); [|apply yields_ret; exact Hv].
  apply (yields_bind (fun _ => True)); [apply yields_any|]. intros [tex scale] _.
  apply yields_ret. exact Hv.
Qed.

Lemma body_step_depth (decl : nat) (v : locals) :
  stage_at_depth v ->
  yields (fun r => forall v', r = Some v' -> stage_at_depth v')
         (body_step float_of_string none_as_string decl v).
Proof.
  intros Hv. unfold body_step.
  apply (yields_bind (fun _ => True)); [apply yields_any|]. intros [token|] _;
    [|apply yields_ret; discriminate].
  apply (yields_bind _ _ _ _ (braces_depth decl token v Hv)). intros [v1|] H1;
    [|apply yields_ret; discriminate].
  specialize (H1 v1 eq_refl). destruct (in_stage v1).
  - apply (yields_bind _ _ _ _ (stage_keys_depth token v1 H1)). intros v2 H2.
    apply yields_ret. now intros v' [= <-].
  - apply (yields_bind (fun _ => True)); [apply yields_any|]. intros _ _.
    apply yields_ret. now intros v' [= <-].
Qed.

Lemma untouched {T A} (m : M T A) (s : pstate T) r s' :
  (forall e, writes_only_at e m) -> m s = Some (r, s') -> decls s' = decls s.
Proof.
  intros Hm H. apply list_eq. intros i. destruct (decide (i = 0)) as [->|Hi].
  - apply (Hm 1 _ _ _ 0 H). discriminate.
  - apply (Hm 0 _ _ _ i H Hi).
Qed.

Ltac only_step :=
  match goal with
  | |- writes_only_at _ (if ?b then _ else _) => destruct b
  | |- writes_only_at _ (bind _ _) => apply only_bind; [|intros ?]
  | |- writes_only_at _ (ret _) => apply only_ret
  | |- writes_only_at _ (raise _) => apply only_raise
  | |- writes_only_at _ (of_res _) => apply only_of_res
  | |- writes_only_at _ (on_lex _) => apply only_on_lex
  | |- writes_only_at _ (match ?p with (_, _) => _ end) => destruct p
  end.

Lemma stage_keys_reads (e : nat) (token : string) (v : locals) :
  writes_only_at e (stage_keys float_of_string token v).
Proof.
  unfold stage_keys, lower_of, parse_heightmap.
  repeat first [only_step | match goal with
                            | |- writes_only_at _ (match ?t with Some _ => _ | None => _ end) =>
                                destruct t
                            end].
Qed.

(** A step taken inside a stage that does not close the stage. *)
Lemma stage_step_reads (decl : nat) (v : locals) (s : pstate MaterialDeclPropGroup) r s' :
  (2 <= num_required_closing v)%Z ->
  in_stage v = true ->
  (forall lex1, Lexer.parse_token (lex s) = (Val (Some "}"), lex1) ->
                num_required_closing v <> 2%Z) ->
  body_step float_of_string none_as_string decl v s = Some (r, s') ->
  decls s' = decls s.
Proof.
  intros Hd Hs Hc. unfold body_step, bind at 1, on_lex at 1.
  destruct (Lexer.parse_token (lex s)) as [[[token|]|e] lex1] eqn:E;
    [| now intros [= <- <-] | now intros [= <- <-]].
  unfold braces. destruct (String.eqb_spec token "{") as [->|Ho].
  { destruct (Z.eqb_spec (num_required_closing v + 1) 2) as [E2|E2]; [lia|].
    unfold bind at 1, ret at 1. cbn [in_stage]. rewrite Hs. intros H.
    now rewrite (untouched _ _ _ _ (fun e => only_bind e _ _ (stage_keys_reads e _ _)
                                             (fun a => only_ret e _)) H). }
  destruct (String.eqb_spec token "}") as [->|Hcl].
  { specialize (Hc lex1 eq_refl).
    destruct (Z.eqb_spec (num_required_closing v - 1) 0) as [E0|E0]; [lia|].
    destruct (Z.eqb_spec (num_required_closing v - 1) 1) as [E1|E1]; [lia|].
    unfold bind at 1, ret at 1. cbn [in_stage]. rewrite Hs. intros H.
    now rewrite (untouched _ _ _ _ (fun e => only_bind e _ _ (stage_keys_reads e _ _)
                                             (fun a => only_ret e _)) H). }
  unfold bind at 1, ret at 1. rewrite Hs. intros H.
  now rewrite (untouched _ _ _ _ (fun e => only_bind e _ _ (stage_keys_reads e _ _)
                                           (fun a => only_ret e _)) H).
Qed.

End Stage.

(** X21.  The body loop of [parse_material_file] is in a stage exactly
    when its brace depth is two or more, at every turn: braces nested
    inside a stage neither leave it nor start another.  And while in a
    stage the declaration is written by no step but the one that reads
    the [}] closing the stage: a [diffusemap] or [bumpmap] key met there
    sets nothing. *)
Theorem stage_is_depth_two_or_more :
  forall (float_of_string : string -> res float) (none_as_string : res string)
         (decl : nat) (v : Materials.locals)
         (s s' : pstate Materials.MaterialDeclPropGroup)
         (r : res (option Materials.locals)),
    stage_at_depth v ->
    Materials.body_step float_of_string none_as_string decl v s = Some (r, s') ->
    (forall v', r = Val (Some v') -> stage_at_depth v')
    /\ ((2 <= Materials.num_required_closing v)%Z ->
        (forall lex1, Lexer.parse_token (lex s) = (Val (Some "}"), lex1) ->
                      Materials.num_required_closing v <> 2%Z) ->
        decls s' = decls s).
Proof.
  intros fos nas decl v s s' r Hv H. split.
  - intros v' ->. now apply (body_step_depth fos nas decl v Hv _ _ _ H).
  - intros Hd Hc. destruct Hv as [H1 H2].
    apply (stage_step_reads fos nas decl v s r s' Hd); [|exact Hc|exact H].
    rewrite H2. now apply Z.leb_le.
Qed.

(** A [diffusemap] key inside a stage: nothing is set. *)
Lemma stage_is_depth_two_or_more_witness :
  Materials.body_step float_of_short_decimal (Exn TypeError) 0
    (Materials.mkl 2 true None 0 None)
    (mkst (Lexer.init "diffusemap d.tga }") [Materials.mk "a" "" "" 0 "" "" ""])
  = Some (Val (Some (Materials.mkl 2 true None 0 None)),
          mkst (Lexer.mk "diffusemap d.tga }" 1 10) [Materials.mk "a" "" "" 0 "" "" ""])
  /\ stage_at_depth (Materials.mkl 2 true None 0 None)
  /\ decls (mkst (Lexer.mk "diffusemap d.tga }" 1 10) [Materials.mk "a" "" "" 0 "" "" ""])
     = decls (mkst (Lexer.init "diffusemap d.tga }") [Materials.mk "a" "" "" 0 "" "" ""]).
Proof.
  assert (Hv : stage_at_depth (Materials.mkl 2 true None 0 None))
    by (split; [cbn; lia | reflexivity]).
  assert (H : Materials.body_step float_of_short_decimal (Exn TypeError) 0
                (Materials.mkl 2 true None 0 None)
                (mkst (Lexer.init "diffusemap d.tga }") [Materials.mk "a" "" "" 0 "" "" ""])
              = Some (Val (Some (Materials.mkl 2 true None 0 None)),
                      mkst (Lexer.mk "diffusemap d.tga }" 1 10)
                           [Materials.mk "a" "" "" 0 "" "" ""]))
    by (vm_compute; reflexivity).
  split; [exact H|].
  destruct (stage_is_depth_two_or_more float_of_short_decimal (Exn TypeError) 0 _ _ _ _ Hv H)
    as [Hd Hw].
  split; [exact (Hd _ eq_refl)|]. apply Hw; [cbn; lia|].
  intros lex1 E. vm_compute in E. discriminate E.
Defined.
